(** * Solr query translator (mediawords/solr/query.py)

    A shallow embedding of the query translator: the lexer [get_tokens]
    over the tokenizer of the Python runtime, the recursive-descent parser
    [parse_tokens], the tree filter [filter_tree] and the two emitters
    [get_tsquery] and [get_re], followed by the properties of the
    specification that are settled against them.

    Conventions of the embedding.
    - Text is [string] (a list of 8-bit characters).  The Python code works
      on Unicode text; the character classes below are the ASCII ones.
    - A Python exception is a value of [error]; a call that may raise
      returns a [result].
    - The tree a parse returns is a pure value of type [node]; the object
      graph (identities, [parent] back-references, operand lists mutated in
      place) is modelled separately in [Module Heap], where the claims on
      identity and on mutation are stated. *)

From Stdlib Require Import String Ascii List Bool Arith Lia ZArith.
From stdpp Require Import base list strings.
Import ListNotations.

Local Open Scope string_scope.
Local Open Scope list_scope.
Local Open Scope nat_scope.

(** ** Errors *)

(** The messages of [ParseSyntaxError], by the place that raises them. *)
Inductive syntax_error : Type :=
| UnexpectedToken        (* "Token '%s' is not one of the following expected types" *)
| UnknownTokenType       (* "unknown type for token '%s'" *)
| ProximityNotSupported  (* "proximity searches not supported" *)
| RegexNotSupported      (* "regular expression searches not supported" *)
| WildNotAtEnd           (* "* can only appear the end of a term" *)
| UnrecognizedToken      (* "unrecognized token '%s'" *)
| EmptyPhrase            (* "empty phrase not allowed" *)
| EmptyQuery             (* "query is empty without fields or ranges" *)
| NotInRe.               (* "not operations not supported for re()" *)

Inductive error : Type :=
| ParseSyntaxError (e : syntax_error)
| AttributeError   (* attribute access on None *)
| IndexError       (* pop from an empty list, index out of range *)
| ValueError       (* raised by the emitters and by shlex *)
| TokenError       (* raised by the tokenizer at the end of the input *)
| OutOfFuel.       (* the recursion bound of the embedding was reached *)

Inductive result (A : Type) : Type :=
| Ok (a : A)
| Err (e : error).
Arguments Ok {A} a.
Arguments Err {A} e.

Definition bind {A B : Type} (m : result A) (k : A -> result B) : result B :=
  match m with
  | Ok a => k a
  | Err e => Err e
  end.

Notation "'let!' x ':=' m 'in' k" := (bind m (fun x => k))
  (at level 10, x pattern, m at level 100, k at level 200).

Definition is_syntax_error {A : Type} (r : result A) : bool :=
  match r with
  | Err (ParseSyntaxError _) => true
  | _ => false
  end.

(** ** Text primitives of the Python runtime

    The functions of this section model the parts of [str], [re] and
    [shlex] the translator calls.  They are not code of the
    repository; each one states the behaviour it stands for. *)

Definition code (c : ascii) : nat := nat_of_ascii c.

Definition between (lo hi : nat) (c : ascii) : bool :=
  (lo <=? code c) && (code c <=? hi).

Definition is_upper (c : ascii) : bool := between 65 90 c.
Definition is_lower (c : ascii) : bool := between 97 122 c.
Definition is_digit (c : ascii) : bool := between 48 57 c.

(** [\w]: letters, digits and the underscore. *)
Definition is_word (c : ascii) : bool :=
  is_upper c || is_lower c || is_digit c || (code c =? 95).

(** [\s]: blank, \t \n \v \f \r and the separators 28..31. *)
Definition is_space (c : ascii) : bool :=
  (code c =? 32) || between 9 13 c || between 28 31 c.

Definition is_quote (c : ascii) : bool :=
  (code c =? 34) || (code c =? 39).

Definition lower_char (c : ascii) : ascii :=
  if is_upper c then ascii_of_nat (code c + 32) else c.

(** [str.lower] *)
Fixpoint lower (s : string) : string :=
  match s with
  | EmptyString => EmptyString
  | String c s' => String (lower_char c) (lower s')
  end.

Fixpoint all_chars (p : ascii -> bool) (s : string) : bool :=
  match s with
  | EmptyString => true
  | String c s' => p c && all_chars p s'
  end.

Fixpoint has_char (c : ascii) (s : string) : bool :=
  match s with
  | EmptyString => false
  | String d s' => Ascii.eqb c d || has_char c s'
  end.

Fixpoint startswith (p s : string) : bool :=
  match p, s with
  | EmptyString, _ => true
  | String a p', String b s' => Ascii.eqb a b && startswith p' s'
  | String _ _, EmptyString => false
  end.

(** [needle in s] for a non-empty needle *)
Fixpoint contains (needle s : string) : bool :=
  startswith needle s ||
  match s with
  | EmptyString => false
  | String _ s' => contains needle s'
  end.

Fixpoint rev_string (s acc : string) : string :=
  match s with
  | EmptyString => acc
  | String c s' => rev_string s' (String c acc)
  end.

Definition endswith (p s : string) : bool :=
  startswith (rev_string p "") (rev_string s "").

(** [str.replace old new] and [re.sub] of a literal pattern: the leftmost
    occurrences, not overlapping.  [skip] counts the characters of an
    occurrence still to be dropped. *)
Fixpoint replace_from (old new : string) (skip : nat) (s : string) : string :=
  match s with
  | EmptyString => EmptyString
  | String c s' =>
      match skip with
      | S k => replace_from old new k s'
      | O =>
          if startswith old s
          then new +:+ replace_from old new (String.length old - 1) s'
          else String c (replace_from old new 0 s')
      end
  end.

Definition replace (old new s : string) : string := replace_from old new 0 s.

Fixpoint join (sep : string) (l : list string) : string :=
  match l with
  | [] => ""
  | [x] => x
  | x :: l' => x +:+ sep +:+ join sep l'
  end.

(** [re.escape] (as before Python 3.7): every character that is not an
    ASCII letter, digit or underscore gets a backslash. *)
Fixpoint re_escape (s : string) : string :=
  match s with
  | EmptyString => EmptyString
  | String c s' =>
      if is_word c then String c (re_escape s')
      else if code c =? 0 then "\000" +:+ re_escape s'
      else String "\"%char (String c (re_escape s'))
  end.

(** [re.split('\W+', s)]: the fragments between the maximal runs of
    non-word characters, the empty ones at both ends included.  [acc] is
    the fragment being read (reversed), [in_sep] says that the previous
    character was a separator. *)
Fixpoint re_split_W_from (s acc : string) (in_sep : bool) : list string :=
  match s with
  | EmptyString => [rev_string acc ""]
  | String c s' =>
      if is_word c then re_split_W_from s' (String c acc) false
      else if in_sep then re_split_W_from s' acc true
      else rev_string acc "" :: re_split_W_from s' "" true
  end.

Definition re_split_W (s : string) : list string := re_split_W_from s "" false.

(** [re.sub(r'\s+', new, s)] *)
Fixpoint sub_spaces_from (new s : string) (in_run : bool) : string :=
  match s with
  | EmptyString => EmptyString
  | String c s' =>
      if is_space c
      then if in_run then sub_spaces_from new s' true
           else new +:+ sub_spaces_from new s' true
      else String c (sub_spaces_from new s' false)
  end.

Definition sub_spaces (new s : string) : string := sub_spaces_from new s false.

(** [shlex.split] (POSIX mode, [whitespace_split], no comments): the state
    machine of [shlex.read_token].  [ShEscape back] remembers the state the
    backslash was met in: [Some q] inside the quotes [q], [None] in a word.
    [tok] is the word being read, reversed. *)
Inductive shlex_state : Type :=
| ShSpace
| ShWord
| ShQuote (q : ascii)
| ShEscape (back : option ascii).

Definition is_shlex_space (c : ascii) : bool :=
  (code c =? 32) || (code c =? 9) || (code c =? 13) || (code c =? 10).

Definition is_backslash (c : ascii) : bool := code c =? 92.
Definition is_dquote (c : ascii) : bool := code c =? 34.

Fixpoint shlex_run (s : string) (st : shlex_state) (tok : string) : result (list string) :=
  match s with
  | EmptyString =>
      match st with
      | ShSpace => Ok []
      | ShWord => Ok [rev_string tok ""]
      | ShQuote _ => Err ValueError      (* "No closing quotation" *)
      | ShEscape _ => Err ValueError     (* "No escaped character" *)
      end
  | String c s' =>
      match st with
      | ShSpace =>
          if is_shlex_space c then shlex_run s' ShSpace ""
          else if is_backslash c then shlex_run s' (ShEscape None) ""
          else if is_quote c then shlex_run s' (ShQuote c) ""
          else shlex_run s' ShWord (String c "")
      | ShWord =>
          if is_shlex_space c
          then let! rest := shlex_run s' ShSpace "" in Ok (rev_string tok "" :: rest)
          else if is_quote c then shlex_run s' (ShQuote c) tok
          else if is_backslash c then shlex_run s' (ShEscape None) tok
          else shlex_run s' ShWord (String c tok)
      | ShQuote q =>
          if Ascii.eqb c q then shlex_run s' ShWord tok
          else if is_backslash c && is_dquote q then shlex_run s' (ShEscape (Some q)) tok
          else shlex_run s' (ShQuote q) (String c tok)
      | ShEscape None => shlex_run s' ShWord (String c tok)
      | ShEscape (Some q) =>
          if negb (is_backslash c) && negb (Ascii.eqb c q)
          then shlex_run s' (ShQuote q) (String c (String "\"%char tok))
          else shlex_run s' (ShQuote q) (String c tok)
      end
  end.

Definition shlex_split (s : string) : result (list string) := shlex_run s ShSpace "".

(** [shlex.split(s)[0]] *)
Definition shlex_split_first (s : string) : result string :=
  let! l := shlex_split s in
  match l with
  | [] => Err IndexError
  | x :: _ => Ok x
  end.

(** [re.sub('\w+:\[[^\]]*\]', new, s)].  [range_length s] is the length of
    the match of the pattern at the start of [s]: a maximal run of word
    characters, then [:[], then everything up to the first []]. *)
Fixpoint word_run (s : string) : nat * string :=
  match s with
  | EmptyString => (0, s)
  | String c s' =>
      if is_word c then let '(n, r) := word_run s' in (S n, r) else (0, s)
  end.

Fixpoint find_char (c : ascii) (s : string) : option nat :=
  match s with
  | EmptyString => None
  | String d s' => if Ascii.eqb c d then Some 0 else option_map S (find_char c s')
  end.

Definition range_length (s : string) : option nat :=
  match word_run s with
  | (S n, String a (String b r)) =>
      if (code a =? 58) && (code b =? 91)
      then option_map (fun k => S n + 2 + k + 1) (find_char "]"%char r)
      else None
  | _ => None
  end.

Fixpoint sub_ranges_from (new : string) (skip : nat) (s : string) : string :=
  match s with
  | EmptyString => EmptyString
  | String c s' =>
      match skip with
      | S k => sub_ranges_from new k s'
      | O =>
          match range_length s with
          | Some n => new +:+ sub_ranges_from new (n - 1) s'
          | None => String c (sub_ranges_from new 0 s')
          end
      end
  end.

Definition sub_ranges (new s : string) : string := sub_ranges_from new 0 s.

(** ** The tokenizer of the Python runtime

    [tokenize.generate_tokens], as [Lib/tokenize.py] of CPython has it up
    to version 3.11: a loop over the line that matches the regular
    expression [PseudoToken] at the current position.  It is not code of
    the repository.  The patterns are written out as scanners; each one
    returns the length of the match at the start of its argument.  A
    pattern that is followed by a character it cannot read matches as far
    as it can or not at all, so the scanners need not backtrack.

    [__get_tokens] replaces the line breaks before it calls the tokenizer
    (lemma [normalize_one_line]): the text is one line, and the line feed
    that ends a line, or follows a backslash, is not in it.  The patterns of
    a backslash at the end of a line are left out. *)

Definition CR : ascii := ascii_of_nat 13.
Definition LF : ascii := ascii_of_nat 10.

(** [[ \f\t]] *)
Definition is_whitespace (c : ascii) : bool :=
  (code c =? 32) || (code c =? 12) || (code c =? 9).

Definition is_newline (c : ascii) : bool := (code c =? 13) || (code c =? 10).

Fixpoint str_drop (n : nat) (s : string) : string :=
  match n, s with
  | S n, String _ s' => str_drop n s'
  | _, _ => s
  end.

Fixpoint str_take (n : nat) (s : string) : string :=
  match n, s with
  | S n, String c s' => String c (str_take n s')
  | _, _ => EmptyString
  end.

(** the length of the longest prefix of [s] made of characters of [class] *)
Fixpoint span (class : ascii -> bool) (s : string) : nat :=
  match s with
  | String c s' => if class c then S (span class s') else 0
  | EmptyString => 0
  end.

Definition orelse (a b : option nat) : option nat :=
  match a with
  | Some n => Some n
  | None => b
  end.

(** [(?:_?[class])*] *)
Fixpoint digits_more (class : ascii -> bool) (s : string) : nat :=
  match s with
  | String c s' =>
      if class c then S (digits_more class s')
      else if code c =? 95 then
        match s' with
        | String d s'' => if class d then S (S (digits_more class s'')) else 0
        | EmptyString => 0
        end
      else 0
  | EmptyString => 0
  end.

(** [[0-9](?:_?[0-9])*] *)
Definition digit_part (s : string) : option nat :=
  match s with
  | String c s' => if is_digit c then Some (S (digits_more is_digit s')) else None
  | EmptyString => None
  end.

(** [Exponent = [eE][-+]?[0-9](?:_?[0-9])*] *)
Definition exponent (s : string) : option nat :=
  match s with
  | String e s' =>
      if has_char e "eE" then
        match s' with
        | String sign s'' =>
            if has_char sign "-+" then option_map (fun n => 2 + n) (digit_part s'')
            else option_map S (digit_part s')
        | EmptyString => None
        end
      else None
  | EmptyString => None
  end.

(** [p?] after a match of length [n] *)
Definition maybe (pattern : string -> option nat) (n : nat) (s : string) : nat :=
  n + default 0 (pattern (str_drop n s)).

(** [Pointfloat]: digits, a point and maybe digits, or a point and digits;
    then maybe an exponent *)
Definition point_float (s : string) : option nat :=
  let mantissa :=
    match digit_part s with
    | Some n =>
        match str_drop n s with
        | String point _ => if has_char point "." then Some (maybe digit_part (S n) s) else None
        | EmptyString => None
        end
    | None =>
        match s with
        | String point s' => if has_char point "." then option_map S (digit_part s') else None
        | EmptyString => None
        end
    end in
  option_map (fun n => maybe exponent n s) mantissa.

(** [Expfloat]: digits and an exponent *)
Definition exp_float (s : string) : option nat :=
  match digit_part s with
  | Some n => option_map (Nat.add n) (exponent (str_drop n s))
  | None => None
  end.

Definition float_number (s : string) : option nat := orelse (point_float s) (exp_float s).

(** a pattern followed by [[jJ]] *)
Definition imaginary (pattern : string -> option nat) (s : string) : option nat :=
  match pattern s with
  | Some n =>
      match str_drop n s with
      | String j _ => if has_char j "jJ" then Some (S n) else None
      | EmptyString => None
      end
  | None => None
  end.

Definition imag_number (s : string) : option nat :=
  orelse (imaginary digit_part s) (imaginary float_number s).

(** [Hexnumber], [Binnumber], [Octnumber]: [0], the mark of the base, and
    one digit of the base at least *)
Definition based_number (marks : string) (class : ascii -> bool) (s : string) : option nat :=
  match s with
  | String zero (String mark s') =>
      if (code zero =? 48) && has_char mark marks
      then match digits_more class s' with
           | O => None
           | n => Some (2 + n)
           end
      else None
  | _ => None
  end.

(** [Decnumber]: zeros, or digits after a digit that is not zero, with
    single underscores between them *)
Definition dec_number (s : string) : option nat :=
  match s with
  | String c s' =>
      if code c =? 48 then Some (S (digits_more (fun d => code d =? 48) s'))
      else if is_digit c then Some (S (digits_more is_digit s'))
      else None
  | EmptyString => None
  end.

Definition int_number (s : string) : option nat :=
  orelse (based_number "xX" (fun c => is_digit c || between 97 102 c || between 65 70 c) s)
    (orelse (based_number "bB" (between 48 49) s)
       (orelse (based_number "oO" (between 48 55) s) (dec_number s))).

(** [Number = group(Imagnumber, Floatnumber, Intnumber)] *)
Definition number (s : string) : option nat :=
  orelse (imag_number s) (orelse (float_number s) (int_number s)).

(** [sorted(EXACT_TOKEN_TYPES, reverse=True)]: the operators, the long ones
    before their prefixes *)
Definition EXACT_TOKENS : list string :=
  ["~"; "}"; "|="; "|"; "{"; "^="; "^"; "]"; "["; "@="; "@"; ">>="; ">>"; ">="; ">"; "==";
   "="; "<="; "<<="; "<<"; "<"; ";"; ":="; ":"; "/="; "//="; "//"; "/"; "..."; "."; "->";
   "-="; "-"; ","; "+="; "+"; "*="; "**="; "**"; "*"; ")"; "("; "&="; "&"; "%="; "%"; "!="].

(** [Special]: the first operator of the list the text starts with *)
Definition special (s : string) : option nat :=
  option_map String.length (find (fun operator => startswith operator s) EXACT_TOKENS).

(** [Funny = group(r'\r?\n', Special)] *)
Definition funny (s : string) : option nat :=
  if startswith (String CR (String LF "")) s then Some 2
  else if startswith (String LF "") s then Some 1
  else special s.

(** [StringPrefix] before a quote: the length of the prefix and the quote.
    The prefixes are the empty one, [b], [r], [u], [f], [br], [rb], [fr] and
    [rf], in either case. *)
Definition string_start (s : string) : option (nat * ascii) :=
  match s with
  | String a s1 =>
      if is_quote a then Some (0, a)
      else
        match s1 with
        | String b s2 =>
            if is_quote b
            then if has_char (lower_char a) "bruf" then Some (1, b) else None
            else
              match s2 with
              | String c _ =>
                  if is_quote c
                     && existsb (String.eqb (lower (String a (String b "")))) ["br"; "rb"; "fr"; "rf"]
                  then Some (2, c) else None
              | EmptyString => None
              end
        | EmptyString => None
        end
  | EmptyString => None
  end.

(** [Triple]: a prefix and three quotes *)
Definition triple (s : string) : option nat :=
  match string_start s with
  | Some (p, q) =>
      if startswith (String q (String q (String q ""))) (str_drop p s) then Some (p + 3) else None
  | None => None
  end.

(** [Single3], [Double3]: the rest of a string in triple quotes, up to the
    three quotes that close it; a backslash takes the next character
    along *)
Fixpoint end_of_triple (q : ascii) (s : string) : option nat :=
  match s with
  | EmptyString => None
  | String c s' =>
      if is_backslash c then
        match s' with
        | String d s'' =>
            if code d =? 10 then None else option_map (fun n => 2 + n) (end_of_triple q s'')
        | EmptyString => None
        end
      else if Ascii.eqb c q && startswith (String q (String q "")) s' then Some 3
      else option_map S (end_of_triple q s')
  end.

(** the rest of a string in single quotes, up to the quote that closes
    it *)
Fixpoint end_of_string (q : ascii) (s : string) : option nat :=
  match s with
  | EmptyString => None
  | String c s' =>
      if Ascii.eqb c q then Some 1
      else if code c =? 10 then None
      else if is_backslash c then
        match s' with
        | String d s'' =>
            if code d =? 10 then None else option_map (fun n => 2 + n) (end_of_string q s'')
        | EmptyString => None
        end
      else option_map S (end_of_string q s')
  end.

(** [ContStr]: a prefix, a quote, and the string up to its closing quote *)
Definition cont_str (s : string) : option nat :=
  match string_start s with
  | Some (p, q) => option_map (fun n => p + 1 + n) (end_of_string q (str_drop (p + 1) s))
  | None => None
  end.

(** [Comment = #[^\r\n]*] *)
Definition comment (s : string) : option nat :=
  match s with
  | String c s' => if code c =? 35 then Some (S (span (fun d => negb (is_newline d)) s')) else None
  | EmptyString => None
  end.

(** [Name = \w+] *)
Definition name (s : string) : option nat :=
  match span is_word s with
  | O => None
  | n => Some n
  end.

(** [PseudoExtras = group(r'\\\r?\n|\Z', Comment, Triple)] *)
Definition pseudo_extras (s : string) : option nat :=
  match s with
  | EmptyString => Some 0
  | _ => orelse (comment s) (triple s)
  end.

(** [PseudoToken = Whitespace + group(PseudoExtras, Number, Funny, ContStr,
    Name)]: where the token starts and how long it is, counted from the
    current position *)
Definition pseudo_token (s : string) : option (nat * nat) :=
  let start := span is_whitespace s in
  let s := str_drop start s in
  option_map (pair start)
    (orelse (pseudo_extras s) (orelse (number s) (orelse (funny s) (orelse (cont_str s) (name s))))).

(** What a generator gives the loop that consumes it: the values it
    yields, and the exception that ends it, if it raises one. *)
Record generated : Type := mkGenerated { yielded : list string; raised : option error }.

Definition yield (token : string) (rest : generated) : generated :=
  mkGenerated (token :: yielded rest) (raised rest).

(** [token in triple_quoted] *)
Definition triple_quoted (token : string) : option ascii :=
  match string_start token with
  | Some (p, q) =>
      if String.eqb (str_drop p token) (String q (String q (String q ""))) then Some q else None
  | None => None
  end.

(** the change of [parenlev] an operator makes *)
Definition parenlev_step (token : string) : Z :=
  match token with
  | String initial _ =>
      if has_char initial "([{" then 1%Z
      else if has_char initial ")]}" then (-1)%Z
      else 0%Z
  | EmptyString => 0%Z
  end.

(** the end of the input: [readline] returns the empty string.  In a
    statement that goes on (a bracket is open, or more were closed than
    opened) that is [TokenError("EOF in multi-line statement")]; otherwise
    the tokens that close the stream follow. *)
Definition end_of_input (parenlev : Z) (closing : list string) : generated :=
  if (parenlev =? 0)%Z then mkGenerated closing None else mkGenerated [] (Some TokenError).

(** The loop [while pos < max] over the line.  [s] is the line from [pos]
    on, and [skip] counts the characters of a match still to pass.  Where
    [PseudoToken] does not match, the character at [pos] is an error token
    of its own.  A string in triple quotes that is not closed on the line
    goes on, and the end of the input raises
    [TokenError("EOF in multi-line string")]. *)
Fixpoint tokenize_from (s : string) (skip : nat) (parenlev : Z) (closing : list string)
    : generated :=
  match s with
  | EmptyString => end_of_input parenlev closing
  | String c s' =>
      match skip with
      | S skip => tokenize_from s' skip parenlev closing
      | O =>
          match pseudo_token s with
          | None => yield (String c "") (tokenize_from s' 0 parenlev closing)
          | Some (start, O) => tokenize_from s' (start - 1) parenlev closing
          | Some (start, len) =>
              let token := str_take len (str_drop start s) in
              match triple_quoted token with
              | Some q =>
                  match end_of_triple q (str_drop (start + len) s) with
                  | Some n =>
                      yield (str_take (len + n) (str_drop start s))
                        (tokenize_from s' (start + len + n - 1) parenlev closing)
                  | None => mkGenerated [] (Some TokenError)
                  end
              | None =>
                  yield token
                    (tokenize_from s' (start + len - 1) (parenlev + parenlev_step token) closing)
              end
          end
      end
  end.

(** [str.rstrip] and the left half of [str.strip] *)
Definition rstrip (class : ascii -> bool) (s : string) : string :=
  rev_string (str_drop (span class (rev_string s "")) (rev_string s "")) "".

Definition lstrip (class : ascii -> bool) (s : string) : string := str_drop (span class s) s.

(** the column of the first token: a tab goes to the next multiple of
    eight, a form feed back to zero *)
Fixpoint indentation (column : nat) (s : string) : nat :=
  match s with
  | String c s' =>
      if code c =? 32 then indentation (S column) s'
      else if code c =? 9 then indentation ((column / 8 + 1) * 8) s'
      else if code c =? 12 then indentation 0 s'
      else column
  | EmptyString => column
  end.

(** the NEWLINE token with an empty text that is added when the line does
    not end with a line break and is no comment *)
Definition implicit_newline (last_line : string) : list string :=
  match rev_string last_line "" with
  | String c _ =>
      if negb (is_newline c) && negb (startswith "#" (lstrip is_space last_line)) then [""]
      else []
  | EmptyString => []
  end.

(** [generate_tokens] on one line: the texts of the tokens, in order.  The
    line starts a statement: its indentation is measured, a line of blanks
    ends the input, a comment or a line break at its start make a line
    without statement, and an indented line gives an INDENT token before
    its tokens and a DEDENT token after them.  The ENDMARKER token, with
    an empty text, is the last one. *)
Definition generate_tokens (line : string) : generated :=
  let pos := span is_whitespace line in
  match str_drop pos line with
  | EmptyString => mkGenerated [""] None
  | String c _ as rest =>
      if code c =? 35 then
        let comment_token := rstrip is_newline rest in
        mkGenerated [comment_token; str_drop (String.length comment_token) rest; ""] None
      else if is_newline c then
        mkGenerated ([rest] ++ implicit_newline line ++ [""]) None
      else
        let column := indentation 0 line in
        if 0 <? column
        then yield (str_take pos line)
               (tokenize_from rest 0 0 (implicit_newline line ++ [""; ""]))
        else tokenize_from rest 0 0 (implicit_newline line ++ [""])
  end.

(** ** Tokens *)

Inductive token_kind : Type :=
| T_OPEN | T_CLOSE | T_PHRASE | T_AND | T_OR | T_NOT
| T_FIELD | T_TERM | T_PLUS | T_MINUS | T_NOOP.

#[global] Instance token_kind_eq_dec : EqDecision token_kind.
Proof. solve_decision. Defined.

Record Token : Type := mkToken { token_value : string; token_type : token_kind }.

Definition NOOP_PLACEHOLDER : string := "__NOOP__".
Definition FIELD_PLACEHOLDER : string := "__FIELD__".
Definition WILD_PLACEHOLDER : string := "__WILD__".

(** ** The lexer *)

(** [re.match(r'^\w+' + WILD_PLACEHOLDER + '$', token)]: the placeholder is
    made of word characters, so the token matches when it is made of word
    characters, ends with the placeholder and is longer than it. *)
Definition match_word_wild (token : string) : bool :=
  all_chars is_word token && endswith WILD_PLACEHOLDER token
  && (String.length WILD_PLACEHOLDER <? String.length token).

(** [re.match('^\w+$', token)] *)
Definition match_word (token : string) : bool :=
  all_chars is_word token && (0 <? String.length token).

Definition first_is_quote (token : string) : bool :=
  match token with
  | String c _ => is_quote c
  | EmptyString => false
  end.

Definition get_token_type (token : string) : result token_kind :=
  if String.eqb token "(" then Ok T_OPEN
  else if String.eqb token ")" then Ok T_CLOSE
  else if first_is_quote token then Ok T_PHRASE
  else if String.eqb (lower token) "and" then Ok T_AND
  else if String.eqb (lower token) "or" then Ok T_OR
  else if String.eqb (lower token) "not" || String.eqb (lower token) "!"
          || String.eqb (lower token) "-" then Ok T_NOT
  else if String.eqb token "+" then Ok T_PLUS
  else if String.eqb token "~" then Err (ParseSyntaxError ProximityNotSupported)
  else if String.eqb token "/" then Err (ParseSyntaxError RegexNotSupported)
  else if contains WILD_PLACEHOLDER token && negb (match_word_wild token)
       then Err (ParseSyntaxError WildNotAtEnd)
  else if String.eqb token NOOP_PLACEHOLDER then Ok T_NOOP
  else if endswith FIELD_PLACEHOLDER token then Ok T_FIELD
  else if match_word token then Ok T_TERM
  else Err (ParseSyntaxError UnrecognizedToken).

(** the loop over the raw tokens: empty lexemes are skipped, the first
    lexeme that cannot be classified raises *)
Fixpoint classify (raw : list string) : result (list Token) :=
  match raw with
  | [] => Ok []
  | token_value :: raw' =>
      if 0 <? String.length token_value
      then let! ty := get_token_type token_value in
           let! tokens := classify raw' in
           Ok (mkToken token_value ty :: tokens)
      else classify raw'
  end.

Definition normalize (query : string) : string :=
  let query := lower query in
  let query := replace "!" "-" query in
  let query := replace (String (ascii_of_nat 10) "") " " query in
  let query := replace (String (ascii_of_nat 13) "") " " query in
  let query := sub_ranges NOOP_PLACEHOLDER query in
  let query := replace ":" (FIELD_PLACEHOLDER +:+ " ") query in
  replace "*" WILD_PLACEHOLDER query.

(** [__get_tokens]: the loop consumes the generator, so an exception of
    the tokenizer comes after the tokens it yielded were classified *)
Definition get_tokens (query : string) : result (list Token) :=
  let raw_tokens := generate_tokens (normalize query) in
  let! tokens := classify (yielded raw_tokens) in
  match raised raw_tokens with
  | Some e => Err e
  | None => Ok tokens
  end.

(** ** Parse trees

    One constructor per node class.  [filtered_by_function] is the
    attribute of that name: [None] until a filter pass builds the node,
    then the identity of the filter function.  The operands of a boolean
    node are [option node]: the parser can append the empty result ([None])
    of an empty group to an operand list. *)
#[warnings="-register-all"]
Inductive node : Type :=
| TermNode (filtered_by_function : option nat) (term : string) (wildcard phrase : bool)
| AndNode (filtered_by_function : option nat) (operands : list (option node))
| OrNode (filtered_by_function : option nat) (operands : list (option node))
| NotNode (filtered_by_function : option nat) (operand : node)
| FieldNode (filtered_by_function : option nat) (field : string) (operand : node)
| NoopNode (filtered_by_function : option nat).

(** the two subclasses of [BooleanNode] *)
Inductive boolean_type : Type := AndType | OrType.

#[global] Instance boolean_type_eq_dec : EqDecision boolean_type.
Proof. solve_decision. Defined.

Definition filtered_by (n : node) : option nat :=
  match n with
  | TermNode m _ _ _ | AndNode m _ | OrNode m _
  | NotNode m _ | FieldNode m _ _ | NoopNode m => m
  end.

Definition mk_boolean (t : boolean_type) (m : option nat) (operands : list (option node)) : node :=
  match t with
  | AndType => AndNode m operands
  | OrType => OrNode m operands
  end.

(** [type(clause)] when it is a boolean class *)
Definition boolean_type_of (clause : option node) : option boolean_type :=
  match clause with
  | Some (AndNode _ _) => Some AndType
  | Some (OrNode _ _) => Some OrType
  | _ => None
  end.

Definition operands_of (clause : option node) : list (option node) :=
  match clause with
  | Some (AndNode _ ops) | Some (OrNode _ ops) => ops
  | _ => []
  end.

(** [BooleanNode.__init__]: [operand.parent = self] for every operand, an
    [AttributeError] when one of them is [None]. *)
Definition BooleanNode_init (t : boolean_type) (operands : list (option node)) : result node :=
  if forallb (fun o : option node => match o with Some _ => true | None => false end) operands
  then Ok (mk_boolean t None operands)
  else Err AttributeError.

(** [NotNode.__init__] and [FieldNode.__init__]: [operand.parent = self] *)
Definition NotNode_init (operand : option node) : result node :=
  match operand with
  | Some o => Ok (NotNode None o)
  | None => Err AttributeError
  end.

Definition FieldNode_init (field : string) (operand : option node) : result node :=
  match operand with
  | Some o => Ok (FieldNode None field o)
  | None => Err AttributeError
  end.

(** ** The parser *)

Definition kind_in (k : token_kind) (l : list token_kind) : bool :=
  existsb (fun x => bool_decide (x = k)) l.

(** [__check_type] *)
Definition check_type (checked_token : Token) (checked_want_type : list token_kind) : result unit :=
  if kind_in (token_type checked_token) checked_want_type then Ok tt
  else Err (ParseSyntaxError UnexpectedToken).

(** The end of a loop iteration: when [boolean_clause] is set, the clause
    just read becomes its next operand (its operands, when both are of the
    same class) and the boolean node is the clause again.  [boolean_clause]
    only ever holds an And or an Or node; the other cases are not reached. *)
Definition append_operand (boolean_clause clause : option node) : option node :=
  match boolean_clause with
  | None => clause
  | Some (AndNode m ops) =>
      if bool_decide (boolean_type_of clause = Some AndType)
      then Some (AndNode m (ops ++ operands_of clause))
      else Some (AndNode m (ops ++ [clause]))
  | Some (OrNode m ops) =>
      if bool_decide (boolean_type_of clause = Some OrType)
      then Some (OrNode m (ops ++ operands_of clause))
      else Some (OrNode m (ops ++ [clause]))
  | Some b => Some b
  end.

Definition WANT_START : list token_kind := [T_OPEN; T_PHRASE; T_NOT; T_TERM].
Definition WANT_GROUP : list token_kind :=
  [T_OPEN; T_PHRASE; T_NOT; T_FIELD; T_TERM; T_NOOP; T_CLOSE].
Definition WANT_AFTER_GROUP : list token_kind :=
  [T_OPEN; T_PHRASE; T_NOT; T_FIELD; T_TERM; T_NOOP; T_CLOSE; T_AND; T_OR; T_PLUS].
Definition WANT_OPERATOR : list token_kind := [T_CLOSE; T_AND; T_OR; T_PLUS].
Definition WANT_OPERAND : list token_kind :=
  [T_OPEN; T_PHRASE; T_NOT; T_FIELD; T_TERM; T_NOOP; T_CLOSE; T_PLUS].

(** [__parse_tokens].  The token list is one mutable list shared by the
    nested calls, so a call returns what it left of it next to its clause.
    The loop variables [clause], [boolean_clause] and [hanging_boolean] are
    arguments; a call of the source starts with [None], [None], [false].
    [parse_iteration] is one iteration of the loop; its first argument
    stands for the rest of the run: the next iterations and the nested
    calls. *)
Definition parse_iteration
    (parse_tokens : list Token -> list token_kind -> option node -> option node -> bool ->
                    result (option node * list Token))
    (tokens : list Token) (want_type : list token_kind)
    (clause boolean_clause : option node) (hanging_boolean : bool)
    : result (option node * list Token) :=
  match tokens with
  | [] => Ok (clause, [])
  | token :: tokens =>
    if bool_decide (token_type token = T_PLUS)
       && (match clause with None => true | Some _ => false end
           || match boolean_type_of clause with Some _ => true | None => false end)
    then parse_tokens tokens want_type clause boolean_clause hanging_boolean
    else
      let '(boolean_clause, token, tokens) :=
        if hanging_boolean then (clause, token, tokens)
        else if match clause with Some _ => true | None => false end
                && kind_in (token_type token) [T_OPEN; T_PHRASE; T_TERM; T_NOOP; T_FIELD]
        then (boolean_clause, mkToken "or" T_OR, token :: tokens)
        else if match clause with Some _ => true | None => false end
                && kind_in (token_type token) [T_NOT]
        then (boolean_clause, mkToken "and" T_AND, token :: tokens)
        else (boolean_clause, token, tokens) in
      let! _ := check_type token want_type in
      (* the end of the iteration: [want_type += [T_CLOSE]], the operand
         is appended, and the loop goes on *)
      let next := fun tokens want_type clause hanging_boolean =>
        parse_tokens tokens (want_type ++ [T_CLOSE])
          (append_operand boolean_clause clause) None hanging_boolean in
      match token_type token with
      | T_OPEN =>
          let! (clause, tokens) := parse_tokens tokens WANT_GROUP None None false in
          next tokens WANT_AFTER_GROUP clause false
      | T_CLOSE => Ok (clause, tokens)
      | T_NOOP => next tokens WANT_OPERATOR (Some (NoopNode None)) false
      | T_TERM =>
          let wildcard := endswith WILD_PLACEHOLDER (token_value token) in
          let value :=
            if wildcard then replace WILD_PLACEHOLDER "" (token_value token)
            else token_value token in
          next tokens WANT_OPERATOR (Some (TermNode None value wildcard false)) false
      | T_PHRASE =>
          next tokens WANT_OPERATOR (Some (TermNode None (token_value token) false true)) false
      | T_AND | T_PLUS | T_OR =>
          let node_type := if bool_decide (token_type token = T_OR) then OrType else AndType in
          let! clause :=
            if bool_decide (boolean_type_of clause = Some node_type)
            then BooleanNode_init node_type (operands_of clause)
            else BooleanNode_init node_type [clause] in
          next tokens WANT_OPERAND (Some clause) true
      | T_FIELD =>
          let field_name := replace FIELD_PLACEHOLDER "" (token_value token) in
          match tokens with
          | [] => Err IndexError
          | next_token :: tokens =>
              let! (field_clause, tokens) :=
                if bool_decide (token_type next_token = T_OPEN)
                then parse_tokens tokens
                       [T_PHRASE; T_NOT; T_TERM; T_NOOP; T_CLOSE; T_PLUS] None None false
                else let! (c, _) := parse_tokens [next_token]
                                       [T_PHRASE; T_TERM; T_NOOP] None None false in
                     Ok (c, tokens) in
              let! clause := FieldNode_init field_name field_clause in
              next tokens WANT_OPERATOR (Some clause) false
          end
      | T_NOT =>
          match tokens with
          | [] => Err IndexError
          | next_token :: tokens =>
              let! (operand, tokens) :=
                if bool_decide (token_type next_token = T_OPEN)
                then parse_tokens tokens
                       [T_FIELD; T_PHRASE; T_NOT; T_TERM; T_NOOP; T_CLOSE; T_PLUS] None None false
                else if bool_decide (token_type next_token = T_FIELD)
                then parse_tokens (next_token :: tokens) [T_FIELD] None None false
                else let! (c, _) := parse_tokens [next_token]
                                       [T_PHRASE; T_TERM; T_NOOP; T_FIELD] None None false in
                     Ok (c, tokens) in
              let! clause := NotNode_init operand in
              next tokens WANT_OPERATOR (Some clause) false
          end
      | T_MINUS => Err (ParseSyntaxError UnknownTokenType)
      end
  end.

(** one unit of [fuel] per loop iteration and per level of nesting *)
Fixpoint parse_tokens (fuel : nat) (tokens : list Token) (want_type : list token_kind)
    (clause boolean_clause : option node) (hanging_boolean : bool)
    : result (option node * list Token) :=
  match fuel with
  | O => Err OutOfFuel
  | S fuel =>
      parse_iteration (parse_tokens fuel) tokens want_type clause boolean_clause hanging_boolean
  end.

(** fuel that no token list exhausts (lemma [parse_tokens_fuel]) *)
Definition enough_fuel (tokens : list Token) : nat := 2 * length tokens + 2.

(** a call [__parse_tokens(tokens)] from outside, with the default [want_type] *)
Definition parse_tokens_top (tokens : list Token) : result (option node) :=
  let! (clause, _) := parse_tokens (enough_fuel tokens) tokens WANT_START None None false in
  Ok clause.

(** Modelled from the spec: [decode_string_from_bytes_if_needed] of
    [mediawords.util.perl], "a string-decoding helper that accepts either
    raw bytes or an already-decoded string and returns a string"
    (section 6).  A query is text here, which it returns as it is. *)
Definition decode_string_from_bytes_if_needed (s : string) : string := s.

(** [parse] *)
Definition parse (solr_query : string) : result (option node) :=
  let solr_query := "( " +:+ decode_string_from_bytes_if_needed solr_query +:+ " )" in
  let! tokens := get_tokens solr_query in
  parse_tokens_top tokens.

(** ** The tree filter *)

(** A filter function: a Python callable.  [self.filtered_by_function ==
    filter_function] compares two function objects, that is their
    identities [fn_id]; [fn_call] is the truth value of the call. *)
Record filter_function : Type := mkFilter { fn_id : nat; fn_call : node -> bool }.

(** [__node_is_field_or_noop] *)
Definition node_is_field_or_noop : filter_function :=
  mkFilter 0 (fun node =>
    match node with
    | FieldNode _ field _ => negb (String.eqb field "sentence")
    | NoopNode _ => true
    | _ => false
    end).

(** [__node_is_field_or_noop_or_not] *)
Definition node_is_field_or_noop_or_not : filter_function :=
  mkFilter 1 (fun node =>
    match node with
    | FieldNode _ field _ => negb (String.eqb field "sentence")
    | NoopNode _ | NotNode _ _ => true
    | _ => false
    end).

Definition memo_is (m : option nat) (f : filter_function) : bool :=
  bool_decide (m = Some (fn_id f)).

(** The loop of [_filter_boolean_node_children]: every operand is
    filtered in turn and appended when something is left of it.  An operand
    that is [None] raises. *)
Section filter_operands.
Variable filter_node : node -> result (option node).

Fixpoint filter_operands (operands : list (option node)) : result (list (option node)) :=
  match operands with
  | [] => Ok []
  | None :: _ => Err AttributeError
  | Some operand :: operands =>
      let! filtered_operand := filter_node operand in
      let! filtered_operands := filter_operands operands in
      match filtered_operand with
      | Some o => Ok (Some o :: filtered_operands)
      | None => Ok filtered_operands
      end
  end.
End filter_operands.

(** [filter_tree], with [_filter_node_children] of every class inlined: the
    memo test, the call of the filter function, the copy of the node over
    its filtered operands, and the memo set on the copy. *)
Fixpoint filter_tree (filter_function : filter_function) (self : node)
    : result (option node) :=
  if memo_is (filtered_by self) filter_function then Ok (Some self)
  else if fn_call filter_function self then Ok None
  else
    let memo := Some (fn_id filter_function) in
    match self with
    | TermNode _ term wildcard phrase => Ok (Some (TermNode memo term wildcard phrase))
    | AndNode _ operands =>
        let! filtered_operands := filter_operands (filter_tree filter_function) operands in
        if 0 <? length filtered_operands
        then Ok (Some (AndNode memo filtered_operands)) else Ok None
    | OrNode _ operands =>
        let! filtered_operands := filter_operands (filter_tree filter_function) operands in
        if 0 <? length filtered_operands
        then Ok (Some (OrNode memo filtered_operands)) else Ok None
    | NotNode _ operand =>
        let! filtered_operand := filter_tree filter_function operand in
        match filtered_operand with
        | Some o => Ok (Some (NotNode memo o))
        | None => Ok None
        end
    | FieldNode _ field operand =>
        let! filtered_operand := filter_tree filter_function operand in
        match filtered_operand with
        | Some o => Ok (Some (FieldNode memo field o))
        | None => Ok None
        end
    | NoopNode _ => Ok (Some (NoopNode memo))
    end.

(** ** The emitters *)

(** [map(lambda x: x.get(), self.operands)], consumed in order: the first
    operand that raises ends it, and so does an operand that is [None] *)
Section emit_operands.
Variable get : node -> result string.

Fixpoint emit_operands (operands : list (option node)) : result (list string) :=
  match operands with
  | [] => Ok []
  | None :: _ => Err AttributeError
  | Some x :: operands =>
      let! s := get x in
      let! rest := emit_operands operands in
      Ok (s :: rest)
  end.
End emit_operands.

(** *** The tsquery emitter *)

(** [BooleanNode.get_tsquery] over the emitted operands *)
Definition boolean_tsquery (connector : string) (parts : list string) : string :=
  "( " +:+ join (" " +:+ connector +:+ " ") parts +:+ " )".

Definition nonempty (s : string) : bool := 0 <? String.length s.

(** the words of a phrase: [re.split('\W+', ...)] without the empty fragments *)
Definition phrase_words (dequoted_phrase : string) : list string :=
  filter (fun term => nonempty term = true) (re_split_W dequoted_phrase).

(** [get_tsquery] of every class.  For a phrase the source builds
    [AndNode(operands)] over fresh plain [TermNode]s and emits it; a plain
    term emits its text, so that And node is emitted here over the words
    themselves (lemma [emit_plain_terms]). *)
Fixpoint get_tsquery (self : node) : result string :=
  match self with
  | TermNode _ term wildcard phrase =>
      if phrase then
        let! dequoted_phrase := shlex_split_first term in
        let operands := phrase_words dequoted_phrase in
        if length operands =? 0 then Err (ParseSyntaxError EmptyPhrase)
        else Ok (boolean_tsquery "&" operands)
      else Ok (if negb wildcard then term else term +:+ ":*")
  | AndNode _ operands =>
      let! parts := emit_operands get_tsquery operands in Ok (boolean_tsquery "&" parts)
  | OrNode _ operands =>
      let! parts := emit_operands get_tsquery operands in Ok (boolean_tsquery "|" parts)
  | NotNode _ operand =>
      let! s := get_tsquery operand in Ok ("!" +:+ s)
  | FieldNode _ field operand =>
      if String.eqb field "sentence" then get_tsquery operand else Err ValueError
  | NoopNode _ => Err ValueError
  end.

(** [ParseNode.tsquery] *)
Definition tsquery (self : node) : result string :=
  let! filtered_tree := filter_tree node_is_field_or_noop self in
  match filtered_tree with
  | None => Err (ParseSyntaxError EmptyQuery)
  | Some t => get_tsquery t
  end.

(** *** The regex emitter *)

Definition and_re (a b : string) : string :=
  "(?: (?: " +:+ a +:+ " .* " +:+ b +:+ " ) | (?: " +:+ b +:+ " .* " +:+ a +:+ " ) )".

(** [TermNode.get_re] *)
Definition term_re (term : string) (phrase : bool) : result string :=
  if phrase then
    let! term := shlex_split_first term in
    let term := lower term in
    let term := sub_spaces "SPACE" term in
    let term := re_escape term in
    let term := replace "SPACE" "[[:space:]]+" term in
    Ok ("[[:<:]]" +:+ term)
  else Ok ("[[:<:]]" +:+ re_escape term).

(** [get_re] of every class; [AndNode.get_re(operands)] is the inner
    recursion over the operand list. *)
Fixpoint get_re (self : node) : result string :=
  match self with
  | TermNode _ term _ phrase => term_re term phrase
  | AndNode _ operands =>
      (fix and_get_re (operands : list (option node)) : result string :=
         match operands with
         | [] => Err IndexError
         | [x] => match x with Some x => get_re x | None => Err AttributeError end
         | x :: rest =>
             let! a := match x with Some x => get_re x | None => Err AttributeError end in
             let! b := and_get_re rest in
             Ok (and_re a b)
         end) operands
  | OrNode _ operands =>
      let! parts := emit_operands get_re operands in
      Ok ("(?: " +:+ join " | " parts +:+ " )")
  | NotNode _ _ => Err (ParseSyntaxError NotInRe)
  | FieldNode _ field operand =>
      if String.eqb field "sentence" then get_re operand else Err ValueError
  | NoopNode _ => Err ValueError
  end.

(** [ParseNode.re] *)
Definition re (self : node) : result string :=
  let! filtered_tree := filter_tree node_is_field_or_noop_or_not self in
  match filtered_tree with
  | None => Err (ParseSyntaxError EmptyQuery)
  | Some t => get_re t
  end.

(** a method called on what [parse] returned: [None] has no methods *)
Definition call {A : Type} (method : node -> result A) (r : result (option node)) : result A :=
  let! n := r in
  match n with
  | Some n => method n
  | None => Err AttributeError
  end.

(** *** The printed form *)

(** [_plain_connector] and [_tsquery_connector] of the two subclasses of
    [BooleanNode] *)
Definition plain_connector (t : boolean_type) : string :=
  match t with
  | AndType => "and"
  | OrType => "or"
  end.

Definition tsquery_connector (t : boolean_type) : string :=
  match t with
  | AndType => "&"
  | OrType => "|"
  end.

(** [__repr__] of every class, which [__str__] returns; [str(None)] is
    the text of a missing operand *)
Fixpoint repr (self : node) : string :=
  match self with
  | TermNode _ term wildcard _ => if negb wildcard then term else term +:+ "*"
  | AndNode _ operands =>
      "( " +:+ join (" " +:+ plain_connector AndType +:+ " ")
                 (map (fun x => match x with Some x => repr x | None => "None" end) operands)
      +:+ " )"
  | OrNode _ operands =>
      "( " +:+ join (" " +:+ plain_connector OrType +:+ " ")
                 (map (fun x => match x with Some x => repr x | None => "None" end) operands)
      +:+ " )"
  | NotNode _ operand => "!" +:+ repr operand
  | FieldNode _ field operand => field +:+ ":" +:+ repr operand
  | NoopNode _ => NOOP_PLACEHOLDER
  end.

(** ** The object graph

    The nodes as Python objects: a heap of objects addressed by their
    identity, each with the attributes of its class, its [parent]
    back-reference and its [filtered_by_function].  A constructor
    allocates; [operand.parent = self] and [filtered_tree.filtered_by_function
    = filter_function] are updates in place.  The filter only ever reads
    the operand list of a node it visits and hands a list of its own to the
    node it builds, so an operand list is kept inside its node. *)
Module Heap.

(** the identity of an object is its index in the heap *)
Abbreviation addr := nat.

Inductive shape : Type :=
| STerm (term : string) (wildcard phrase : bool)
| SAnd (operands : list (option addr))
| SOr (operands : list (option addr))
| SNot (operand : addr)
| SField (field : string) (operand : addr)
| SNoop.

Record object : Type := mkObject {
  obj_shape : shape;
  parent : option addr;
  filtered_by_function : option nat
}.

Abbreviation heap := (list object).

(** a filter function sees the node it is called on, in the heap; it is
    taken to read the heap only, as the two filter functions of the class
    do *)
Record filter_function : Type := mkFilter { fn_id : nat; fn_call : heap -> addr -> bool }.

(** a constructor call without its assignments to [parent] *)
Definition alloc (s : shape) (h : heap) : addr * heap :=
  (length h, h ++ [mkObject s None None]).

(** [operand.parent = self] *)
Definition set_parent (self : addr) (h : heap) (operand : addr) : heap :=
  alter (fun o => mkObject (obj_shape o) (Some self) (filtered_by_function o)) operand h.

(** A constructor call over the operands of the new node: the object is
    allocated and every operand gets it as [parent].  [m] is the memo the
    node is to carry: the filter sets its own on the node it has built; a
    node of the parser carries none. *)
Definition construct (s : shape) (operands : list addr) (m : option nat) (h : heap)
    : addr * heap :=
  let '(self, h) := alloc s h in
  let h := fold_left (set_parent self) operands h in
  (self, alter (fun o => mkObject (obj_shape o) (parent o) m) self h).

(** a node built by the filter [f] *)
Definition build (f : filter_function) (s : shape) (operands : list addr) (h : heap)
    : addr * heap :=
  construct s operands (Some (fn_id f)) h.

Definition memo_is (m : option nat) (f : filter_function) : bool :=
  bool_decide (m = Some (fn_id f)).

(** the loop of [_filter_boolean_node_children] over the operands still
    to visit, given the filter of one node *)
Fixpoint filter_operands (filter_node : addr -> heap -> result (option addr) * heap)
    (operands : list (option addr)) (h : heap) : result (list addr) * heap :=
  match operands with
  | [] => (Ok [], h)
  | None :: _ => (Err AttributeError, h)
  | Some operand :: operands =>
      match filter_node operand h with
      | (Err e, h) => (Err e, h)
      | (Ok filtered_operand, h) =>
          match filter_operands filter_node operands h with
          | (Err e, h) => (Err e, h)
          | (Ok filtered_operands, h) =>
              (Ok (match filtered_operand with
                   | Some o => o :: filtered_operands
                   | None => filtered_operands
                   end), h)
          end
      end
  end.

(** [filter_tree] on the object at [self].  An address that holds no
    object does not arise from a heap the parser built; it is reported
    as [IndexError]. *)
Fixpoint filter_tree (fuel : nat) (f : filter_function) (self : addr) (h : heap)
    : result (option addr) * heap :=
  match fuel with
  | O => (Err OutOfFuel, h)
  | S fuel =>
    match h !! self with
    | None => (Err IndexError, h)
    | Some o =>
      if memo_is (filtered_by_function o) f then (Ok (Some self), h)
      else if fn_call f h self then (Ok None, h)
      else
        let boolean := fun (mk : list (option addr) -> shape) operands =>
          match filter_operands (filter_tree fuel f) operands h with
          | (Err e, h) => (Err e, h)
          | (Ok filtered_operands, h) =>
              if 0 <? length filtered_operands
              then let '(t, h) := build f (mk (map Some filtered_operands)) filtered_operands h in
                   (Ok (Some t), h)
              else (Ok None, h)
          end in
        let unary := fun (mk : addr -> shape) operand =>
          match filter_tree fuel f operand h with
          | (Err e, h) => (Err e, h)
          | (Ok (Some filtered_operand), h) =>
              let '(t, h) := build f (mk filtered_operand) [filtered_operand] h in
              (Ok (Some t), h)
          | (Ok None, h) => (Ok None, h)
          end in
        match obj_shape o with
        | STerm term wildcard phrase =>
            let '(t, h) := build f (STerm term wildcard phrase) [] h in (Ok (Some t), h)
        | SAnd operands => boolean SAnd operands
        | SOr operands => boolean SOr operands
        | SNot operand => unary SNot operand
        | SField field operand => unary (SField field) operand
        | SNoop => let '(t, h) := build f SNoop [] h in (Ok (Some t), h)
        end
    end
  end.

(** the two filter functions of the class, as they read the heap *)
Definition node_is_field_or_noop : filter_function :=
  mkFilter 0 (fun h node =>
    match obj_shape <$> h !! node with
    | Some (SField field _) => negb (String.eqb field "sentence")
    | Some SNoop => true
    | _ => false
    end).

Definition node_is_field_or_noop_or_not : filter_function :=
  mkFilter 1 (fun h node =>
    match obj_shape <$> h !! node with
    | Some (SField field _) => negb (String.eqb field "sentence")
    | Some SNoop | Some (SNot _) => true
    | _ => false
    end).

(** *** Trees and heaps *)

(** the operands of a boolean node laid out one after the other *)
Section store_operands.
Variable store_node : node -> heap -> addr * heap.

Fixpoint store_operands (operands : list (option node)) (h : heap)
    : list (option addr) * heap :=
  match operands with
  | [] => ([], h)
  | None :: operands =>
      let '(l, h) := store_operands operands h in (None :: l, h)
  | Some x :: operands =>
      let '(a, h) := store_node x h in
      let '(l, h) := store_operands operands h in (Some a :: l, h)
  end.
End store_operands.

(** the tree a parse returned, laid out in the heap: the operands first,
    then the node, whose constructor sets their [parent] *)
Fixpoint store (t : node) (h : heap) : addr * heap :=
  match t with
  | TermNode m term wildcard phrase => construct (STerm term wildcard phrase) [] m h
  | AndNode m operands =>
      let '(l, h) := store_operands store operands h in construct (SAnd l) (omap id l) m h
  | OrNode m operands =>
      let '(l, h) := store_operands store operands h in construct (SOr l) (omap id l) m h
  | NotNode m operand =>
      let '(a, h) := store operand h in construct (SNot a) [a] m h
  | FieldNode m field operand =>
      let '(a, h) := store operand h in construct (SField field a) [a] m h
  | NoopNode m => construct SNoop [] m h
  end.

(** the operands [ts] are in the heap at the addresses [l], one by one *)
Section hold_all.
Variable hold : node -> addr -> Prop.

Fixpoint hold_all (ts : list (option node)) (l : list (option addr)) : Prop :=
  match ts, l with
  | [], [] => True
  | None :: ts, None :: l => hold_all ts l
  | Some x :: ts, Some b :: l => hold x b /\ hold_all ts l
  | _, _ => False
  end.
End hold_all.

(** the tree [t] is in the heap at [a]: the object at [a] has the class,
    the attributes and the memo of the root of [t], and its operands hold
    the operands of [t] *)
Fixpoint holds (h : heap) (t : node) (a : addr) : Prop :=
  exists o, h !! a = Some o /\ filtered_by_function o = filtered_by t /\
    match t with
    | TermNode _ term wildcard phrase => obj_shape o = STerm term wildcard phrase
    | AndNode _ ts => exists l, obj_shape o = SAnd l /\ hold_all (holds h) ts l
    | OrNode _ ts => exists l, obj_shape o = SOr l /\ hold_all (holds h) ts l
    | NotNode _ x => exists b, obj_shape o = SNot b /\ holds h x b
    | FieldNode _ field x => exists b, obj_shape o = SField field b /\ holds h x b
    | NoopNode _ => obj_shape o = SNoop
    end.

(** the trees below the operands of a boolean node *)
Section trees_at.
Variable tree_of : addr -> option node.

Fixpoint trees_at (operands : list (option addr)) : option (list (option node)) :=
  match operands with
  | [] => Some []
  | None :: operands => l ← trees_at operands; Some (None :: l)
  | Some b :: operands => t ← tree_of b; l ← trees_at operands; Some (Some t :: l)
  end.
End trees_at.

(** the tree below an address, read back from the heap *)
Fixpoint tree_at (fuel : nat) (h : heap) (a : addr) : option node :=
  match fuel with
  | O => None
  | S fuel =>
    o ← h !! a;
    let m := filtered_by_function o in
    match obj_shape o with
    | STerm term wildcard phrase => Some (TermNode m term wildcard phrase)
    | SAnd operands => l ← trees_at (tree_at fuel h) operands; Some (AndNode m l)
    | SOr operands => l ← trees_at (tree_at fuel h) operands; Some (OrNode m l)
    | SNot operand => t ← tree_at fuel h operand; Some (NotNode m t)
    | SField field operand => t ← tree_at fuel h operand; Some (FieldNode m field t)
    | SNoop => Some (NoopNode m)
    end
  end.

(** [tsquery] and [re] on the object at [self]: the filter runs on the
    heap, the emitter reads the tree it built *)
Definition emit (fuel : nat) (f : filter_function) (get : node -> result string)
    (self : addr) (h : heap) : result string * heap :=
  match filter_tree fuel f self h with
  | (Err e, h) => (Err e, h)
  | (Ok None, h) => (Err (ParseSyntaxError EmptyQuery), h)
  | (Ok (Some filtered_tree), h) =>
      (match tree_at fuel h filtered_tree with
       | Some t => get t
       | None => Err OutOfFuel
       end, h)
  end.

Definition tsquery (fuel : nat) : addr -> heap -> result string * heap :=
  emit fuel node_is_field_or_noop get_tsquery.

Definition re (fuel : nat) : addr -> heap -> result string * heap :=
  emit fuel node_is_field_or_noop_or_not get_re.

(** the addresses an object refers to as its operands *)
Definition operand_addrs (s : shape) : list addr :=
  match s with
  | SAnd l | SOr l => omap id l
  | SNot a | SField _ a => [a]
  | STerm _ _ _ | SNoop => []
  end.

(** the object at [a] carries the memo of [f] *)
Definition has_memo (f : filter_function) (h : heap) (a : addr) : Prop :=
  exists o, h !! a = Some o /\ filtered_by_function o = Some (fn_id f).

(** no object of the heap carries the memo of [f]: so it is in the heap
    of a tree the parser has just built, for every [f] *)
Definition unfiltered_by (f : filter_function) (h : heap) : Prop :=
  forall a, ~ has_memo f h a.

(** every object of [h] is in [h'] at its address, with the attributes of
    its class and its memo *)
Definition preserved (h h' : heap) : Prop :=
  forall b o, h !! b = Some o ->
    exists o', h' !! b = Some o' /\ obj_shape o' = obj_shape o
               /\ filtered_by_function o' = filtered_by_function o.

(** What a run of the filter [f] does to the heap: the heap grows; an
    object that was there keeps its attributes and its memo, and is the
    same object altogether unless it carries the memo of [f]; a new
    object refers to new objects or to objects that carry the memo of
    [f]. *)
Record grows (f : filter_function) (h h' : heap) : Prop := mkGrows {
  grows_length : length h <= length h';
  grows_old : forall b o, h !! b = Some o ->
    exists o', h' !! b = Some o' /\ obj_shape o' = obj_shape o
      /\ filtered_by_function o' = filtered_by_function o
      /\ (filtered_by_function o <> Some (fn_id f) -> o' = o);
  grows_new : forall b o c, length h <= b -> h' !! b = Some o ->
    c ∈ operand_addrs (obj_shape o) -> length h <= c \/ has_memo f h c
}.

(** the contract of the filter of one node, as the loop over the
    operands uses it *)
Definition filter_spec (f : filter_function)
    (filter_node : addr -> heap -> result (option addr) * heap) : Prop :=
  forall a h r h', filter_node a h = (r, h') ->
    grows f h h' /\ forall t, r = Ok (Some t) -> has_memo f h' t.

End Heap.

(** the filter function [g] on the heap is the filter function [f] on
    trees: the same identity, and the same answer on a tree and on an
    address that holds it *)
Definition agree (f : filter_function) (g : Heap.filter_function) : Prop :=
  fn_id f = Heap.fn_id g
  /\ forall h t a, Heap.holds h t a -> Heap.fn_call g h a = fn_call f t.

(** the outcome [r'] of the filter on the heap, which it left as [h'],
    against the outcome [r] of the filter on trees: the same exception,
    [None] for [None], and an address that holds the tree *)
Definition refines (h' : list Heap.object)
    (r : result (option node)) (r' : result (option nat)) : Prop :=
  match r with
  | Err e => r' = Err e
  | Ok None => r' = Ok None
  | Ok (Some t') => exists a', r' = Ok (Some a') /\ Heap.holds h' t' a'
  end.

Definition refines_all (h' : list Heap.object)
    (r : result (list (option node))) (r' : result (list nat)) : Prop :=
  match r with
  | Err e => r' = Err e
  | Ok ts => exists l, r' = Ok l /\ Heap.hold_all (Heap.holds h') ts (map Some l)
  end.

(** the height of a tree *)
Fixpoint depth (t : node) : nat :=
  match t with
  | AndNode _ operands | OrNode _ operands =>
      S (foldr (fun o d => match o with Some x => depth x | None => 0 end `max` d) 0 operands)
  | NotNode _ operand | FieldNode _ _ operand => S (depth operand)
  | TermNode _ _ _ _ | NoopNode _ => 0
  end.

(** ** Shapes of trees *)

Definition is_and (n : node) : bool :=
  match n with AndNode _ _ => true | _ => false end.

Definition is_or (n : node) : bool :=
  match n with OrNode _ _ => true | _ => false end.

(** no And node has an And node among its operands, no Or node an Or node *)
Fixpoint flattened (n : node) : bool :=
  match n with
  | AndNode _ operands =>
      forallb (fun o => match o with
                        | Some x => negb (is_and x) && flattened x
                        | None => true
                        end) operands
  | OrNode _ operands =>
      forallb (fun o => match o with
                        | Some x => negb (is_or x) && flattened x
                        | None => true
                        end) operands
  | NotNode _ operand | FieldNode _ _ operand => flattened operand
  | TermNode _ _ _ _ | NoopNode _ => true
  end.

(** no node of the tree carries the memo of a filter *)
Fixpoint never_filtered (n : node) : bool :=
  match n with
  | AndNode m operands | OrNode m operands =>
      bool_decide (m = None)
      && forallb (fun o => match o with Some x => never_filtered x | None => true end) operands
  | NotNode m operand | FieldNode m _ operand => bool_decide (m = None) && never_filtered operand
  | TermNode m _ _ _ | NoopNode m => bool_decide (m = None)
  end.

(** the tree holds no Not node *)
Fixpoint without_not (n : node) : bool :=
  match n with
  | AndNode _ operands | OrNode _ operands =>
      forallb (fun o => match o with Some x => without_not x | None => true end) operands
  | NotNode _ _ => false
  | FieldNode _ _ operand => without_not operand
  | TermNode _ _ _ _ | NoopNode _ => true
  end.

(** a quoted literal: [body] between two quote characters [q] *)
Definition quoted (q : ascii) (body : string) : string :=
  String q (body +:+ String q "").

Definition dquote : ascii := ascii_of_nat 34.

Definition tok (value : string) (kind : token_kind) : Token := mkToken value kind.

Definition depth_all (ts : list (option node)) : nat :=
  foldr (fun o d => match o with Some x => depth x | None => 0 end `max` d) 0 ts.

Definition never_filtered_all (ts : list (option node)) : bool :=
  forallb (fun o => match o with Some x => never_filtered x | None => true end) ts.

(** what laying trees out does: the objects that were in the heap keep
    their attributes and memos, and the new objects carry no memo when the
    trees carry none *)
Definition laid_out (unfiltered : bool) (h h' : list Heap.object) : Prop :=
  Heap.preserved h h' /\ length h <= length h'
  /\ (unfiltered = true ->
      forall b o, length h <= b -> h' !! b = Some o -> Heap.filtered_by_function o = None).

(** what the parser builds: flattened, and without memo *)
Definition well_built (o : option node) : Prop :=
  match o with
  | Some n => flattened n = true /\ never_filtered n = true
  | None => True
  end.

(** induction over trees, with the hypothesis on every operand *)
Section node_induction.
Variable P : node -> Prop.
Let P_opt (o : option node) : Prop := match o with Some x => P x | None => True end.
Hypothesis HTerm : forall m term wildcard phrase, P (TermNode m term wildcard phrase).
Hypothesis HAnd : forall m operands, Forall P_opt operands -> P (AndNode m operands).
Hypothesis HOr : forall m operands, Forall P_opt operands -> P (OrNode m operands).
Hypothesis HNot : forall m operand, P operand -> P (NotNode m operand).
Hypothesis HField : forall m field operand, P operand -> P (FieldNode m field operand).
Hypothesis HNoop : forall m, P (NoopNode m).

Fixpoint node_induction (n : node) : P n :=
  let operands_induction :=
    fix operands_induction (l : list (option node)) : Forall P_opt l :=
      match l with
      | [] => List.Forall_nil P_opt
      | o :: l' =>
          @List.Forall_cons _ P_opt o l'
            (match o return P_opt o with Some x => node_induction x | None => I end)
            (operands_induction l')
      end in
  match n with
  | TermNode m term wildcard phrase => HTerm m term wildcard phrase
  | AndNode m operands => HAnd m operands (operands_induction operands)
  | OrNode m operands => HOr m operands (operands_induction operands)
  | NotNode m operand => HNot m operand (node_induction operand)
  | FieldNode m field operand => HField m field operand (node_induction operand)
  | NoopNode m => HNoop m
  end.
End node_induction.

(** the tree holds nothing but negated content *)
Fixpoint only_negated (n : node) : bool :=
  match n with
  | NotNode _ _ => true
  | AndNode _ operands | OrNode _ operands =>
      forallb (fun o => match o with Some x => only_negated x | None => false end) operands
  | FieldNode _ _ operand => only_negated operand
  | TermNode _ _ _ _ | NoopNode _ => false
  end.

(** the clause a TERM token becomes *)
Definition term_clause (token_value : string) : node :=
  TermNode None
    (if endswith WILD_PLACEHOLDER token_value
     then replace WILD_PLACEHOLDER "" token_value else token_value)
    (endswith WILD_PLACEHOLDER token_value) false.

(** the characters the normalization rewrites *)
Definition rewritten (c : ascii) : bool :=
  has_char c (String "!" (String (ascii_of_nat 10) (String (ascii_of_nat 13) ":*"))).

Definition plain (s : string) : bool := all_chars (fun c => negb (rewritten c)) s.

(** a tree for the examples, the heap that holds it with its root at 8,
    and the heap the tsquery filter leaves, where the filtered tree has
    its root at 15 *)
Definition example_tree : node :=
  AndNode None
    [Some (FieldNode None "sentence"
             (AndNode None [Some (TermNode None "foo" false false);
                            Some (TermNode None "bar" false false)]));
     Some (FieldNode None "media_id" (TermNode None "1" false false));
     Some (NotNode None (TermNode None "baz" false false))].

Definition example_heap : list Heap.object :=
  Eval vm_compute in snd (Heap.store example_tree []).

Definition example_filtered : list Heap.object :=
  Eval vm_compute in snd (Heap.filter_tree 5 Heap.node_is_field_or_noop 8 example_heap).

(** ** Shapes of queries, of token lists and of trees

    The predicates and the pieces of syntax the further properties are
    stated with. *)

(** *** Queries *)

(** no character of [s] is an upper-case letter *)
Definition no_upper (s : string) : bool := all_chars (fun c => negb (is_upper c)) s.

(** a name: a word that does not start with a digit, which the tokenizer
    reads as one token *)
Definition is_name (w : string) : bool :=
  match w with
  | String c _ => negb (is_digit c) && all_chars is_word w
  | EmptyString => false
  end.

(** a name the lexer calls a term: none of [and], [or], [not] *)
Definition is_term_name (w : string) : bool :=
  is_name w && match get_token_type (lower w) with Ok T_TERM => true | _ => false end.

(** the first steps of [normalize]: lower case, [!] to [-], newlines to
    blanks *)
Definition folded (query : string) : string :=
  replace (String (ascii_of_nat 13) "") " "
    (replace (String (ascii_of_nat 10) "") " " (replace "!" "-" (lower query))).

(** the replacements of single characters in [normalize], one after the
    other *)
Definition rewrite_chars (query : string) : string :=
  let query := replace "!" "-" query in
  let query := replace (String (ascii_of_nat 10) "") " " query in
  let query := replace (String (ascii_of_nat 13) "") " " query in
  let query := replace ":" (FIELD_PLACEHOLDER +:+ " ") query in
  replace "*" WILD_PLACEHOLDER query.

(** the pieces of a query: names, operators of one character, and blanks *)
Inductive lexeme : Type :=
| Word (w : string)
| Sym (c : ascii)
| Blank.

Fixpoint render (ls : list lexeme) : string :=
  match ls with
  | [] => ""
  | Word w :: ls => w +:+ render ls
  | Sym c :: ls => String c (render ls)
  | Blank :: ls => String " " (render ls)
  end.

(** the operators of one character *)
Definition is_operator (c : ascii) : bool := has_char c "~}|{^][@>=<;:/.-,+*)(&%".

(** the words are names, each followed by a symbol or a blank, and the
    symbols are operators, none followed by another symbol *)
Fixpoint lexemes_fit (ls : list lexeme) : bool :=
  match ls with
  | [] => true
  | Word w :: ls =>
      is_name w && match ls with Sym _ :: _ | Blank :: _ => true | _ => false end
      && lexemes_fit ls
  | Sym c :: ls =>
      is_operator c && match ls with Sym _ :: _ => false | _ => true end && lexemes_fit ls
  | Blank :: ls => lexemes_fit ls
  end.

(** the brackets that are opened, less those that are closed *)
Fixpoint level (ls : list lexeme) : Z :=
  match ls with
  | [] => 0%Z
  | Sym c :: ls => (parenlev_step (String c "") + level ls)%Z
  | _ :: ls => level ls
  end.

(** lexemes the tokenizer reads as they are: they fit, the first one is no
    blank, and the brackets are balanced at the end *)
Definition lexemes_ok (ls : list lexeme) : bool :=
  match ls with [] | Blank :: _ => false | _ => true end
  && lexemes_fit ls && (level ls =? 0)%Z.

Fixpoint texts (ls : list lexeme) : list string :=
  match ls with
  | [] => []
  | Word w :: ls => w :: texts ls
  | Sym c :: ls => String c "" :: texts ls
  | Blank :: ls => texts ls
  end.

(** what may follow an operator of one character: nothing, a blank or a
    name *)
Definition after_operator (rest : string) : bool :=
  match rest with
  | String d _ => Ascii.eqb d " " || is_word d && negb (is_digit d)
  | EmptyString => true
  end.

(** the tokens [l], then what [g] gives *)
Definition prepend (l : list string) (g : generated) : generated :=
  mkGenerated (l ++ yielded g) (raised g).

(** the text ends with a closing parenthesis *)
Definition closes (s : string) : Prop := exists before, s = before +:+ ")".

(** *** Token lists *)

(** a token that is no field name and no noop *)
Definition plain_token (token : Token) : Prop :=
  token_type token <> T_FIELD /\ token_type token <> T_NOOP.

(** the last token is neither a field name nor a negation *)
Definition closed (tokens : list Token) : Prop :=
  match last tokens with
  | Some token => token_type token <> T_FIELD /\ token_type token <> T_NOT
  | None => True
  end.

(** the outcome of a call that popped from no empty list *)
Definition no_IndexError (r : result (option node * list Token)) : Prop :=
  match r with
  | Ok (_, rest) => closed rest
  | Err e => e <> IndexError
  end.

(** [rec'] returns what [rec] returns, where [rec] has fuel enough *)
Definition extends
    (rec rec' : list Token -> list token_kind -> option node -> option node -> bool ->
                result (option node * list Token)) : Prop :=
  forall tokens want clause bc hanging,
    rec tokens want clause bc hanging <> Err OutOfFuel ->
    rec' tokens want clause bc hanging = rec tokens want clause bc hanging.

(** the token of an operator *)
Definition operator_token (t : boolean_type) : Token :=
  match t with
  | AndType => tok "and" T_AND
  | OrType => tok "or" T_OR
  end.

(** terms, each after the same operator: the tokens and the lexemes *)
Fixpoint chain_tokens (t : boolean_type) (terms : list string) : list Token :=
  match terms with
  | [] => []
  | w :: terms => operator_token t :: tok w T_TERM :: chain_tokens t terms
  end.

Fixpoint chain_lexemes (t : boolean_type) (terms : list string) : list lexeme :=
  match terms with
  | [] => []
  | w :: terms => Blank :: Word (plain_connector t) :: Blank :: Word w :: chain_lexemes t terms
  end.

(** *** Trees *)

(** the node of a plain term *)
Definition Term (term : string) : option node := Some (TermNode None term false false).

(** the clause the parser holds after a chain of terms *)
Definition chain_node (t : boolean_type) (terms : list string) : node :=
  match terms with
  | [w] => term_clause w
  | _ => mk_boolean t None (map (fun w => Some (term_clause w)) terms)
  end.

Definition opt_holds (p : node -> bool) (o : option node) : Prop :=
  match o with Some n => p n = true | None => True end.

(** every And and Or node of the tree has a first operand, and it is a node *)
Fixpoint has_first_operand (n : node) : bool :=
  match n with
  | AndNode _ operands | OrNode _ operands =>
      match operands with Some _ :: _ => true | _ => false end
      && forallb (fun o => match o with Some x => has_first_operand x | None => true end) operands
  | NotNode _ operand | FieldNode _ _ operand => has_first_operand operand
  | TermNode _ _ _ _ | NoopNode _ => true
  end.

(** the tree holds no Field node and no Noop node *)
Fixpoint without_field_or_noop (n : node) : bool :=
  match n with
  | AndNode _ operands | OrNode _ operands =>
      forallb (fun o => match o with Some x => without_field_or_noop x | None => true end) operands
  | NotNode _ operand => without_field_or_noop operand
  | FieldNode _ _ _ | NoopNode _ => false
  | TermNode _ _ _ _ => true
  end.

(** every And and Or node has operands, and none of them is missing *)
Fixpoint complete (n : node) : bool :=
  match n with
  | AndNode _ operands | OrNode _ operands =>
      (0 <? length operands)
      && forallb (fun o => match o with Some x => complete x | None => false end) operands
  | NotNode _ operand | FieldNode _ _ operand => complete operand
  | TermNode _ _ _ _ | NoopNode _ => true
  end.

(** a tree the emitters accept: complete, without Noop node, and with no
    field but [sentence] *)
Fixpoint emittable (n : node) : bool :=
  match n with
  | AndNode _ operands | OrNode _ operands =>
      (0 <? length operands)
      && forallb (fun o => match o with Some x => emittable x | None => false end) operands
  | NotNode _ operand => emittable operand
  | FieldNode _ field operand => String.eqb field "sentence" && emittable operand
  | TermNode _ _ _ _ => true
  | NoopNode _ => false
  end.

(** an operand of which the filter leaves nothing *)
Definition dropped_by (f : filter_function) (operand : option node) : Prop :=
  exists n, operand = Some n /\ filter_tree f n = Ok None.

(** the tree holds no phrase *)
Fixpoint without_phrase (n : node) : bool :=
  match n with
  | AndNode _ operands | OrNode _ operands =>
      forallb (fun o => match o with Some x => without_phrase x | None => true end) operands
  | NotNode _ operand | FieldNode _ _ operand => without_phrase operand
  | TermNode _ _ _ phrase => negb phrase
  | NoopNode _ => true
  end.

(** a filter function that accepts the Noop nodes and the fields other
    than [sentence] *)
Definition drops_field_and_noop (f : filter_function) : Prop :=
  forall n, fn_call f n = false ->
    match n with
    | NoopNode _ => False
    | FieldNode _ field _ => String.eqb field "sentence" = true
    | _ => True
    end.

(** what the tsquery filter leaves of the tree of the examples, and the
    regex of an And node of three terms *)
Definition example_tsquery_filtered : node :=
  Eval vm_compute in
    match filter_tree node_is_field_or_noop example_tree with
    | Ok (Some t) => t
    | _ => example_tree
    end.

Definition example_and_re : string :=
  Eval vm_compute in
    match get_re (AndNode None [Term "a"; Term "b"; Term "c"]) with
    | Ok s => s
    | Err _ => ""
    end.

(** * Properties *)

(** ** The parser terminates *)

Lemma check_type_fuel tk want : check_type tk want <> Err OutOfFuel.
Proof. unfold check_type. destruct (kind_in _ _); discriminate. Qed.

Lemma BooleanNode_init_fuel t ops : BooleanNode_init t ops <> Err OutOfFuel.
Proof. unfold BooleanNode_init. destruct (forallb _ _); discriminate. Qed.

Lemma NotNode_init_fuel o : NotNode_init o <> Err OutOfFuel.
Proof. destruct o; discriminate. Qed.

Lemma FieldNode_init_fuel f o : FieldNode_init f o <> Err OutOfFuel.
Proof. destruct o; discriminate. Qed.

(** a recursive call in the goal, settled by the induction hypothesis *)
Ltac fuel_call IH fuel :=
  match goal with
  | |- context [parse_tokens fuel ?t ?w ?c ?b ?h] =>
      let H := fresh "Hrec" in
      assert (H : 2 * length t + (if h then 0 else 1) < fuel) by (simpl in *; lia);
      apply (IH t w c b h) in H;
      destruct (parse_tokens fuel t w c b h) as [[? ?]|?];
      cbn [bind];
      [ | solve [exact H | simpl; exact H] ]
  end.

(** a call that raises something else than [OutOfFuel] *)
Ltac fuel_init :=
  match goal with
  | |- context [BooleanNode_init ?t ?o] =>
      let H := fresh in
      assert (H := BooleanNode_init_fuel t o);
      destruct (BooleanNode_init t o); cbn [bind]; [ clear H | congruence ]
  | |- context [NotNode_init ?o] =>
      let H := fresh in
      assert (H := NotNode_init_fuel o);
      destruct (NotNode_init o); cbn [bind]; [ clear H | congruence ]
  | |- context [FieldNode_init ?f ?o] =>
      let H := fresh in
      assert (H := FieldNode_init_fuel f o);
      destruct (FieldNode_init f o); cbn [bind]; [ clear H | congruence ]
  | |- context [check_type ?t ?w] =>
      let H := fresh in
      assert (H := check_type_fuel t w);
      destruct (check_type t w); cbn [bind]; [ clear H | congruence ]
  end.

Ltac fuel_steps IH fuel :=
  repeat first
    [ fuel_init
    | fuel_call IH fuel
    | match goal with
      | |- context [match ?l with [] => Err IndexError | _ :: _ => _ end] =>
          destruct l; [ discriminate | ]
      | |- context [if bool_decide ?P then _ else _] => destruct (bool_decide P)
      end ];
  try (simpl in *; lia); try discriminate.

(** With more fuel than twice the tokens left, plus one when no operator
    is hanging, a call does not run out of fuel, and it returns no more
    tokens than it got.  (An iteration that pushes its token back leaves
    the list as long as it was, and sets [hanging_boolean].) *)
Lemma parse_tokens_fuel_aux fuel :
  forall (tokens : list Token) want clause bc (hanging : bool),
  2 * length tokens + (if hanging then 0 else 1) < fuel ->
  match parse_tokens fuel tokens want clause bc hanging with
  | Ok (_, rest) => length rest <= length tokens
  | Err e => e <> OutOfFuel
  end.
Proof.
  induction fuel as [|fuel IH]; intros tokens want clause bc hanging Hfuel; [lia|].
  cbn [parse_tokens]. unfold parse_iteration.
  destruct tokens as [|token tokens]; [cbn; lia|]. simpl in Hfuel.
  destruct (bool_decide (token_type token = T_PLUS) && _).
  { destruct hanging; fuel_call IH fuel; simpl; lia. }
  destruct hanging;
    [ | destruct (_ && kind_in _ [T_OPEN; T_PHRASE; T_TERM; T_NOOP; T_FIELD]);
        [ | destruct (_ && kind_in _ [T_NOT]) ] ];
    cbn [token_type].
  - fuel_init. destruct (token_type token); fuel_steps IH fuel.
  - fuel_steps IH fuel.
  - fuel_steps IH fuel.
  - fuel_init. destruct (token_type token); fuel_steps IH fuel.
Qed.

Lemma parse_tokens_fuel (tokens : list Token) want :
  parse_tokens (enough_fuel tokens) tokens want None None false <> Err OutOfFuel.
Proof.
  intros H.
  assert (Hf := parse_tokens_fuel_aux (enough_fuel tokens) tokens want None None false).
  rewrite H in Hf. apply Hf; [unfold enough_fuel; lia | reflexivity].
Qed.

(** the tokenizer raises [TokenError] only *)
Lemma tokenize_from_raises s : forall skip parenlev closing e,
  raised (tokenize_from s skip parenlev closing) = Some e -> e = TokenError.
Proof.
  induction s as [|c s IH]; intros skip parenlev closing e; cbn [tokenize_from].
  - unfold end_of_input. destruct (parenlev =? 0)%Z; cbn [raised]; congruence.
  - destruct skip as [|skip]; [|apply IH].
    destruct (pseudo_token (String c s)) as [[start [|len]]|]; cbn [yield raised]; try apply IH.
    destruct (triple_quoted _); [|apply IH].
    destruct (end_of_triple _ _); cbn [yield raised]; [apply IH|congruence].
Qed.

Lemma generate_tokens_raises line e :
  raised (generate_tokens line) = Some e -> e = TokenError.
Proof.
  unfold generate_tokens. destruct (str_drop _ line) as [|c rest]; [discriminate|].
  destruct (code c =? 35); [discriminate|]. destruct (is_newline c); [discriminate|].
  destruct (0 <? _); cbn [yield raised]; apply tokenize_from_raises.
Qed.

(** the lexer raises syntax errors only *)
Lemma get_token_type_error token e :
  get_token_type token = Err e -> exists m, e = ParseSyntaxError m.
Proof.
  unfold get_token_type.
  repeat match goal with
         | |- context [if ?b then _ else _] => destruct b
         end; intros [= <-]; eauto.
Qed.

Lemma classify_error raw e : classify raw = Err e -> exists m, e = ParseSyntaxError m.
Proof.
  induction raw as [|v raw IH]; simpl; [discriminate|].
  destruct (0 <? String.length v); [|exact IH].
  destruct (get_token_type v) as [ty|e'] eqn:Ety; cbn [bind].
  - destruct (classify raw); cbn [bind]; [discriminate|].
    intros [= <-]. by apply IH.
  - intros [= <-]. by eapply get_token_type_error.
Qed.

(** [parse] always returns: the fuel it gives the parser is enough *)
Lemma parse_total solr_query : parse solr_query <> Err OutOfFuel.
Proof.
  unfold parse, get_tokens, parse_tokens_top. cbn zeta.
  destruct (classify _) as [tokens|e] eqn:Etok; cbn [bind].
  - destruct (raised _) as [e|] eqn:Eraised; cbn [bind].
    + apply generate_tokens_raises in Eraised as ->. discriminate.
    + assert (Hf := parse_tokens_fuel tokens WANT_START).
      destruct (parse_tokens _ _ _ _ _ _) as [[c rest]|e]; cbn [bind]; congruence.
  - apply classify_error in Etok as [m ->]. discriminate.
Qed.

(** ** Text *)

Lemma append_nil_l s : "" +:+ s = s.
Proof. reflexivity. Qed.

Lemma append_cons c s t : String c s +:+ t = String c (s +:+ t).
Proof. reflexivity. Qed.

Lemma append_nil_r s : s +:+ "" = s.
Proof. induction s as [|c s IH]; [done|]. by rewrite append_cons, IH. Qed.

Lemma append_assoc s t u : (s +:+ t) +:+ u = s +:+ t +:+ u.
Proof. induction s as [|c s IH]; [done|]. by rewrite !append_cons, IH. Qed.

Lemma rev_string_app s : forall acc, rev_string s acc = rev_string s "" +:+ acc.
Proof.
  induction s as [|c s IH]; intros acc; cbn [rev_string]; [done|].
  rewrite (IH (String c acc)), (IH (String c "")).
  by rewrite append_assoc.
Qed.

Lemma rev_string_spec s : forall acc,
  rev_string (rev_string s acc) "" = rev_string acc "" +:+ s.
Proof.
  induction s as [|c s IH]; intros acc; cbn [rev_string].
  - by rewrite append_nil_r.
  - rewrite IH. cbn [rev_string]. rewrite (rev_string_app acc (String c "")).
    by rewrite append_assoc.
Qed.

Lemma rev_string_involutive s : rev_string (rev_string s "") "" = s.
Proof. apply rev_string_spec. Qed.

(** ** The lexer on plain words *)

Lemma plain_has_char x s : rewritten x = true -> plain s = true -> has_char x s = false.
Proof.
  intros Hx. induction s as [|c s IH]; [done|]. cbn [plain all_chars has_char].
  intros [Hc Hs]%andb_true_iff. rewrite (IH Hs), orb_false_r.
  apply Ascii.eqb_neq. intros ->. by rewrite Hx in Hc.
Qed.

Lemma replace_absent x new s :
  has_char x s = false -> replace (String x "") new s = s.
Proof.
  unfold replace. induction s as [|c s IH]; [done|]. cbn [has_char replace_from startswith].
  intros [Hc Hs]%orb_false_iff. rewrite Hc. cbn [andb]. by rewrite (IH Hs).
Qed.

Lemma word_run_rest x s : has_char x s = false -> has_char x (snd (word_run s)) = false.
Proof.
  induction s as [|c s IH]; [done|]. cbn [word_run]. intros H.
  destruct (is_word c); [|done].
  cbn [has_char] in H. apply orb_false_iff in H as [_ H].
  specialize (IH H). by destruct (word_run s).
Qed.

Lemma range_length_absent s : has_char ":" s = false -> range_length s = None.
Proof.
  intros H. apply word_run_rest in H. unfold range_length.
  destruct (word_run s) as [[|n] [|a [|b r]]]; try done.
  cbn [snd has_char] in H. apply orb_false_iff in H as [Ha _].
  assert (Hc : (code a =? 58) = false).
  { apply Nat.eqb_neq. intros Hn. apply Ascii.eqb_neq in Ha. apply Ha.
    unfold code in Hn. by rewrite <- (ascii_nat_embedding a), Hn. }
  by rewrite Hc.
Qed.

Lemma sub_ranges_absent new s : has_char ":" s = false -> sub_ranges new s = s.
Proof.
  unfold sub_ranges. induction s as [|c s IH]; [done|]. intros H.
  cbn [sub_ranges_from]. rewrite (range_length_absent _ H).
  cbn [has_char] in H. apply orb_false_iff in H as [_ H]. by rewrite (IH H).
Qed.

(** a query without [!], newline, [:] and [*] is only put in lower case *)
Lemma normalize_plain query : plain (lower query) = true -> normalize query = lower query.
Proof.
  intros H. unfold normalize.
  rewrite (replace_absent "!"), (replace_absent (ascii_of_nat 10)),
    (replace_absent (ascii_of_nat 13)), sub_ranges_absent, (replace_absent ":"),
    (replace_absent "*"); try done; by apply plain_has_char.
Qed.

Lemma lower_app s t : lower (s +:+ t) = lower s +:+ lower t.
Proof. induction s as [|c s IH]; [done|]. rewrite append_cons. cbn [lower]. by rewrite IH. Qed.

Lemma plain_app s t : plain (s +:+ t) = plain s && plain t.
Proof.
  unfold plain. induction s as [|c s IH]; [done|].
  rewrite append_cons. cbn [all_chars]. by rewrite IH, andb_assoc.
Qed.

Lemma word_plain s : all_chars is_word s = true -> plain s = true.
Proof.
  unfold plain. induction s as [|c s IH]; [done|]. cbn [all_chars].
  intros [Hc Hs]%andb_true_iff. rewrite (IH Hs), andb_true_r.
  apply negb_true_iff. destruct (rewritten c) eqn:Hr; [|done].
  unfold rewritten in Hr. cbn [has_char] in Hr.
  repeat (apply orb_true_iff in Hr as [Hr|Hr];
          [apply Ascii.eqb_eq in Hr; subst c; discriminate Hc|]).
  discriminate Hr.
Qed.

(** a word: what [get_token_type] calls a term *)
Lemma term_is_word token : get_token_type token = Ok T_TERM -> match_word token = true.
Proof.
  unfold get_token_type.
  repeat match goal with
         | |- context [if ?b then _ else _] => destruct b eqn:?
         end; try discriminate; done.
Qed.

Lemma match_word_lower a : match_word (lower a) = true -> plain (lower a) = true.
Proof. intros [H _]%andb_true_iff. by apply word_plain. Qed.

(** ** Lower case *)

Lemma code_of_nat n : n < 256 -> code (ascii_of_nat n) = n.
Proof. intros H. unfold code. by apply nat_ascii_embedding. Qed.

Lemma code_inj c d : code c = code d -> c = d.
Proof.
  unfold code. intros H.
  by rewrite <- (ascii_nat_embedding c), <- (ascii_nat_embedding d), H.
Qed.

Lemma lower_char_not_upper c : is_upper (lower_char c) = false.
Proof.
  unfold lower_char. destruct (is_upper c) eqn:Hu; [|done].
  unfold is_upper, between in *.
  apply andb_true_iff in Hu as [H1 H2]. apply Nat.leb_le in H1, H2.
  rewrite code_of_nat by lia.
  apply andb_false_iff. right. apply Nat.leb_gt. lia.
Qed.

Lemma lower_char_idempotent c : lower_char (lower_char c) = lower_char c.
Proof. unfold lower_char at 1. by rewrite lower_char_not_upper. Qed.

Lemma lower_idempotent s : lower (lower s) = lower s.
Proof. induction s as [|c s IH]; [done|]. cbn [lower]. by rewrite lower_char_idempotent, IH. Qed.

Lemma lower_no_upper s : no_upper (lower s) = true.
Proof.
  unfold no_upper. induction s as [|c s IH]; [done|]. cbn [lower all_chars].
  by rewrite lower_char_not_upper, IH.
Qed.

Lemma no_upper_lower s : no_upper s = true -> lower s = s.
Proof.
  unfold no_upper. induction s as [|c s IH]; [done|]. cbn [lower all_chars].
  intros [Hc Hs]%andb_true_iff. rewrite (IH Hs). unfold lower_char.
  apply negb_true_iff in Hc. by rewrite Hc.
Qed.

(** ** Words *)

Lemma eqb_length s t : String.eqb s t = true -> String.length s = String.length t.
Proof. by intros ->%String.eqb_eq. Qed.

Lemma is_name_word w : is_name w = true -> match_word w = true.
Proof.
  unfold is_name, match_word. destruct w as [|c w]; [done|].
  intros [_ H]%andb_true_iff. by rewrite H.
Qed.

Lemma lower_char_word c : is_word (lower_char c) = is_word c.
Proof.
  unfold lower_char. destruct (is_upper c) eqn:Hu; [|done].
  unfold is_word. rewrite Hu. cbn [orb].
  unfold is_upper, is_lower, is_digit, between in *.
  apply andb_true_iff in Hu as [H1 H2]. apply Nat.leb_le in H1, H2.
  rewrite code_of_nat by lia.
  replace (97 <=? code c + 32) with true by (symmetry; apply Nat.leb_le; lia).
  replace (code c + 32 <=? 122) with true by (symmetry; apply Nat.leb_le; lia).
  cbn [andb]. by rewrite orb_true_r.
Qed.

Lemma lower_char_digit c : is_digit (lower_char c) = is_digit c.
Proof.
  unfold lower_char. destruct (is_upper c) eqn:Hu; [|done].
  unfold is_upper, is_digit, between in *.
  apply andb_true_iff in Hu as [H1 H2]. apply Nat.leb_le in H1, H2.
  rewrite code_of_nat by lia.
  replace (code c + 32 <=? 57) with false by (symmetry; apply Nat.leb_gt; lia).
  replace (code c <=? 57) with false by (symmetry; apply Nat.leb_gt; lia).
  by rewrite !andb_false_r.
Qed.

Lemma lower_all_word s : all_chars is_word (lower s) = all_chars is_word s.
Proof. induction s as [|c s IH]; [done|]. cbn [lower all_chars]. by rewrite lower_char_word, IH. Qed.

Lemma lower_length s : String.length (lower s) = String.length s.
Proof. induction s as [|c s IH]; [done|]. cbn [lower String.length]. by rewrite IH. Qed.

Lemma is_name_lower w : is_name (lower w) = is_name w.
Proof.
  destruct w as [|c w]; [done|]. unfold is_name. cbn [lower].
  change (String (lower_char c) (lower w)) with (lower (String c w)).
  by rewrite lower_char_digit, lower_all_word.
Qed.

Lemma is_name_lower_true w : is_name w = true -> is_name (lower w) = true.
Proof. by rewrite is_name_lower. Qed.

Lemma is_name_app s t :
  is_name s = true -> all_chars is_word t = true -> is_name (s +:+ t) = true.
Proof.
  unfold is_name. destruct s as [|c s]; [done|]. rewrite append_cons.
  intros [Hc Hs]%andb_true_iff Ht. rewrite Hc. cbn [andb all_chars] in *.
  apply andb_true_iff in Hs as [-> Hs]. cbn [andb].
  clear Hc. induction s as [|d s IH]; [done|]. rewrite append_cons. cbn [all_chars] in *.
  apply andb_true_iff in Hs as [-> Hs]. by apply IH.
Qed.

Lemma match_word_lower_eq w : match_word (lower w) = match_word w.
Proof. unfold match_word. by rewrite lower_all_word, lower_length. Qed.

(** ** The tokenizer *)

Lemma str_drop_app w rest : str_drop (String.length w) (w +:+ rest) = rest.
Proof. induction w as [|c w IH]; [by destruct rest|]. by rewrite append_cons. Qed.

Lemma str_take_app w rest : str_take (String.length w) (w +:+ rest) = w.
Proof.
  induction w as [|c w IH]; [by destruct rest|].
  rewrite append_cons. cbn [String.length str_take]. by rewrite IH.
Qed.

Lemma str_drop_all s : str_drop (String.length s) s = "".
Proof. induction s as [|c s IH]; [done|]. exact IH. Qed.

Lemma str_drop_nil n : str_drop n "" = "".
Proof. by destruct n. Qed.

Lemma str_drop_drop a : forall b s, str_drop a (str_drop b s) = str_drop (b + a) s.
Proof.
  intros b. induction b as [|b IH]; intros s; [done|].
  destruct s as [|c s]; [by rewrite !str_drop_nil|]. apply IH.
Qed.

(** a match still to pass is passed *)
Lemma tokenize_from_skip s : forall skip parenlev closing,
  tokenize_from s skip parenlev closing = tokenize_from (str_drop skip s) 0 parenlev closing.
Proof.
  induction s as [|c s IH]; intros skip parenlev closing; [by destruct skip|].
  destruct skip as [|skip]; [done|]. cbn [tokenize_from str_drop]. apply IH.
Qed.

(** one turn of the loop, at a token that is no string in triple quotes *)
Lemma tokenize_step s start len parenlev closing :
  pseudo_token s = Some (start, S len) ->
  triple_quoted (str_take (S len) (str_drop start s)) = None ->
  tokenize_from s 0 parenlev closing
  = yield (str_take (S len) (str_drop start s))
      (tokenize_from (str_drop (start + S len) s) 0
         (parenlev + parenlev_step (str_take (S len) (str_drop start s))) closing).
Proof.
  intros Hp Ht. destruct s as [|c s]; [discriminate Hp|].
  cbn [tokenize_from]. rewrite Hp, Ht. rewrite tokenize_from_skip.
  by replace (start + S len - 1) with (start + len) by lia; rewrite Nat.add_succ_r.
Qed.

Lemma span_app class w rest :
  all_chars class w = true -> span class (w +:+ rest) = String.length w + span class rest.
Proof.
  induction w as [|c w IH]; [done|]. cbn [all_chars]. intros [Hc Hw]%andb_true_iff.
  rewrite append_cons. cbn [span String.length]. by rewrite Hc, IH.
Qed.

(** blanks before a token only move it *)
Lemma pseudo_token_blanks blanks s :
  all_chars is_whitespace blanks = true ->
  pseudo_token (blanks +:+ s)
  = option_map (fun '(start, len) => (String.length blanks + start, len)) (pseudo_token s).
Proof.
  intros Hb. unfold pseudo_token. cbn zeta. rewrite span_app by done.
  rewrite <- str_drop_drop, str_drop_app.
  by destruct (orelse _ _).
Qed.

Lemma tokenize_blanks blanks parenlev closing :
  all_chars is_whitespace blanks = true ->
  tokenize_from blanks 0 parenlev closing = end_of_input parenlev closing.
Proof.
  intros Hb. destruct blanks as [|c s]; [done|]. cbn [tokenize_from].
  assert (Hp : pseudo_token (String c s) = Some (String.length (String c s), 0)).
  { rewrite <- (append_nil_r (String c s)) at 1. rewrite pseudo_token_blanks by done.
    cbn. by rewrite Nat.add_0_r. }
  rewrite Hp. cbn [String.length Nat.sub]. rewrite Nat.sub_0_r, tokenize_from_skip.
  by rewrite str_drop_all.
Qed.

(** *** Names *)

(** a test of a character against a literal one it cannot be *)
Ltac other_char d H :=
  repeat match goal with
         | |- context [Ascii.eqb ?x d] =>
             let E := fresh in
             destruct (Ascii.eqb x d) eqn:E;
             [apply Ascii.eqb_eq in E; subst d; by vm_compute in H|]
         | |- context [Ascii.eqb d ?x] =>
             let E := fresh in
             destruct (Ascii.eqb d x) eqn:E;
             [apply Ascii.eqb_eq in E; subst d; by vm_compute in H|]
         | |- context [code d =? ?k] =>
             let E := fresh in
             destruct (code d =? k) eqn:E;
             [apply Nat.eqb_eq in E;
              assert (d = ascii_of_nat k) by (apply code_inj; by rewrite E);
              subst d; by vm_compute in H|]
         end.

Lemma word_not_whitespace d : is_word d = true -> is_whitespace d = false.
Proof. intros H. unfold is_whitespace. by other_char d H. Qed.

Lemma word_not_quote d : is_word d = true -> is_quote d = false.
Proof. intros H. unfold is_quote. by other_char d H. Qed.

Lemma all_word_no_quote w : all_chars is_word w = true -> all_chars (fun c => negb (is_quote c)) w = true.
Proof.
  induction w as [|c w IH]; [done|]. cbn [all_chars]. intros [Hc Hw]%andb_true_iff.
  by rewrite (word_not_quote _ Hc), IH.
Qed.

Lemma special_word d rest : is_word d = true -> special (String d rest) = None.
Proof.
  intros H. unfold special, EXACT_TOKENS. cbn [find startswith].
  by other_char d H.
Qed.

Lemma funny_word d rest : is_word d = true -> funny (String d rest) = None.
Proof.
  intros H. unfold funny. rewrite special_word by done. unfold CR, LF. cbn [startswith].
  by other_char d H.
Qed.

Lemma number_name d rest :
  is_word d = true -> is_digit d = false -> number (String d rest) = None.
Proof.
  intros H Hd. unfold number, imag_number, imaginary, float_number, point_float, exp_float,
    int_number, based_number, dec_number, digit_part.
  rewrite Hd. cbn [orelse option_map has_char]. other_char d H. cbn [orb andb option_map orelse].
  by destruct rest.
Qed.

(** no string starts in a word that a character other than a quote
    follows *)
Lemma string_start_word w c rest :
  all_chars is_word w = true -> 0 < String.length w ->
  is_word c = false -> is_quote c = false ->
  string_start (w +:+ String c rest) = None.
Proof.
  intros Hw Hlen Hc Hq. destruct w as [|d [|e [|g w]]]; [cbn in Hlen; lia| | |];
    cbn [all_chars] in Hw; rewrite !append_cons, ?append_nil_l; cbn [string_start].
  - apply andb_true_iff in Hw as [Hd _]. rewrite (word_not_quote _ Hd), Hq.
    destruct rest as [|c3 rest]; [done|].
    assert (Hl : lower_char c = c).
    { unfold lower_char. unfold is_word in Hc.
      by destruct (is_upper c). }
    cbn [lower]. rewrite Hl. cbn [existsb String.eqb].
    assert (Hr : forall x, is_word x = true -> Ascii.eqb c x = false).
    { intros x Hx. apply Ascii.eqb_neq. intros ->. by rewrite Hx in Hc. }
    rewrite !Hr by done. rewrite !Tauto.if_same. cbn [orb]. by rewrite andb_false_r.
  - apply andb_true_iff in Hw as [Hd [He _]%andb_true_iff].
    by rewrite (word_not_quote _ Hd), (word_not_quote _ He), Hq.
  - apply andb_true_iff in Hw as [Hd [He [Hg _]%andb_true_iff]%andb_true_iff].
    by rewrite (word_not_quote _ Hd), (word_not_quote _ He), (word_not_quote _ Hg).
Qed.

Lemma span_word w c rest :
  all_chars is_word w = true -> is_word c = false ->
  span is_word (w +:+ String c rest) = String.length w.
Proof. intros Hw Hc. rewrite span_app by done. cbn [span]. rewrite Hc. lia. Qed.

(** a name before a character that is no word character and no quote is
    one token *)
Lemma pseudo_token_name w c rest :
  is_name w = true -> is_word c = false -> is_quote c = false ->
  pseudo_token (w +:+ String c rest) = Some (0, String.length w).
Proof.
  intros Hn Hc Hq. unfold is_name in Hn. destruct w as [|d w]; [done|].
  apply andb_true_iff in Hn as [Hd Hw]. apply negb_true_iff in Hd.
  assert (Hwd : is_word d = true) by (cbn [all_chars] in Hw; by apply andb_true_iff in Hw as [? _]).
  assert (Hs := string_start_word (String d w) c rest Hw ltac:(cbn; lia) Hc Hq).
  assert (Hsp := span_word (String d w) c rest Hw Hc).
  unfold pseudo_token. rewrite append_cons in *. cbn [span]. rewrite (word_not_whitespace d Hwd).
  cbn [str_drop]. unfold pseudo_extras, triple, cont_str, comment, name.
  rewrite Hs, Hsp, number_name, funny_word by done.
  assert (Hh : (code d =? 35) = false) by (by other_char d Hwd).
  by rewrite Hh.
Qed.

(** *** Operators *)

(** the cases of a character of a literal set *)
Ltac char_cases H :=
  cbn [has_char] in H;
  repeat (apply orb_true_iff in H as [H|H]; [apply Ascii.eqb_eq in H; subst|]);
  [..|discriminate H].

Lemma operator_facts c :
  is_operator c = true ->
  is_whitespace c = false /\ (code c =? 35) = false /\ is_quote c = false
  /\ is_digit c = false /\ is_word (lower_char c) = false.
Proof. unfold is_operator. intros H. char_cases H; by vm_compute. Qed.

Lemma after_operator_facts d rest :
  after_operator (String d rest) = true ->
  is_digit d = false /\ is_quote d = false
  /\ forall x, has_char x "=></.*" = true -> Ascii.eqb x d = false.
Proof.
  cbn [after_operator]. intros Hd.
  assert (Hdigit : is_digit d = false).
  { destruct (is_digit d) eqn:E; [|done]. rewrite andb_false_r, orb_false_r in Hd.
    apply Ascii.eqb_eq in Hd. by subst d. }
  split; [done|]. split; [unfold is_quote; by other_char d Hd|].
  intros x Hx. char_cases Hx; by other_char d Hd.
Qed.

Lemma string_start_operator c d rest :
  is_quote c = false -> is_quote d = false -> is_word (lower_char c) = false ->
  string_start (String c (String d rest)) = None.
Proof.
  intros Hc Hd Hl. cbn [string_start]. rewrite Hc, Hd. destruct rest as [|c3 rest]; [done|].
  cbn [lower existsb String.eqb].
  assert (Hr : forall x, is_word x = true -> Ascii.eqb (lower_char c) x = false).
  { intros x Hx. apply Ascii.eqb_neq. intros E. by rewrite E, Hx in Hl. }
  rewrite !Hr by done. cbn [orb]. by rewrite andb_false_r.
Qed.

Lemma number_operator c d rest :
  is_digit c = false -> is_digit d = false -> number (String c (String d rest)) = None.
Proof.
  intros Hc Hd. unfold number, imag_number, imaginary, float_number, point_float, exp_float,
    int_number, based_number, dec_number, digit_part.
  rewrite Hc, Hd. cbn [orelse option_map].
  assert (Hz : (code c =? 48) = false).
  { destruct (code c =? 48) eqn:E; [|done]. apply Nat.eqb_eq in E.
    assert (c = ascii_of_nat 48) as -> by (apply code_inj; by rewrite E). done. }
  rewrite Hz. cbn [andb orelse]. by destruct (has_char c ".").
Qed.

Lemma funny_operator c d rest :
  is_operator c = true ->
  (forall x, has_char x "=></.*" = true -> Ascii.eqb x d = false) ->
  funny (String c (String d rest)) = Some 1.
Proof.
  intros Hc Hd. unfold is_operator in Hc.
  assert (H1 := Hd "="%char eq_refl). assert (H2 := Hd ">"%char eq_refl).
  assert (H3 := Hd "<"%char eq_refl). assert (H4 := Hd "/"%char eq_refl).
  assert (H5 := Hd "."%char eq_refl). assert (H6 := Hd "*"%char eq_refl).
  char_cases Hc; unfold funny, special, EXACT_TOKENS, CR, LF; cbn [find startswith];
    rewrite ?H1, ?H2, ?H3, ?H4, ?H5, ?H6; by vm_compute.
Qed.

(** an operator of one character is a token of its own *)
Lemma pseudo_token_operator c rest :
  is_operator c = true -> after_operator rest = true ->
  pseudo_token (String c rest) = Some (0, 1).
Proof.
  intros Hc Hd. destruct rest as [|d rest].
  { unfold is_operator in Hc. char_cases Hc; by vm_compute. }
  destruct (operator_facts c Hc) as (Hw & Hh & Hq & Hdig & Hl).
  destruct (after_operator_facts d rest Hd) as (Hdd & Hdq & Hdx).
  unfold pseudo_token. cbn [span]. rewrite Hw. cbn [str_drop].
  unfold pseudo_extras, comment, triple, cont_str.
  by rewrite Hh, string_start_operator, number_operator, funny_operator.
Qed.

(** *** Lexemes *)

Lemma string_start_no_quote s :
  all_chars (fun c => negb (is_quote c)) s = true -> string_start s = None.
Proof.
  destruct s as [|a [|b [|c s]]]; cbn [all_chars string_start]; try done.
  - by intros [->%negb_true_iff _]%andb_true_iff.
  - by intros [->%negb_true_iff [->%negb_true_iff _]%andb_true_iff]%andb_true_iff.
  - by intros [->%negb_true_iff [->%negb_true_iff [->%negb_true_iff _]%andb_true_iff]%andb_true_iff]
      %andb_true_iff.
Qed.

Lemma triple_quoted_word w : all_chars is_word w = true -> triple_quoted w = None.
Proof.
  intros Hw. unfold triple_quoted. by rewrite string_start_no_quote by by apply all_word_no_quote.
Qed.

Lemma parenlev_step_word d w : is_word d = true -> parenlev_step (String d w) = 0%Z.
Proof. intros H. unfold parenlev_step. cbn [has_char]. by other_char d H. Qed.

Lemma prepend_nil g : prepend [] g = g.
Proof. by destruct g. Qed.

Lemma all_chars_app p s t : all_chars p (s +:+ t) = all_chars p s && all_chars p t.
Proof.
  induction s as [|c s IH]; [done|]. rewrite append_cons. cbn [all_chars].
  by rewrite IH, andb_assoc.
Qed.

(** the first character of what follows a word or a symbol *)
Lemma render_after_word ls :
  match ls with Sym _ :: _ | Blank :: _ => true | _ => false end = true ->
  lexemes_fit ls = true ->
  exists c rest, render ls = String c rest /\ is_word c = false /\ is_quote c = false.
Proof.
  destruct ls as [|[w|c|] ls]; try done; intros _; cbn [lexemes_fit render].
  - intros [[Hc _]%andb_true_iff _]%andb_true_iff.
    destruct (operator_facts c Hc) as (_ & _ & Hq & _ & Hl).
    exists c, (render ls). split; [done|]. split; [|done].
    unfold is_operator in Hc. by char_cases Hc.
  - intros _. by exists " "%char, (render ls).
Qed.

Lemma render_after_operator ls :
  match ls with Sym _ :: _ => false | _ => true end = true ->
  lexemes_fit ls = true -> after_operator (render ls) = true.
Proof.
  destruct ls as [|[w|c|] ls]; try done; intros _; cbn [lexemes_fit render].
  intros [[Hn _]%andb_true_iff _]%andb_true_iff. unfold is_name in Hn.
  destruct w as [|d w]; [done|]. rewrite append_cons. cbn [after_operator all_chars] in *.
  apply andb_true_iff in Hn as [-> [-> _]%andb_true_iff]. by rewrite orb_true_r.
Qed.

(** The tokens of a text made of names, operators and blanks, after any
    blanks: the names and the operators, and then the end of the input,
    with the brackets counted. *)
Lemma tokens_of_lexemes ls :
  lexemes_fit ls = true ->
  forall blanks parenlev closing,
    all_chars is_whitespace blanks = true ->
    tokenize_from (blanks +:+ render ls) 0 parenlev closing
    = prepend (texts ls) (end_of_input (parenlev + level ls) closing).
Proof.
  induction ls as [|l ls IH]; intros Hfit blanks parenlev closing Hb.
  { cbn [render texts level]. by rewrite append_nil_r, tokenize_blanks, prepend_nil, Z.add_0_r. }
  destruct l as [w|c|]; cbn [lexemes_fit render texts level] in *.
  - apply andb_true_iff in Hfit as [[Hn Hnext]%andb_true_iff Hfit].
    destruct (render_after_word ls Hnext Hfit) as (c & rest & Hr & Hc & Hq).
    assert (Hw : all_chars is_word w = true /\ exists d w', w = String d w' /\ is_word d = true).
    { unfold is_name in Hn. destruct w as [|d w']; [done|].
      apply andb_true_iff in Hn as [_ Hn]. split; [done|]. exists d, w'. split; [done|].
      cbn [all_chars] in Hn. by apply andb_true_iff in Hn as [? _]. }
    destruct Hw as (Hw & d & w' & Ew & Hd).
    assert (Hp : pseudo_token (blanks +:+ w +:+ render ls)
                 = Some (String.length blanks + 0, String.length w)).
    { rewrite pseudo_token_blanks by done. by rewrite Hr, pseudo_token_name. }
    assert (Hdrop : str_drop (String.length blanks + 0) (blanks +:+ w +:+ render ls)
                    = w +:+ render ls) by (by rewrite Nat.add_0_r, str_drop_app).
    assert (El : String.length w = S (String.length w')) by (by rewrite Ew).
    rewrite El in Hp. rewrite (tokenize_step _ _ _ _ _ Hp);
      rewrite Hdrop, <- El, str_take_app; [|by apply triple_quoted_word].
    rewrite <- str_drop_drop, Hdrop, str_drop_app.
    rewrite (IH Hfit "" _ closing eq_refl).
    assert (Hstep : parenlev_step w = 0%Z) by (rewrite Ew; by apply parenlev_step_word).
    by rewrite Hstep, Z.add_0_r.
  - apply andb_true_iff in Hfit as [[Hc Hnext]%andb_true_iff Hfit].
    assert (Hafter := render_after_operator ls Hnext Hfit).
    destruct (operator_facts c Hc) as (_ & _ & Hq & _ & _).
    assert (Hp : pseudo_token (blanks +:+ String c (render ls))
                 = Some (String.length blanks + 0, 1)).
    { rewrite pseudo_token_blanks by done. by rewrite pseudo_token_operator. }
    assert (Hdrop : str_drop (String.length blanks + 0) (blanks +:+ String c (render ls))
                    = String c (render ls)) by (by rewrite Nat.add_0_r, str_drop_app).
    rewrite (tokenize_step _ _ _ _ _ Hp); rewrite Hdrop; cbn [str_take];
      [|unfold triple_quoted; cbn [string_start]; by rewrite Hq].
    rewrite <- str_drop_drop, Hdrop. cbn [str_drop].
    rewrite (IH Hfit "" _ closing eq_refl).
    by rewrite Z.add_assoc.
  - assert (Happ : blanks +:+ String " " (render ls) = (blanks +:+ " ") +:+ render ls)
      by (by rewrite append_assoc).
    rewrite Happ. apply IH; [done|]. by rewrite all_chars_app, Hb.
Qed.

Lemma operator_not_newline c : is_operator c = true -> is_newline c = false.
Proof. unfold is_operator. intros H. char_cases H; by vm_compute. Qed.

(** the first character of lexemes that start with a word or a symbol *)
Lemma render_start ls :
  match ls with [] | Blank :: _ => false | _ => true end = true ->
  lexemes_fit ls = true ->
  exists c rest, render ls = String c rest
    /\ is_whitespace c = false /\ (code c =? 35) = false /\ is_newline c = false.
Proof.
  destruct ls as [|[w|c|] ls]; try done; intros _; cbn [lexemes_fit render].
  - intros [[Hn _]%andb_true_iff _]%andb_true_iff. unfold is_name in Hn.
    destruct w as [|d w]; [done|]. rewrite append_cons.
    apply andb_true_iff in Hn as [_ Hn]. cbn [all_chars] in Hn.
    apply andb_true_iff in Hn as [Hd _].
    exists d, (w +:+ render ls). split; [done|]. split; [by apply word_not_whitespace|].
    split; [by other_char d Hd|]. unfold is_newline. by other_char d Hd.
  - intros [[Hc _]%andb_true_iff _]%andb_true_iff.
    destruct (operator_facts c Hc) as (Hw & Hh & _).
    exists c, (render ls). by rewrite (operator_not_newline c Hc).
Qed.

Lemma indentation_start c rest : is_whitespace c = false -> indentation 0 (String c rest) = 0.
Proof.
  unfold is_whitespace. intros [[H1 H2]%orb_false_iff H3]%orb_false_iff.
  cbn [indentation]. by rewrite H1, H2, H3.
Qed.

Lemma implicit_newline_empty line : Forall (fun token => token = "") (implicit_newline line).
Proof.
  unfold implicit_newline. destruct (rev_string line ""); [constructor|].
  destruct (_ && _); repeat constructor.
Qed.

(** the loop of the lexer passes the tokens without text *)
Lemma classify_empty raw closing :
  Forall (fun token => token = "") closing -> classify (raw ++ closing) = classify raw.
Proof.
  intros Hc. induction raw as [|v raw IH]; cbn [app classify].
  - induction closing as [|v closing IH]; [done|].
    apply Forall_cons in Hc as [-> Hc]. by apply IH.
  - by rewrite IH.
Qed.

Lemma bind_Ok {A : Type} (m : result A) : (let! x := m in Ok x) = m.
Proof. by destruct m. Qed.

(** what the tokenizer yields for lexemes that fit, the first of which is
    no blank: their texts, and then the end of the input *)
Lemma generate_tokens_lexemes ls :
  match ls with [] | Blank :: _ => false | _ => true end = true ->
  lexemes_fit ls = true ->
  exists closing, Forall (fun token => token = "") closing
    /\ generate_tokens (render ls) = prepend (texts ls) (end_of_input (level ls) closing).
Proof.
  intros Hstart Hfit.
  destruct (render_start ls Hstart Hfit) as (c & rest & Hr & Hw & Hh & Hn).
  exists (implicit_newline (render ls) ++ [""]). split.
  { apply Forall_app. split; [apply implicit_newline_empty|by repeat constructor]. }
  unfold generate_tokens. rewrite Hr. cbn [span]. rewrite Hw. cbn [str_drop].
  rewrite Hh, Hn, indentation_start by done. cbn [Nat.ltb Nat.leb].
  rewrite <- Hr. rewrite <- (append_nil_l (render ls)) at 1.
  by rewrite tokens_of_lexemes.
Qed.

(** the tokens of a query, from its lexemes once it is normalized *)
Lemma get_tokens_lexemes query ls :
  normalize query = render ls -> lexemes_ok ls = true ->
  get_tokens query = classify (texts ls).
Proof.
  unfold lexemes_ok. intros Hn [[Hstart Hfit]%andb_true_iff Hlevel%Z.eqb_eq]%andb_true_iff.
  unfold get_tokens. cbn zeta. rewrite Hn.
  destruct (generate_tokens_lexemes ls Hstart Hfit) as (closing & Hc & ->).
  rewrite Hlevel. cbn [prepend end_of_input yielded raised Z.eqb].
  by rewrite classify_empty, bind_Ok.
Qed.

(** a list of tokens is returned when all the texts were classified and
    the tokenizer raised nothing *)
Lemma get_tokens_Ok query tokens :
  get_tokens query = Ok tokens ->
  classify (yielded (generate_tokens (normalize query))) = Ok tokens
  /\ raised (generate_tokens (normalize query)) = None.
Proof.
  unfold get_tokens. cbn zeta. destruct (classify _) as [l|]; cbn [bind]; [|discriminate].
  destruct (raised _); [discriminate|]. by intros [= ->].
Qed.

(** where the brackets do not balance, the tokens are classified and the
    tokenizer raises at the end of the input *)
Lemma get_tokens_unbalanced query ls :
  normalize query = render ls ->
  match ls with [] | Blank :: _ => false | _ => true end = true ->
  lexemes_fit ls = true -> level ls <> 0%Z ->
  get_tokens query = (let! _ := classify (texts ls) in Err TokenError).
Proof.
  intros Hn Hstart Hfit Hlevel. unfold get_tokens. cbn zeta. rewrite Hn.
  destruct (generate_tokens_lexemes ls Hstart Hfit) as (closing & Hc & ->).
  unfold end_of_input. apply Z.eqb_neq in Hlevel. rewrite Hlevel.
  cbn [prepend yielded raised]. by rewrite app_nil_r.
Qed.

Lemma lexemes_ok_intro ls :
  match ls with [] | Blank :: _ => false | _ => true end = true ->
  lexemes_fit ls = true -> level ls = 0%Z -> lexemes_ok ls = true.
Proof. intros H1 H2 H3. unfold lexemes_ok. by rewrite H1, H2, H3. Qed.

(** lexemes are in order: the names are names by the hypotheses at hand *)
Ltac lexemes_in_order :=
  apply lexemes_ok_intro;
  [ reflexivity
  | cbn [lexemes_fit]; by repeat match goal with H : is_name _ = _ |- _ => rewrite H end
  | by vm_compute ].

(** ** Terms *)

Lemma all_chars_rev p s : forall acc,
  all_chars p (rev_string s acc) = all_chars p s && all_chars p acc.
Proof.
  induction s as [|c s IH]; intros acc; cbn [rev_string all_chars]; [done|].
  rewrite IH. cbn [all_chars]. by rewrite andb_assoc, (andb_comm (all_chars p s)).
Qed.

(** a text without upper case does not end with a placeholder *)
Lemma no_upper_endswith_WILD s : no_upper s = true -> endswith WILD_PLACEHOLDER s = false.
Proof.
  intros H. unfold endswith, no_upper in *.
  assert (Hr : all_chars (fun c => negb (is_upper c)) (rev_string s "") = true)
    by (by rewrite all_chars_rev, H).
  change (rev_string WILD_PLACEHOLDER "") with "__DLIW__".
  destruct (rev_string s "") as [|c1 [|c2 [|c3 r]]]; cbn [startswith];
    rewrite ?andb_false_r; try done.
  destruct (Ascii.eqb "D" c3) eqn:E; [|by rewrite !andb_false_r].
  apply Ascii.eqb_eq in E. subst c3. cbn [all_chars] in Hr.
  do 2 apply andb_true_iff in Hr as [_ Hr]. apply andb_true_iff in Hr as [Hr _].
  vm_compute in Hr. discriminate Hr.
Qed.

Lemma no_upper_endswith_FIELD s : no_upper s = true -> endswith FIELD_PLACEHOLDER s = false.
Proof.
  intros H. unfold endswith, no_upper in *.
  assert (Hr : all_chars (fun c => negb (is_upper c)) (rev_string s "") = true)
    by (by rewrite all_chars_rev, H).
  change (rev_string FIELD_PLACEHOLDER "") with "__DLEIF__".
  destruct (rev_string s "") as [|c1 [|c2 [|c3 r]]]; cbn [startswith];
    rewrite ?andb_false_r; try done.
  destruct (Ascii.eqb "D" c3) eqn:E; [|by rewrite !andb_false_r].
  apply Ascii.eqb_eq in E. subst c3. cbn [all_chars] in Hr.
  do 2 apply andb_true_iff in Hr as [_ Hr]. apply andb_true_iff in Hr as [Hr _].
  vm_compute in Hr. discriminate Hr.
Qed.

Lemma term_clause_lower a : term_clause (lower a) = TermNode None (lower a) false false.
Proof. unfold term_clause. by rewrite no_upper_endswith_WILD by apply lower_no_upper. Qed.

Lemma is_term_name_spec w :
  is_term_name w = true ->
  get_token_type (lower w) = Ok T_TERM /\ match_word (lower w) = true
  /\ plain (lower w) = true /\ (0 <? String.length (lower w)) = true.
Proof.
  unfold is_term_name. intros [Hn Ht]%andb_true_iff.
  assert (Hty : get_token_type (lower w) = Ok T_TERM).
  { destruct (get_token_type (lower w)) as [[]|]; done. }
  assert (Hw := term_is_word _ Hty).
  repeat split; try done.
  - by apply match_word_lower.
  - by apply andb_true_iff in Hw as [_ ?].
Qed.

Lemma is_term_name_name w : is_term_name w = true -> is_name (lower w) = true.
Proof. unfold is_term_name. intros [Hn _]%andb_true_iff. by rewrite is_name_lower. Qed.

(** the literal pieces of a query, in lower case *)
Ltac lower_literals :=
  repeat match goal with
         | |- context [lower (String ?c ?s)] =>
             let v := eval vm_compute in (lower (String c s)) in
             change (lower (String c s)) with v
         end.

Ltac term_names :=
  repeat match goal with
         | H : is_term_name ?w = true |- _ =>
             pose proof (is_term_name_name _ H);
             apply is_term_name_spec in H as (? & ? & ? & ?)
         end.

(** the tokens of a query without [!], [:], [*] and newline, given its
    lexemes *)
Ltac lex_with ls :=
  rewrite (get_tokens_lexemes _ ls);
  [ cbn [texts classify]; by repeat match goal with H : _ = _ |- _ => rewrite H end
  | rewrite normalize_plain; rewrite !lower_app; lower_literals;
    [ by rewrite ?append_assoc
    | rewrite !plain_app; by repeat match goal with H : plain _ = _ |- _ => rewrite H end ]
  | lexemes_in_order ].

(** ** Quoted phrases *)

Lemma shlex_quoted_body q : forall body acc,
  has_char q body = false ->
  (is_dquote q = true -> has_char "\"%char body = false) ->
  shlex_run (body +:+ String q "") (ShQuote q) acc = Ok [rev_string (rev_string body acc) ""].
Proof.
  induction body as [|c body IH]; intros acc Hq Hb;
    rewrite ?append_nil_l, ?append_cons; cbn [shlex_run rev_string].
  - by rewrite Ascii.eqb_refl.
  - cbn [has_char] in Hq. apply orb_false_iff in Hq as [Hc Hq].
    rewrite Ascii.eqb_sym, Hc.
    assert (Hesc : is_backslash c && is_dquote q = false).
    { destruct (is_dquote q); [|by rewrite andb_false_r].
      specialize (Hb eq_refl). cbn [has_char] in Hb. apply orb_false_iff in Hb as [Hb _].
      rewrite andb_true_r. unfold is_backslash, code.
      apply Nat.eqb_neq. intros Hn. apply Ascii.eqb_neq in Hb. apply Hb.
      rewrite <- (ascii_nat_embedding c), Hn. reflexivity. }
    rewrite Hesc. apply IH; [done|].
    intros Hd. specialize (Hb Hd). cbn [has_char] in Hb. by apply orb_false_iff in Hb as [_ Hb].
Qed.

Lemma shlex_split_first_quoted q body :
  is_quote q = true ->
  has_char q body = false ->
  (is_dquote q = true -> has_char "\"%char body = false) ->
  shlex_split_first (quoted q body) = Ok body.
Proof.
  intros Hquote Hq Hb. unfold shlex_split_first, shlex_split, quoted. cbn [shlex_run].
  assert (Hs : is_shlex_space q = false /\ is_backslash q = false).
  { unfold is_quote, is_shlex_space, is_backslash in *.
    apply orb_true_iff in Hquote as [H|H]; apply Nat.eqb_eq in H; rewrite H; done. }
  destruct Hs as [-> ->]. rewrite Hquote.
  rewrite (shlex_quoted_body q body "" Hq Hb). cbn [bind].
  by rewrite rev_string_involutive.
Qed.

Lemma emit_plain_terms words :
  emit_operands get_tsquery (map (fun t => Some (TermNode None t false false)) words)
  = Ok words.
Proof. induction words as [|w words IH]; simpl; [done|]. by rewrite IH. Qed.

(** ** What the parser builds *)

Lemma well_built_operands t m ops :
  well_built (Some (mk_boolean t m ops)) <->
  m = None /\
  Forall (fun o => well_built o /\ boolean_type_of o <> Some t) ops.
Proof.
  unfold well_built.
  destruct t; simpl.
  - induction ops as [|o ops IH]; simpl.
    + rewrite andb_true_iff, bool_decide_eq_true, Forall_nil. tauto.
    + rewrite Forall_cons, !andb_true_iff, bool_decide_eq_true in *.
      destruct o as [[]|]; simpl; rewrite ?andb_true_iff; intuition congruence.
  - induction ops as [|o ops IH]; simpl.
    + rewrite andb_true_iff, bool_decide_eq_true, Forall_nil. tauto.
    + rewrite Forall_cons, !andb_true_iff, bool_decide_eq_true in *.
      destruct o as [[]|]; simpl; rewrite ?andb_true_iff; intuition congruence.
Qed.

Lemma well_built_boolean_type clause t :
  boolean_type_of clause = Some t ->
  exists m, clause = Some (mk_boolean t m (operands_of clause)).
Proof. destruct clause as [[]|]; simpl; intros [= <-]; eauto. Qed.

Lemma well_built_append boolean_clause clause :
  well_built boolean_clause -> well_built clause ->
  well_built (append_operand boolean_clause clause).
Proof.
  intros Hb Hc. unfold append_operand.
  destruct boolean_clause as [[m t w p|m ops|m ops|m o|m f o|m]|]; try assumption.
  - change (AndNode m ops) with (mk_boolean AndType m ops) in Hb.
    apply well_built_operands in Hb as [-> Hops].
    case_bool_decide as Ht.
    + destruct (well_built_boolean_type _ _ Ht) as [m' Hm']. rewrite Hm' in Hc.
      apply well_built_operands in Hc as [_ Hc].
      apply (well_built_operands AndType). split; [done|]. by apply Forall_app.
    + apply (well_built_operands AndType). split; [done|].
      apply Forall_app. split; [done|]. by repeat constructor.
  - change (OrNode m ops) with (mk_boolean OrType m ops) in Hb.
    apply well_built_operands in Hb as [-> Hops].
    case_bool_decide as Ht.
    + destruct (well_built_boolean_type _ _ Ht) as [m' Hm']. rewrite Hm' in Hc.
      apply well_built_operands in Hc as [_ Hc].
      apply (well_built_operands OrType). split; [done|]. by apply Forall_app.
    + apply (well_built_operands OrType). split; [done|].
      apply Forall_app. split; [done|]. by repeat constructor.
Qed.

Lemma well_built_BooleanNode clause t :
  well_built clause ->
  match (if bool_decide (boolean_type_of clause = Some t)
         then BooleanNode_init t (operands_of clause)
         else BooleanNode_init t [clause]) with
  | Ok n => well_built (Some n)
  | Err _ => True
  end.
Proof.
  intros Hc. unfold BooleanNode_init. case_bool_decide as Ht.
  - destruct (forallb _ _); [|done].
    destruct (well_built_boolean_type _ _ Ht) as [m' Hm']. rewrite Hm' in Hc.
    apply well_built_operands in Hc as [_ Hc]. by apply well_built_operands.
  - destruct (forallb _ _); [|done].
    apply well_built_operands. split; [done|]. by repeat constructor.
Qed.

Lemma well_built_NotNode operand :
  well_built operand ->
  match NotNode_init operand with Ok n => well_built (Some n) | Err _ => True end.
Proof. destruct operand; simpl; [|done]. intros [-> ->]. done. Qed.

Lemma well_built_FieldNode field operand :
  well_built operand ->
  match FieldNode_init field operand with Ok n => well_built (Some n) | Err _ => True end.
Proof. destruct operand; simpl; [|done]. intros [-> ->]. done. Qed.

(** a call in the goal, settled by the induction hypothesis or by the
    lemma on the constructor it runs *)
Ltac shape_call IH fuel :=
  match goal with
  | |- context [parse_tokens fuel ?t ?w ?c ?b ?h] =>
      let H := fresh "Hrec" in
      assert (H : well_built c /\ well_built b)
        by (split; first [ exact I | apply well_built_append; first [ assumption | done ] ]);
      destruct H as [H ?];
      apply (IH t w c b h) in H; [ | assumption ];
      destruct (parse_tokens fuel t w c b h) as [[? ?]|?];
      cbn [bind];
      [ | exact I ]
  | |- context [check_type ?t ?w] => destruct (check_type t w); cbn [bind]; [ | exact I ]
  | |- context [NotNode_init ?o] =>
      let H := fresh "Hinit" in
      assert (H := well_built_NotNode o);
      destruct (NotNode_init o); cbn [bind]; [ | exact I ];
      specialize (H ltac:(assumption))
  | |- context [FieldNode_init ?f ?o] =>
      let H := fresh "Hinit" in
      assert (H := well_built_FieldNode f o);
      destruct (FieldNode_init f o); cbn [bind]; [ | exact I ];
      specialize (H ltac:(assumption))
  | Hc : well_built ?c
    |- context [if bool_decide (boolean_type_of ?c = Some ?t) then _ else _] =>
      let H := fresh "Hinit" in
      assert (H := well_built_BooleanNode c t Hc);
      destruct (if bool_decide (boolean_type_of c = Some t)
                then BooleanNode_init t (operands_of c)
                else BooleanNode_init t [c]); cbn [bind]; [ | exact I ]
  | |- context [match ?l with [] => Err IndexError | _ :: _ => _ end] =>
      destruct l; [ exact I | ]
  | |- context [if bool_decide ?P then _ else _] => destruct (bool_decide P)
  | |- context [if endswith ?a ?b then _ else _] => destruct (endswith a b)
  end.

(** the loop keeps its clause well built *)
Lemma parse_tokens_well_built fuel : forall tokens want clause bc hanging,
  well_built clause -> well_built bc ->
  match parse_tokens fuel tokens want clause bc hanging with
  | Ok (c, _) => well_built c
  | Err _ => True
  end.
Proof.
  induction fuel as [|fuel IH]; intros tokens want clause bc hanging Hclause Hbc; [exact I|].
  cbn [parse_tokens]. unfold parse_iteration.
  destruct tokens as [|token tokens]; [assumption|].
  destruct (bool_decide (token_type token = T_PLUS) && _).
  { by apply IH. }
  destruct hanging;
    [ | destruct (_ && kind_in _ [T_OPEN; T_PHRASE; T_TERM; T_NOOP; T_FIELD]);
        [ | destruct (_ && kind_in _ [T_NOT]) ] ];
    cbn [token_type].
  - shape_call IH fuel. destruct (token_type token); repeat shape_call IH fuel; try done.
  - repeat shape_call IH fuel; try done.
  - repeat shape_call IH fuel; try done.
  - shape_call IH fuel. destruct (token_type token); repeat shape_call IH fuel; try done.
Qed.

Lemma parse_well_built solr_query t : parse solr_query = Ok t -> well_built t.
Proof.
  unfold parse, parse_tokens_top.
  destruct (get_tokens _) as [tokens|e]; cbn [bind]; [|discriminate].
  assert (H := parse_tokens_well_built (enough_fuel tokens) tokens WANT_START None None false I I).
  destruct (parse_tokens _ _ _ _ _ _) as [[c rest]|e]; cbn [bind]; [|discriminate].
  by intros [= <-].
Qed.

(** the loop: an operand that follows a clause is read as if [or] stood
    before it *)
Lemma implicit_or_iteration fuel token tokens want clause :
  kind_in (token_type token) [T_OPEN; T_PHRASE; T_TERM; T_NOOP; T_FIELD] = true ->
  parse_tokens fuel (token :: tokens) want (Some clause) None false
  = parse_tokens fuel (tok "or" T_OR :: token :: tokens) want (Some clause) None false.
Proof.
  intros Hkind. destruct fuel as [|fuel]; [done|].
  cbn [parse_tokens]. unfold parse_iteration.
  assert (Hplus : bool_decide (token_type token = T_PLUS) = false).
  { apply bool_decide_eq_false. intros Ht. by rewrite Ht in Hkind. }
  rewrite Hplus, Hkind. reflexivity.
Qed.

Lemma parse_two_terms x y :
  parse_tokens_top [tok "(" T_OPEN; tok x T_TERM; tok y T_TERM; tok ")" T_CLOSE]
  = Ok (Some (OrNode None [Some (term_clause x); Some (term_clause y)]))
  /\ parse_tokens_top [tok "(" T_OPEN; tok x T_TERM; tok "or" T_OR; tok y T_TERM;
                       tok ")" T_CLOSE]
  = Ok (Some (OrNode None [Some (term_clause x); Some (term_clause y)])).
Proof. split; vm_compute; reflexivity. Qed.

(** ** The filter on trees *)

Lemma never_filtered_root t : never_filtered t = true -> filtered_by t = None.
Proof.
  destruct t; simpl; rewrite ?andb_true_iff, ?bool_decide_eq_true; tauto.
Qed.

Lemma never_filtered_memo t f : never_filtered t = true -> memo_is (filtered_by t) f = false.
Proof. intros H. unfold memo_is. by rewrite (never_filtered_root t H). Qed.

Lemma filter_operands_without_not f operands :
  Forall (fun o => match o with
                   | Some x => never_filtered x = true ->
                       forall t', filter_tree f x = Ok (Some t') -> without_not t' = true
                   | None => True
                   end) operands ->
  forallb (fun o => match o with Some x => never_filtered x | None => true end) operands = true ->
  forall l, filter_operands (filter_tree f) operands = Ok l ->
  forallb (fun o => match o with Some x => without_not x | None => true end) l = true.
Proof.
  induction 1 as [|o operands Ho _ IH]; simpl; intros Hnf l.
  - by intros [= <-].
  - destruct o as [x|]; [|discriminate].
    apply andb_true_iff in Hnf as [Hx Hnf].
    destruct (filter_tree f x) as [r|e] eqn:Ex; cbn [bind]; [|discriminate].
    destruct (filter_operands (filter_tree f) operands) as [l'|e]; cbn [bind]; [|discriminate].
    specialize (IH Hnf l' eq_refl).
    destruct r as [t'|]; intros [= <-]; [|done].
    simpl. rewrite IH, (Ho Hx t' eq_refl). done.
Qed.

Lemma filter_tree_without_not t :
  never_filtered t = true ->
  forall t', filter_tree node_is_field_or_noop_or_not t = Ok (Some t') -> without_not t' = true.
Proof.
  induction t as [m term wildcard phrase|m operands IH|m operands IH|m operand IH
                 |m field operand IH|m] using node_induction;
    intros Hnf t'; cbn [filter_tree]; rewrite (never_filtered_memo _ _ Hnf).
  - simpl. by intros [= <-].
  - simpl in Hnf. apply andb_true_iff in Hnf as [_ Hnf]. cbn [fn_call node_is_field_or_noop_or_not].
    destruct (filter_operands _ operands) as [l|e] eqn:El; cbn [bind]; [|discriminate].
    destruct (0 <? length l); intros [= <-]. simpl.
    by eapply filter_operands_without_not.
  - simpl in Hnf. apply andb_true_iff in Hnf as [_ Hnf]. cbn [fn_call node_is_field_or_noop_or_not].
    destruct (filter_operands _ operands) as [l|e] eqn:El; cbn [bind]; [|discriminate].
    destruct (0 <? length l); intros [= <-]. simpl.
    by eapply filter_operands_without_not.
  - simpl. discriminate.
  - simpl in Hnf. apply andb_true_iff in Hnf as [_ Hnf]. cbn [fn_call node_is_field_or_noop_or_not].
    destruct (negb _); [discriminate|].
    destruct (filter_tree _ operand) as [[o|]|e] eqn:Eo; cbn [bind]; try discriminate.
    intros [= <-]. simpl. by apply IH.
  - simpl. discriminate.
Qed.

Lemma filter_operands_only_negated f operands :
  Forall (fun o => match o with
                   | Some x => never_filtered x = true -> only_negated x = true ->
                               filter_tree f x = Ok None
                   | None => True
                   end) operands ->
  forallb (fun o => match o with Some x => never_filtered x | None => true end) operands = true ->
  forallb (fun o => match o with Some x => only_negated x | None => false end) operands = true ->
  filter_operands (filter_tree f) operands = Ok [].
Proof.
  induction 1 as [|o operands Ho _ IH]; simpl; intros Hnf Hneg; [done|].
  destruct o as [x|]; [|discriminate].
  apply andb_true_iff in Hnf as [Hx Hnf]. apply andb_true_iff in Hneg as [Hnx Hneg].
  by rewrite (Ho Hx Hnx), (IH Hnf Hneg).
Qed.

Lemma filter_tree_only_negated t :
  never_filtered t = true -> only_negated t = true ->
  filter_tree node_is_field_or_noop_or_not t = Ok None.
Proof.
  induction t as [m term wildcard phrase|m operands IH|m operands IH|m operand IH
                 |m field operand IH|m] using node_induction;
    intros Hnf Hneg; cbn [filter_tree]; rewrite (never_filtered_memo _ _ Hnf);
    try discriminate Hneg.
  - simpl in Hnf, Hneg. apply andb_true_iff in Hnf as [_ Hnf].
    cbn [fn_call node_is_field_or_noop_or_not].
    by rewrite (filter_operands_only_negated _ _ IH Hnf Hneg).
  - simpl in Hnf, Hneg. apply andb_true_iff in Hnf as [_ Hnf].
    cbn [fn_call node_is_field_or_noop_or_not].
    by rewrite (filter_operands_only_negated _ _ IH Hnf Hneg).
  - reflexivity.
  - simpl in Hnf, Hneg. apply andb_true_iff in Hnf as [_ Hnf].
    cbn [fn_call node_is_field_or_noop_or_not].
    destruct (negb _); [done|]. by rewrite (IH Hnf Hneg).
Qed.

(** the tree the filter returns carries the memo of the filter, so that
    the filter returns it as it is *)
Lemma filter_tree_memo f t t' :
  filter_tree f t = Ok (Some t') -> memo_is (filtered_by t') f = true.
Proof.
  assert (Hnew : memo_is (Some (fn_id f)) f = true) by by apply bool_decide_eq_true.
  destruct t as [m term wildcard phrase|m ts|m ts|m x|m field x|m];
    cbn [filter_tree filtered_by];
    (destruct (memo_is m f) eqn:Hmemo; [by intros [= <-]|]);
    (destruct (fn_call f _); [done|]).
  - by intros [= <-].
  - destruct (filter_operands _ ts) as [rs|e]; cbn [bind]; [|done].
    by destruct (0 <? length rs); intros [= <-].
  - destruct (filter_operands _ ts) as [rs|e]; cbn [bind]; [|done].
    by destruct (0 <? length rs); intros [= <-].
  - destruct (filter_tree f x) as [[r|]|e]; cbn [bind]; try done. by intros [= <-].
  - destruct (filter_tree f x) as [[r|]|e]; cbn [bind]; try done. by intros [= <-].
  - by intros [= <-].
Qed.

Lemma filter_tree_again f t t' :
  filter_tree f t = Ok (Some t') -> filter_tree f t' = Ok (Some t').
Proof.
  intros H. apply filter_tree_memo in H. by destruct t'; cbn [filter_tree]; rewrite H.
Qed.

(** ** The filter on the object graph *)

Module HeapFacts.
Import Heap.

Lemma grows_refl f h : grows f h h.
Proof.
split; [lia | eauto 6 | ].
intros b o c Hb Ho. apply lookup_lt_Some in Ho. lia.
Qed.

Lemma grows_memo f h h' a : grows f h h' -> has_memo f h a -> has_memo f h' a.
Proof.
intros Hg (o & Ho & Hm). destruct (grows_old _ _ _ Hg _ _ Ho) as (o' & Ho' & _ & Hm' & _).
exists o'. split; [done | congruence].
Qed.

Lemma grows_trans f h1 h2 h3 : grows f h1 h2 -> grows f h2 h3 -> grows f h1 h3.
Proof.
intros H12 H23. split.
- pose proof (grows_length _ _ _ H12). pose proof (grows_length _ _ _ H23). lia.
- intros b o Ho.
  destruct (grows_old _ _ _ H12 _ _ Ho) as (o2 & Ho2 & Hs2 & Hm2 & He2).
  destruct (grows_old _ _ _ H23 _ _ Ho2) as (o3 & Ho3 & Hs3 & Hm3 & He3).
  exists o3. split; [done|]. split; [congruence|]. split; [congruence|].
  intros Hne. rewrite He3, He2; [done | done | congruence].
- intros b o c Hb Ho Hc.
  destruct (decide (length h2 <= b)) as [Hb2|Hb2].
  + destruct (grows_new _ _ _ H23 _ _ _ Hb2 Ho Hc) as [Hc2|(oc & Hoc & Hm)].
    * left. pose proof (grows_length _ _ _ H12). lia.
    * destruct (decide (length h1 <= c)) as [?|Hc1]; [by left | right].
      destruct (lookup_lt_is_Some_2 h1 c ltac:(lia)) as [oc1 Hoc1].
      destruct (grows_old _ _ _ H12 _ _ Hoc1) as (oc2 & Hoc2 & _ & Hm2 & _).
      exists oc1. split; [done | congruence].
  + destruct (lookup_lt_is_Some_2 h2 b ltac:(lia)) as [o2 Ho2].
    destruct (grows_old _ _ _ H23 _ _ Ho2) as (o3 & Ho3 & Hs3 & _).
    assert (o3 = o) as -> by congruence.
    rewrite Hs3 in Hc. exact (grows_new _ _ _ H12 _ _ _ Hb Ho2 Hc).
Qed.

Lemma set_parent_lookup self h c b :
set_parent self h c !! b =
if decide (c = b)
then (fun o => mkObject (obj_shape o) (Some self) (filtered_by_function o)) <$> h !! b
else h !! b.
Proof.
unfold set_parent. destruct (decide (c = b)) as [->|Hne].
- apply list_lookup_alter_eq.
- by apply list_lookup_alter_ne.
Qed.

Lemma set_parents_lookup self operands : forall h b o,
h !! b = Some o ->
exists o', fold_left (set_parent self) operands h !! b = Some o'
  /\ obj_shape o' = obj_shape o
  /\ filtered_by_function o' = filtered_by_function o
  /\ (b ∉ operands -> o' = o).
Proof.
induction operands as [|c operands IH]; intros h b o Ho; simpl.
- eauto.
- destruct (IH (set_parent self h c) b
              (if decide (c = b)
               then mkObject (obj_shape o) (Some self) (filtered_by_function o) else o))
    as (o' & Ho' & Hs & Hm & He).
  { rewrite set_parent_lookup, Ho. by destruct (decide (c = b)). }
  exists o'. split; [done|].
  destruct (decide (c = b)) as [->|Hne]; simpl in *; repeat split; try done.
  + intros Hn. exfalso. apply Hn. by left.
  + intros Hn. apply He. intros Hin. apply Hn. by right.
Qed.

Lemma set_parents_length self operands : forall h,
length (fold_left (set_parent self) operands h) = length h.
Proof.
induction operands as [|c operands IH]; intros h; simpl; [done|].
rewrite IH. apply length_alter.
Qed.

(** what a constructor call does to the heap *)
Lemma construct_spec s operands m h t h' :
  construct s operands m h = (t, h') ->
  t = length h /\ length h' = S (length h)
  /\ (exists o, h' !! t = Some o /\ obj_shape o = s /\ filtered_by_function o = m)
  /\ forall b o, h !! b = Some o ->
       exists o', h' !! b = Some o' /\ obj_shape o' = obj_shape o
         /\ filtered_by_function o' = filtered_by_function o
         /\ (b ∉ operands -> o' = o).
Proof.
  unfold construct, alloc. intros [= <- <-].
  assert (Hlen : length (fold_left (set_parent (length h)) operands
                            (h ++ [mkObject s None None])) = S (length h)).
  { rewrite set_parents_length, length_app. simpl. lia. }
  split; [done|]. split; [by rewrite length_alter|]. split.
  - destruct (set_parents_lookup (length h) operands (h ++ [mkObject s None None])
                (length h) (mkObject s None None)) as (o & Ho & Hso & _).
    { by apply list_lookup_middle. }
    rewrite list_lookup_alter_eq, Ho. simpl. eauto.
  - intros b o Ho.
    destruct (set_parents_lookup (length h) operands (h ++ [mkObject s None None]) b o)
      as (o' & Ho' & Hso & Hmo & Heo).
    { rewrite lookup_app_l; [done | by eapply lookup_lt_Some]. }
    exists o'. rewrite list_lookup_alter_ne; [done|].
    apply lookup_lt_Some in Ho. lia.
Qed.

Lemma build_grows f s operands h t h' :
  operand_addrs s = operands ->
  Forall (has_memo f h) operands ->
  build f s operands h = (t, h') ->
  grows f h h' /\ has_memo f h' t.
Proof.
  intros Hs Hops Hb. unfold build in Hb.
  destruct (construct_spec _ _ _ _ _ _ Hb) as (-> & Hlen & (onew & Honew & Hsnew & Hmnew) & Hold).
  split; [split|].
  - lia.
  - intros b o Ho. destruct (Hold b o Ho) as (o' & Ho' & Hso & Hmo & Heo).
    exists o'. split; [done|]. split; [done|]. split; [done|].
    intros Hne. apply Heo. intros Hin.
    rewrite Forall_forall in Hops. destruct (Hops b Hin) as (ob & Hob & Hmb). congruence.
  - intros b o c Hb' Ho Hc.
    assert (b = length h) as ->.
    { apply lookup_lt_Some in Ho. lia. }
    rewrite Honew in Ho. injection Ho as <-.
    rewrite Hsnew, Hs in Hc. right. rewrite Forall_forall in Hops. by apply Hops.
  - by exists onew.
Qed.

Lemma filter_operands_grows f filter_node :
filter_spec f filter_node ->
forall operands h r h', filter_operands filter_node operands h = (r, h') ->
  grows f h h' /\ forall l, r = Ok l -> Forall (has_memo f h') l.
Proof.
intros Hnode. induction operands as [|[operand|] operands IH]; intros h r h'; simpl.
- intros [= <- <-]. split; [apply grows_refl|]. by intros l [= <-].
- destruct (filter_node operand h) as [[fo|e] h1] eqn:E1.
  + destruct (Hnode _ _ _ _ E1) as [Hg1 Hm1].
    destruct (filter_operands filter_node operands h1) as [[fl|e] h2] eqn:E2;
      destruct (IH _ _ _ E2) as [Hg2 Hm2]; intros [= <- <-].
    * split; [by eapply grows_trans|].
      intros l [= <-]. destruct fo as [o|]; [|by apply Hm2].
      constructor; [|by apply Hm2]. eapply grows_memo; [done|]. by apply Hm1.
    * split; [by eapply grows_trans | done].
  + destruct (Hnode _ _ _ _ E1) as [Hg1 _]. by intros [= <- <-].
- intros [= <- <-]. split; [apply grows_refl | done].
Qed.

Lemma filter_tree_grows fuel f : filter_spec f (filter_tree fuel f).
Proof.
induction fuel as [|fuel IH]; intros self h r h'; simpl.
{ intros [= <- <-]. split; [apply grows_refl | done]. }
destruct (h !! self) as [o|] eqn:Ho; [ | intros [= <- <-]; split; [apply grows_refl | done] ].
destruct (memo_is (filtered_by_function o) f) eqn:Hmemo.
{ intros [= <- <-]. split; [apply grows_refl|]. intros t [= <-].
  apply bool_decide_eq_true in Hmemo. by exists o. }
destruct (fn_call f h self).
{ intros [= <- <-]. split; [apply grows_refl | done]. }
assert (Hleaf : forall s, operand_addrs s = [] ->
  (let '(t, h0) := build f s [] h in (Ok (Some t), h0)) = (r, h') ->
  grows f h h' /\ forall t, r = Ok (Some t) -> has_memo f h' t).
{ intros s Hs. destruct (build f s [] h) as [t h0] eqn:Eb. intros [= <- <-].
  destruct (build_grows f s [] h t h0 Hs ltac:(constructor) Eb) as [Hg Hm].
  split; [done|]. by intros ? [= <-]. }
assert (Hboolean : forall (mk : list (option addr) -> shape) operands,
  (forall l, operand_addrs (mk (map Some l)) = l) ->
  match filter_operands (filter_tree fuel f) operands h with
  | (Err e, h) => (Err e, h)
  | (Ok filtered_operands, h) =>
      if 0 <? length filtered_operands
      then let '(t, h) := build f (mk (map Some filtered_operands)) filtered_operands h in
           (Ok (Some t), h)
      else (Ok None, h)
  end = (r, h') ->
  grows f h h' /\ forall t, r = Ok (Some t) -> has_memo f h' t).
{ intros mk operands Hmk.
  destruct (filter_operands (filter_tree fuel f) operands h) as [[l|e] h1] eqn:E1;
    destruct (filter_operands_grows f _ IH _ _ _ _ E1) as [Hg1 Hm1];
    [ | by intros [= <- <-] ].
  destruct (0 <? length l); [ | by intros [= <- <-] ].
  destruct (build f (mk (map Some l)) l h1) as [t h2] eqn:Eb. intros [= <- <-].
  destruct (build_grows f _ l h1 t h2 (Hmk l) (Hm1 l eq_refl) Eb) as [Hg2 Hm2].
  split; [by eapply grows_trans|]. by intros ? [= <-]. }
assert (Hunary : forall (mk : addr -> shape) operand,
  (forall a, operand_addrs (mk a) = [a]) ->
  match filter_tree fuel f operand h with
  | (Err e, h) => (Err e, h)
  | (Ok (Some filtered_operand), h) =>
      let '(t, h) := build f (mk filtered_operand) [filtered_operand] h in
      (Ok (Some t), h)
  | (Ok None, h) => (Ok None, h)
  end = (r, h') ->
  grows f h h' /\ forall t, r = Ok (Some t) -> has_memo f h' t).
{ intros mk operand Hmk.
  destruct (filter_tree fuel f operand h) as [[[fo|]|e] h1] eqn:E1;
    destruct (IH _ _ _ _ E1) as [Hg1 Hm1]; try by intros [= <- <-].
  destruct (build f (mk fo) [fo] h1) as [t h2] eqn:Eb. intros [= <- <-].
  destruct (build_grows f _ [fo] h1 t h2 (Hmk fo)
              ltac:(constructor; [by apply Hm1 | constructor]) Eb) as [Hg2 Hm2].
  split; [by eapply grows_trans|]. by intros ? [= <-]. }
destruct (obj_shape o) as [term wildcard phrase|operands|operands|operand|field operand|].
- by apply Hleaf.
- apply Hboolean. intros l. simpl. induction l; simpl; [done | by f_equal].
- apply Hboolean. intros l. simpl. induction l; simpl; [done | by f_equal].
- by apply Hunary.
- by apply Hunary.
- by apply Hleaf.
Qed.

(** the filter on a heap where nothing carries its memo *)
Lemma unfiltered_grows f h h' :
unfiltered_by f h -> grows f h h' ->
(forall b o, h !! b = Some o -> h' !! b = Some o)
/\ (forall t, has_memo f h' t -> length h <= t)
/\ (forall b o c, length h <= b -> h' !! b = Some o ->
      c ∈ operand_addrs (obj_shape o) -> length h <= c).
Proof.
intros Hun Hg. split; [|split].
- intros b o Ho. destruct (grows_old _ _ _ Hg _ _ Ho) as (o' & Ho' & _ & _ & He).
  rewrite Ho', He; [done|]. intros Hm. apply (Hun b). by exists o.
- intros t (o' & Ho' & Hm').
  destruct (decide (length h <= t)) as [|Hlt]; [done|]. exfalso.
  destruct (lookup_lt_is_Some_2 h t ltac:(lia)) as [o Ho].
  destruct (grows_old _ _ _ Hg _ _ Ho) as (o2 & Ho2 & _ & Hm2 & _).
  apply (Hun t). exists o. split; [done|]. congruence.
- intros b o c Hb Ho Hc.
  destruct (grows_new _ _ _ Hg _ _ _ Hb Ho Hc) as [|Hm]; [done|].
  by destruct (Hun c).
Qed.

Lemma emit_heap fuel f get self h r h' :
emit fuel f get self h = (r, h') ->
exists r0, filter_tree fuel f self h = (r0, h').
Proof.
unfold emit. destruct (filter_tree fuel f self h) as [[[t|]|e] h0]; intros [= _ <-]; eauto.
Qed.

(** C4.  Idempotent filtering: when [filter_tree] with the filter [f]
  returns the node [t'], filtering [t'] again with [f] returns [t']
  itself, the same object, and leaves the heap as it is: the memo
  [filtered_by_function] of [t'] is [f]. *)
Theorem filter_tree_idempotent fuel f t h t' h' :
filter_tree fuel f t h = (Ok (Some t'), h') ->
filter_tree fuel f t' h' = (Ok (Some t'), h').
Proof.
intros H. destruct (filter_tree_grows fuel f _ _ _ _ H) as [_ Hm].
destruct (Hm t' eq_refl) as (o & Ho & Hmemo).
destruct fuel as [|fuel]; [discriminate H|].
cbn [filter_tree]. rewrite Ho. unfold memo_is. rewrite Hmemo.
by rewrite bool_decide_eq_true_2.
Qed.

Lemma filter_tree_idempotent_witness :
filter_tree 5 node_is_field_or_noop 15 example_filtered = (Ok (Some 15), example_filtered).
Proof.
apply (filter_tree_idempotent 5 node_is_field_or_noop 8 example_heap).
vm_compute. reflexivity.
Defined.

(** C9.  Filtering does not mutate its input.  Whatever [filter_tree]
    returns, every object that was in the heap is still at its address with
    the attributes of its class (kind, term text, wildcard and phrase
    flags, field name, operands) and its memo.  On a heap where no object
    carries the memo of [f], as is the heap of a tree the parser has just
    built (lemma [parsed_tree_on_heap]), every object is left as it is
    altogether, the node returned is a new object, and the new objects
    refer to new objects only: the tree returned is newly built.  [tsquery]
    and [re], which filter, leave the attributes of every object as they
    are too. *)
Theorem filter_tree_leaves_input_unchanged fuel f self h r h' :
  filter_tree fuel f self h = (r, h') ->
  preserved h h'
  /\ (unfiltered_by f h ->
        (forall b o, h !! b = Some o -> h' !! b = Some o)
        /\ (forall t, r = Ok (Some t) -> length h <= t < length h')
        /\ (forall b o c, length h <= b -> h' !! b = Some o ->
              c ∈ operand_addrs (obj_shape o) -> length h <= c))
  /\ (forall s h2, tsquery fuel self h = (s, h2) -> preserved h h2)
  /\ (forall s h2, re fuel self h = (s, h2) -> preserved h h2).
Proof.
  intros H. destruct (filter_tree_grows fuel f _ _ _ _ H) as [Hg Hm].
  assert (Hold : forall g h1 h2, grows g h1 h2 -> preserved h1 h2).
  { intros g h1 h2 Hg12 b o Ho.
    destruct (grows_old _ _ _ Hg12 _ _ Ho) as (o' & ? & ? & ? & _). eauto. }
  split; [by apply (Hold f)|]. split; [|split].
  - intros Hun. destruct (unfiltered_grows f h h' Hun Hg) as (Hsame & Hfresh & Hnew).
    split; [done|]. split; [|done].
    intros t ->. destruct (Hm t eq_refl) as (o & Ho & Hmo).
    split; [apply Hfresh; by exists o | by eapply lookup_lt_Some].
  - intros s h2 Hs. apply emit_heap in Hs as [r0 Hr0].
    apply (Hold node_is_field_or_noop). by destruct (filter_tree_grows _ _ _ _ _ _ Hr0).
  - intros s h2 Hs. apply emit_heap in Hs as [r0 Hr0].
    apply (Hold node_is_field_or_noop_or_not). by destruct (filter_tree_grows _ _ _ _ _ _ Hr0).
Qed.

Lemma filter_tree_leaves_input_unchanged_witness :
(forall b o, example_heap !! b = Some o -> example_filtered !! b = Some o)
/\ length example_heap <= 15 < length example_filtered.
Proof.
destruct (filter_tree_leaves_input_unchanged 5 node_is_field_or_noop 8
            example_heap (Ok (Some 15)) example_filtered) as (_ & Hun & _).
{ vm_compute. reflexivity. }
destruct Hun as (Hsame & Hfresh & _).
{ intros a (o & Ho & Hm). revert Ho Hm.
  do 9 (destruct a as [|a]; [intros [= <-]; discriminate|]). discriminate. }
split; [done|]. by apply Hfresh.
Defined.

End HeapFacts.

(** ** The object graph and the trees *)

(** a tree that is in the heap stays there while the heap grows *)
Lemma hold_all_impl (P Q : node -> nat -> Prop) ts :
  Forall (fun o => match o with Some x => forall a, P x a -> Q x a | None => True end) ts ->
  forall l, Heap.hold_all P ts l -> Heap.hold_all Q ts l.
Proof.
  induction 1 as [|o ts Ho _ IH]; intros [|b l]; simpl; try done.
  destruct o as [x|], b as [b|]; try done.
  - intros [Hx Hts]. split; [by apply Ho | by apply IH].
  - apply IH.
Qed.

Lemma holds_preserved h h' :
  Heap.preserved h h' -> forall t a, Heap.holds h t a -> Heap.holds h' t a.
Proof.
  intros Hp t.
  induction t as [m term wildcard phrase|m ts IH|m ts IH|m x IH|m field x IH|m]
    using node_induction; intros a; cbn [Heap.holds];
    intros (o & Ho & Hm & Hs);
    destruct (Hp _ _ Ho) as (o' & Ho' & Hs' & Hm');
    exists o'; (split; [done|]); (split; [congruence|]); rewrite Hs'; try done.
  - destruct Hs as (l & Hl & Hall). exists l. split; [done|]. by eapply hold_all_impl.
  - destruct Hs as (l & Hl & Hall). exists l. split; [done|]. by eapply hold_all_impl.
  - destruct Hs as (b & Hb & Hx). exists b. split; [done|]. by apply IH.
  - destruct Hs as (b & Hb & Hx). exists b. split; [done|]. by apply IH.
Qed.

Lemma hold_all_preserved h h' ts l :
  Heap.preserved h h' ->
  Heap.hold_all (Heap.holds h) ts l -> Heap.hold_all (Heap.holds h') ts l.
Proof.
  intros Hp. apply hold_all_impl. apply Forall_forall. intros [x|] _; [|done].
  intros a. by apply holds_preserved.
Qed.

Lemma preserved_refl h : Heap.preserved h h.
Proof. intros b o Ho. eauto. Qed.

Lemma preserved_trans h1 h2 h3 :
  Heap.preserved h1 h2 -> Heap.preserved h2 h3 -> Heap.preserved h1 h3.
Proof.
  intros H12 H23 b o Ho. destruct (H12 _ _ Ho) as (o2 & Ho2 & Hs2 & Hm2).
  destruct (H23 _ _ Ho2) as (o3 & Ho3 & Hs3 & Hm3). exists o3. split; [done|]. split; congruence.
Qed.

Lemma grows_preserved g h h' : Heap.grows g h h' -> Heap.preserved h h'.
Proof.
  intros Hg b o Ho. destruct (Heap.grows_old _ _ _ Hg _ _ Ho) as (o' & ? & ? & ? & _). eauto.
Qed.

Lemma holds_grows g h h' : Heap.grows g h h' -> forall t a, Heap.holds h t a -> Heap.holds h' t a.
Proof. intros Hg. apply holds_preserved. by eapply grows_preserved. Qed.

Lemma hold_all_grows g h h' ts l :
  Heap.grows g h h' -> Heap.hold_all (Heap.holds h) ts l -> Heap.hold_all (Heap.holds h') ts l.
Proof. intros Hg. apply hold_all_preserved. by eapply grows_preserved. Qed.

Lemma filter_operands_refines f g (filter_node : nat -> list Heap.object -> _) ts :
  Heap.filter_spec g filter_node ->
  Forall (fun o => match o with
                   | Some x => forall h a, Heap.holds h x a ->
                       refines (snd (filter_node a h)) (filter_tree f x) (fst (filter_node a h))
                   | None => True
                   end) ts ->
  forall l h, Heap.hold_all (Heap.holds h) ts l ->
    refines_all (snd (Heap.filter_operands filter_node l h))
      (filter_operands (filter_tree f) ts) (fst (Heap.filter_operands filter_node l h)).
Proof.
  intros Hspec. induction 1 as [|o ts Ho _ IH]; intros [|b l] h; simpl; try done.
  - intros _. by exists [].
  - by destruct o.
  - destruct o as [x|], b as [b|]; try done. intros [Hx Hts].
    specialize (Ho h b Hx).
    destruct (filter_node b h) as [r1 h1] eqn:E1. simpl in Ho.
    destruct (Hspec _ _ _ _ E1) as [Hg1 _].
    destruct (filter_tree f x) as [fo|e]; simpl in Ho; cbn [bind].
    2:{ by rewrite Ho. }
    assert (Hr1 : exists fa, r1 = Ok fa /\
              match fo, fa with
              | Some t', Some a' => Heap.holds h1 t' a'
              | None, None => True
              | _, _ => False
              end).
    { destruct fo as [t'|]; [destruct Ho as (a' & -> & Ha'); by exists (Some a') | by exists None]. }
    destruct Hr1 as (fa & -> & Hfa).
    specialize (IH l h1 (hold_all_grows _ _ _ _ _ Hg1 Hts)).
    destruct (Heap.filter_operands filter_node l h1) as [r2 h2] eqn:E2. simpl in IH.
    destruct (HeapFacts.filter_operands_grows g filter_node Hspec _ _ _ _ E2) as [Hg2 _].
    destruct (filter_operands (filter_tree f) ts) as [rs|e]; simpl in IH; cbn [bind].
    2:{ by rewrite IH. }
    destruct IH as (ls & -> & Hls). simpl.
    destruct fo as [t'|], fa as [a'|]; try done; simpl.
    + exists (a' :: ls). split; [done|]. simpl. split; [|done]. by apply holds_grows with g h1.
    + by exists ls.
Qed.

Lemma hold_all_length P ts l : Heap.hold_all P ts l -> length ts = length l.
Proof.
  revert l. induction ts as [|o ts IH]; intros [|b l]; simpl; try done.
  - by destruct o.
  - destruct o, b; try done; intros H; f_equal; apply IH; tauto.
Qed.

Lemma depth_operand x (ts : list (option node)) :
  Some x ∈ ts ->
  depth x <= foldr (fun o d => match o with Some x => depth x | None => 0 end `max` d) 0 ts.
Proof.
  induction ts as [|o ts IH]; [by intros ?%elem_of_nil|].
  intros [<-|Hin]%elem_of_cons; simpl; [lia|]. specialize (IH Hin). lia.
Qed.

Lemma build_object g s operands h a h' :
  Heap.build g s operands h = (a, h') ->
  exists o, h' !! a = Some o /\ Heap.obj_shape o = s
            /\ Heap.filtered_by_function o = Some (Heap.fn_id g).
Proof.
  intros Hb. by destruct (HeapFacts.construct_spec _ _ _ _ _ _ Hb) as (_ & _ & Ho & _).
Qed.

(** The filter on the heap does what the filter on trees does: on an
    address that holds the tree [t], with more fuel than [t] is high, it
    raises what [filter_tree] raises on [t], returns [None] when
    [filter_tree] does, and otherwise returns an address that holds the
    tree [filter_tree] returns. *)
Lemma filter_tree_refines f g :
  agree f g ->
  forall t fuel h a, depth t < fuel -> Heap.holds h t a ->
    refines (snd (Heap.filter_tree fuel g a h)) (filter_tree f t)
      (fst (Heap.filter_tree fuel g a h)).
Proof.
  intros [Hid Hcall] t.
  assert (Hboolean : forall (mk : list (option nat) -> Heap.shape)
                            (mkn : option nat -> list (option node) -> node) ts fuel h l,
    (forall l, Heap.operand_addrs (mk (map Some l)) = l) ->
    (forall h m rs a, Heap.holds h (mkn m rs) a <->
       exists o, h !! a = Some o /\ Heap.filtered_by_function o = m
                 /\ exists l, Heap.obj_shape o = mk l /\ Heap.hold_all (Heap.holds h) rs l) ->
    Forall (fun o => match o with
                     | Some x => forall fuel h a, depth x < fuel -> Heap.holds h x a ->
                         refines (snd (Heap.filter_tree fuel g a h)) (filter_tree f x)
                           (fst (Heap.filter_tree fuel g a h))
                     | None => True
                     end) ts ->
    foldr (fun o d => match o with Some x => depth x | None => 0 end `max` d) 0 ts < fuel ->
    Heap.hold_all (Heap.holds h) ts l ->
    let res :=
      match Heap.filter_operands (Heap.filter_tree fuel g) l h with
      | (Err e, h) => (Err e, h)
      | (Ok filtered_operands, h) =>
          if 0 <? length filtered_operands
          then let '(t, h) := Heap.build g (mk (map Some filtered_operands))
                                filtered_operands h in
               (Ok (Some t), h)
          else (Ok None, h)
      end in
    refines (snd res)
      (let! filtered_operands := filter_operands (filter_tree f) ts in
       if 0 <? length filtered_operands
       then Ok (Some (mkn (Some (fn_id f)) filtered_operands)) else Ok None)
      (fst res)).
  { intros mk mkn ts fuel h l Hmk Hmkn IH Hfuel Hall res. subst res.
    assert (IH' : Forall (fun o => match o with
                   | Some x => forall h a, Heap.holds h x a ->
                       refines (snd (Heap.filter_tree fuel g a h)) (filter_tree f x)
                         (fst (Heap.filter_tree fuel g a h))
                   | None => True
                   end) ts).
    { rewrite Forall_forall in IH |- *. intros [x|] Hin; [|done]. intros h0 a0.
      apply (IH _ Hin). pose proof (depth_operand x ts Hin). lia. }
    pose proof (filter_operands_refines f g _ ts (HeapFacts.filter_tree_grows fuel g) IH' l h Hall)
      as Href.
    destruct (Heap.filter_operands (Heap.filter_tree fuel g) l h) as [r1 h1] eqn:E1.
    destruct (HeapFacts.filter_operands_grows g _ (HeapFacts.filter_tree_grows fuel g) _ _ _ _ E1)
      as [Hg1 Hm1].
    simpl in Href.
    destruct (filter_operands (filter_tree f) ts) as [rs|e]; simpl in Href; cbn [bind].
    2:{ by rewrite Href. }
    destruct Href as (ls & -> & Hls).
    pose proof (hold_all_length _ _ _ Hls) as Hlen. rewrite length_map in Hlen.
    rewrite Hlen. destruct (0 <? length ls); [|done].
    destruct (Heap.build g (mk (map Some ls)) ls h1) as [a2 h2] eqn:Eb. simpl.
    destruct (HeapFacts.build_grows g _ ls h1 a2 h2 (Hmk ls) (Hm1 ls eq_refl) Eb) as [Hg2 _].
    destruct (build_object _ _ _ _ _ _ Eb) as (o2 & Ho2 & Hs2 & Hm2).
    exists a2. split; [done|]. apply Hmkn. exists o2. split; [done|].
    split; [congruence|]. exists (map Some ls). split; [done|].
    by apply hold_all_grows with g h1. }
  assert (Hunary : forall (mk : nat -> Heap.shape) (mkn : option nat -> node -> node) x fuel h b,
    (forall h m r a, Heap.holds h (mkn m r) a <->
       exists o, h !! a = Some o /\ Heap.filtered_by_function o = m
                 /\ exists b, Heap.obj_shape o = mk b /\ Heap.holds h r b) ->
    (forall a, Heap.operand_addrs (mk a) = [a]) ->
    (forall fuel h a, depth x < fuel -> Heap.holds h x a ->
       refines (snd (Heap.filter_tree fuel g a h)) (filter_tree f x)
         (fst (Heap.filter_tree fuel g a h))) ->
    depth x < fuel ->
    Heap.holds h x b ->
    let res :=
      match Heap.filter_tree fuel g b h with
      | (Err e, h) => (Err e, h)
      | (Ok (Some filtered_operand), h) =>
          let '(t, h) := Heap.build g (mk filtered_operand) [filtered_operand] h in
          (Ok (Some t), h)
      | (Ok None, h) => (Ok None, h)
      end in
    refines (snd res)
      (let! filtered_operand := filter_tree f x in
       match filtered_operand with
       | Some o => Ok (Some (mkn (Some (fn_id f)) o))
       | None => Ok None
       end)
      (fst res)).
  { intros mk mkn x fuel h b Hmkn Hmk IH Hfuel Hx res. subst res.
    specialize (IH fuel h b Hfuel Hx).
    destruct (Heap.filter_tree fuel g b h) as [r1 h1] eqn:E1. simpl in IH.
    destruct (HeapFacts.filter_tree_grows fuel g _ _ _ _ E1) as [Hg1 Hm1].
    destruct (filter_tree f x) as [[t'|]|e]; simpl in IH; cbn [bind]; try by rewrite IH.
    destruct IH as (a' & -> & Ha').
    destruct (Heap.build g (mk a') [a'] h1) as [a2 h2] eqn:Eb. simpl.
    destruct (HeapFacts.build_grows g _ [a'] h1 a2 h2 (Hmk a')
                ltac:(constructor; [by apply Hm1 | constructor]) Eb) as [Hg2 _].
    destruct (build_object _ _ _ _ _ _ Eb) as (o2 & Ho2 & Hs2 & Hm2).
    exists a2. split; [done|]. apply Hmkn. exists o2. split; [done|].
    split; [congruence|]. exists a'. split; [done|]. by apply holds_grows with g h1. }
  assert (Hleaf : forall (s : Heap.shape) (t' : node) h,
    (forall h a, (exists o, h !! a = Some o /\ Heap.filtered_by_function o = Some (fn_id f)
                            /\ Heap.obj_shape o = s) -> Heap.holds h t' a) ->
    let res := let '(t, h0) := Heap.build g s [] h in (Ok (Some t), h0) in
    refines (snd res) (Ok (Some t')) (fst res)).
  { intros s t' h Ht' res. subst res.
    destruct (Heap.build g s [] h) as [a2 h2] eqn:Eb. simpl.
    destruct (build_object _ _ _ _ _ _ Eb) as (o2 & Ho2 & Hs2 & Hm2).
    exists a2. split; [done|]. apply Ht'. exists o2. split; [done|]. split; [congruence|done]. }
  induction t as [m term wildcard phrase|m ts IH|m ts IH|m x IH|m field x IH|m]
    using node_induction; intros [|fuel] h a Hfuel Hholds; try lia;
    pose proof Hholds as Hh; cbn [Heap.holds] in Hh; destruct Hh as (o & Ho & Hm & Hs);
    cbn [Heap.filter_tree filter_tree]; rewrite Ho;
    unfold Heap.memo_is, memo_is; rewrite Hm, <- Hid;
    (destruct (bool_decide (_ = Some (fn_id f))); [simpl; by exists a|]);
    rewrite (Hcall _ _ _ Hholds);
    (destruct (fn_call f _); [done|]).
  - rewrite Hs. apply Hleaf. intros h0 a0 (o0 & ? & ? & ?). by exists o0.
  - destruct Hs as (l & -> & Hall). simpl in Hfuel.
    apply (Hboolean Heap.SAnd AndNode); [ | | exact IH | lia | exact Hall ].
    + intros l0. simpl. induction l0; simpl; [done | by f_equal].
    + intros h0 m0 rs a0. cbn [Heap.holds]. simpl. reflexivity.
  - destruct Hs as (l & -> & Hall). simpl in Hfuel.
    apply (Hboolean Heap.SOr OrNode); [ | | exact IH | lia | exact Hall ].
    + intros l0. simpl. induction l0; simpl; [done | by f_equal].
    + intros h0 m0 rs a0. cbn [Heap.holds]. simpl. reflexivity.
  - destruct Hs as (b & -> & Hx). simpl in Hfuel.
    apply (Hunary Heap.SNot NotNode); [ | done | exact IH | lia | exact Hx ].
    intros h0 m0 r a0. cbn [Heap.holds]. simpl. reflexivity.
  - destruct Hs as (b & -> & Hx). simpl in Hfuel.
    apply (Hunary (Heap.SField field) (fun m => FieldNode m field));
      [ | done | exact IH | lia | exact Hx ].
    intros h0 m0 r a0. cbn [Heap.holds]. simpl. reflexivity.
  - rewrite Hs. apply Hleaf. intros h0 a0 (o0 & ? & ? & ?). by exists o0.
Qed.

Lemma laid_out_refl u h : laid_out u h h.
Proof.
  split; [apply preserved_refl|]. split; [done|].
  intros _ b o Hb Ho. apply lookup_lt_Some in Ho. lia.
Qed.

Lemma laid_out_trans u1 u2 h1 h2 h3 :
  laid_out u1 h1 h2 -> laid_out u2 h2 h3 -> laid_out (u1 && u2) h1 h3.
Proof.
  intros (Hp1 & Hl1 & Hn1) (Hp2 & Hl2 & Hn2).
  split; [by eapply preserved_trans|]. split; [lia|].
  intros [-> ->]%andb_true_iff b o Hb Ho.
  destruct (decide (length h2 <= b)) as [|Hlt]; [by eapply Hn2|].
  destruct (lookup_lt_is_Some_2 h2 b ltac:(lia)) as [o2 Ho2].
  destruct (Hp2 _ _ Ho2) as (o3 & Ho3 & _ & Hm3).
  rewrite Ho in Ho3. injection Ho3 as <-. rewrite Hm3. by eapply Hn1.
Qed.

Lemma construct_laid_out s operands m h a h' :
  Heap.construct s operands m h = (a, h') ->
  laid_out (bool_decide (m = None)) h h'
  /\ exists o, h' !! a = Some o /\ Heap.obj_shape o = s /\ Heap.filtered_by_function o = m.
Proof.
  intros Hc. destruct (HeapFacts.construct_spec _ _ _ _ _ _ Hc) as (-> & Hlen & Hnew & Hold).
  split; [|done]. split; [|split; [lia|]].
  - intros b o Ho. destruct (Hold b o Ho) as (o' & ? & ? & ? & _). eauto.
  - intros Hm%bool_decide_eq_true b o Hb Ho.
    assert (b = length h) as -> by (apply lookup_lt_Some in Ho; lia).
    destruct Hnew as (o' & Ho' & _ & Hm'). congruence.
Qed.

Lemma store_operands_spec ts :
  Forall (fun o => match o with
                   | Some x => forall h a h', Heap.store x h = (a, h') ->
                       Heap.holds h' x a /\ laid_out (never_filtered x) h h'
                   | None => True
                   end) ts ->
  forall h l h', Heap.store_operands Heap.store ts h = (l, h') ->
    Heap.hold_all (Heap.holds h') ts l /\ laid_out (never_filtered_all ts) h h'.
Proof.
  induction 1 as [|o ts Ho _ IH]; intros h l h'; simpl.
  - intros [= <- <-]. split; [done | apply laid_out_refl].
  - destruct o as [x|].
    + destruct (Heap.store x h) as [a h1] eqn:E1.
      destruct (Heap.store_operands Heap.store ts h1) as [l2 h2] eqn:E2.
      intros [= <- <-]. destruct (Ho _ _ _ E1) as [Hx Hl1]. destruct (IH _ _ _ E2) as [Hts Hl2].
      split; [|by eapply laid_out_trans]. simpl. split; [|done].
      apply holds_preserved with h1; [|done]. by destruct Hl2.
    + destruct (Heap.store_operands Heap.store ts h) as [l2 h2] eqn:E2.
      intros [= <- <-]. destruct (IH _ _ _ E2) as [Hts Hl2]. by split.
Qed.

(** [store] lays the tree out at the address it returns *)
Lemma store_spec t : forall h a h',
  Heap.store t h = (a, h') -> Heap.holds h' t a /\ laid_out (never_filtered t) h h'.
Proof.
  induction t as [m term wildcard phrase|m ts IH|m ts IH|m x IH|m field x IH|m]
    using node_induction; intros h a h'; cbn [Heap.store Heap.holds never_filtered].
  - intros Hc. destruct (construct_laid_out _ _ _ _ _ _ Hc) as (Hl & o & Ho & Hs & Hm).
    split; [by exists o|done].
  - destruct (Heap.store_operands Heap.store ts h) as [l h1] eqn:E1.
    destruct (store_operands_spec ts IH _ _ _ E1) as [Hts Hl1].
    intros Hc. destruct (construct_laid_out _ _ _ _ _ _ Hc) as (Hl & o & Ho & Hs & Hm).
    split; [|rewrite andb_comm; by eapply laid_out_trans].
    exists o. split; [done|]. split; [done|]. exists l. split; [done|].
    apply hold_all_preserved with h1; [by destruct Hl | done].
  - destruct (Heap.store_operands Heap.store ts h) as [l h1] eqn:E1.
    destruct (store_operands_spec ts IH _ _ _ E1) as [Hts Hl1].
    intros Hc. destruct (construct_laid_out _ _ _ _ _ _ Hc) as (Hl & o & Ho & Hs & Hm).
    split; [|rewrite andb_comm; by eapply laid_out_trans].
    exists o. split; [done|]. split; [done|]. exists l. split; [done|].
    apply hold_all_preserved with h1; [by destruct Hl | done].
  - destruct (Heap.store x h) as [b h1] eqn:E1. destruct (IH _ _ _ E1) as [Hx Hl1].
    intros Hc. destruct (construct_laid_out _ _ _ _ _ _ Hc) as (Hl & o & Ho & Hs & Hm).
    split; [|rewrite andb_comm; by eapply laid_out_trans].
    exists o. split; [done|]. split; [done|]. exists b. split; [done|].
    apply holds_preserved with h1; [by destruct Hl | done].
  - destruct (Heap.store x h) as [b h1] eqn:E1. destruct (IH _ _ _ E1) as [Hx Hl1].
    intros Hc. destruct (construct_laid_out _ _ _ _ _ _ Hc) as (Hl & o & Ho & Hs & Hm).
    split; [|rewrite andb_comm; by eapply laid_out_trans].
    exists o. split; [done|]. split; [done|]. exists b. split; [done|].
    apply holds_preserved with h1; [by destruct Hl | done].
  - intros Hc. destruct (construct_laid_out _ _ _ _ _ _ Hc) as (Hl & o & Ho & Hs & Hm).
    split; [by exists o|done].
Qed.

(** the heap of a tree the parser built carries the memo of no filter *)
Lemma store_unfiltered g t a h :
  never_filtered t = true -> Heap.store t [] = (a, h) -> Heap.unfiltered_by g h.
Proof.
  intros Hnf Hs. destruct (store_spec t _ _ _ Hs) as (_ & _ & _ & Hnone).
  intros b (o & Ho & Hm). rewrite (Hnone Hnf b o) in Hm; [done | simpl; lia | done].
Qed.

Lemma trees_at_hold_all fuel h ts :
  Forall (fun o => match o with
                   | Some x => forall fuel a, depth x < fuel -> Heap.holds h x a ->
                                              Heap.tree_at fuel h a = Some x
                   | None => True
                   end) ts ->
  depth_all ts < fuel ->
  forall l, Heap.hold_all (Heap.holds h) ts l ->
            Heap.trees_at (Heap.tree_at fuel h) l = Some ts.
Proof.
  induction 1 as [|o ts Ho _ IH]; intros Hfuel [|b l]; simpl; try done.
  - by destruct o.
  - simpl in Hfuel. destruct o as [x|], b as [b|]; try done.
    + intros [Hx Hts]. rewrite (Ho fuel b) by (done || lia). simpl.
      rewrite IH by (done || lia). done.
    + intros Hts. rewrite IH by (done || lia). done.
Qed.

(** the tree the heap holds at an address is the tree read back there *)
Lemma tree_at_holds h t : forall fuel a,
  depth t < fuel -> Heap.holds h t a -> Heap.tree_at fuel h a = Some t.
Proof.
  induction t as [m term wildcard phrase|m ts IH|m ts IH|m x IH|m field x IH|m]
    using node_induction; intros [|fuel] a Hfuel; try lia; cbn [Heap.holds Heap.tree_at];
    intros (o & Ho & Hm & Hs); rewrite Ho; simpl; simpl in Hm; rewrite Hm.
  - by rewrite Hs.
  - destruct Hs as (l & -> & Hall). simpl in Hfuel.
    rewrite (trees_at_hold_all fuel h ts IH) by (done || unfold depth_all; lia). done.
  - destruct Hs as (l & -> & Hall). simpl in Hfuel.
    rewrite (trees_at_hold_all fuel h ts IH) by (done || unfold depth_all; lia). done.
  - destruct Hs as (b & -> & Hx). simpl in Hfuel. rewrite (IH fuel b) by (done || lia). done.
  - destruct Hs as (b & -> & Hx). simpl in Hfuel. rewrite (IH fuel b) by (done || lia). done.
  - by rewrite Hs.
Qed.

Lemma filter_operands_depth f ts :
  Forall (fun o => match o with
                   | Some x => forall t', filter_tree f x = Ok (Some t') -> depth t' <= depth x
                   | None => True
                   end) ts ->
  forall rs, filter_operands (filter_tree f) ts = Ok rs -> depth_all rs <= depth_all ts.
Proof.
  induction 1 as [|o ts Ho _ IH]; simpl; intros rs.
  - by intros [= <-].
  - destruct o as [x|]; [|done].
    destruct (filter_tree f x) as [r|e] eqn:Ex; cbn [bind]; [|done].
    destruct (filter_operands (filter_tree f) ts) as [rs'|e]; cbn [bind]; [|done].
    specialize (IH rs' eq_refl).
    destruct r as [t'|]; intros [= <-]; simpl; [|lia].
    specialize (Ho t' eq_refl). lia.
Qed.

(** filtering does not make a tree higher *)
Lemma filter_tree_depth f t : forall t',
  filter_tree f t = Ok (Some t') -> depth t' <= depth t.
Proof.
  induction t as [m term wildcard phrase|m ts IH|m ts IH|m x IH|m field x IH|m]
    using node_induction; intros t'; cbn [filter_tree];
    (destruct (memo_is _ f); [by intros [= <-]|]);
    (destruct (fn_call f _); [done|]).
  - by intros [= <-].
  - destruct (filter_operands _ ts) as [rs|e] eqn:E; cbn [bind]; [|done].
    destruct (0 <? length rs); intros [= <-]. simpl.
    pose proof (filter_operands_depth f ts IH rs E). unfold depth_all in *. lia.
  - destruct (filter_operands _ ts) as [rs|e] eqn:E; cbn [bind]; [|done].
    destruct (0 <? length rs); intros [= <-]. simpl.
    pose proof (filter_operands_depth f ts IH rs E). unfold depth_all in *. lia.
  - destruct (filter_tree f x) as [[r|]|e] eqn:E; cbn [bind]; try done.
    intros [= <-]. simpl. specialize (IH r eq_refl). lia.
  - destruct (filter_tree f x) as [[r|]|e] eqn:E; cbn [bind]; try done.
    intros [= <-]. simpl. specialize (IH r eq_refl). lia.
  - by intros [= <-].
Qed.

(** the filter functions of the class, on the heap and on trees *)
Lemma agree_field_or_noop : agree node_is_field_or_noop Heap.node_is_field_or_noop.
Proof.
  split; [done|]. intros h t a. destruct t; cbn [Heap.holds];
    intros (o & Ho & _ & Hs); simpl; rewrite Ho; simpl;
    repeat (destruct Hs as (? & Hs)); by rewrite ?Hs, ?H.
Qed.

Lemma agree_field_or_noop_or_not :
  agree node_is_field_or_noop_or_not Heap.node_is_field_or_noop_or_not.
Proof.
  split; [done|]. intros h t a. destruct t; cbn [Heap.holds];
    intros (o & Ho & _ & Hs); simpl; rewrite Ho; simpl;
    repeat (destruct Hs as (? & Hs)); by rewrite ?Hs, ?H.
Qed.

(** [tsquery] and [re] on the heap return what [tsquery] and [re] return
    on the tree the heap holds *)
Lemma emit_refines f g get fuel h t a :
  agree f g -> depth t < fuel -> Heap.holds h t a ->
  fst (Heap.emit fuel g get a h)
  = (let! filtered_tree := filter_tree f t in
     match filtered_tree with
     | None => Err (ParseSyntaxError EmptyQuery)
     | Some t' => get t'
     end).
Proof.
  intros Hag Hfuel Hh. unfold Heap.emit.
  pose proof (filter_tree_refines f g Hag t fuel h a Hfuel Hh) as Href.
  destruct (Heap.filter_tree fuel g a h) as [r h1]. simpl in Href.
  destruct (filter_tree f t) as [[t'|]|e] eqn:Et; simpl in Href; cbn [bind].
  - destruct Href as (a' & -> & Ha'). simpl.
    rewrite (tree_at_holds h1 t' fuel a'); [done | | done].
    pose proof (filter_tree_depth f t t' Et). lia.
  - by rewrite Href.
  - by rewrite Href.
Qed.

Lemma tsquery_refines fuel h t a :
  depth t < fuel -> Heap.holds h t a -> fst (Heap.tsquery fuel a h) = tsquery t.
Proof. apply emit_refines. apply agree_field_or_noop. Qed.

Lemma re_refines fuel h t a :
  depth t < fuel -> Heap.holds h t a -> fst (Heap.re fuel a h) = re t.
Proof. apply emit_refines. apply agree_field_or_noop_or_not. Qed.


(** The heap of a parsed tree: the tree is in it, no object of it carries
    the memo of a filter, and with more fuel than the tree is high the
    filter on it does what the filter does on the tree. *)
Lemma parsed_tree_on_heap solr_query t a h f g :
  parse solr_query = Ok (Some t) -> Heap.store t [] = (a, h) -> agree f g ->
  Heap.holds h t a /\ Heap.unfiltered_by g h
  /\ refines (snd (Heap.filter_tree (S (depth t)) g a h)) (filter_tree f t)
       (fst (Heap.filter_tree (S (depth t)) g a h)).
Proof.
  intros Hparse Hstore Hagree.
  destruct (parse_well_built _ _ Hparse) as [_ Hnf].
  destruct (store_spec t _ _ _ Hstore) as [Hholds _].
  split; [done|]. split; [by eapply store_unfiltered|].
  apply filter_tree_refines; [done | lia | done].
Qed.

(** * The claims of the specification *)

(** C1, as stated, fails: the tsquery of the first query is not
    [( foo & bar )] and that of the second is not [bar]. *)
Lemma tsquery_single_operand_counterexample :
  ~ (call tsquery (parse "sentence:( foo and bar ) and media_id:1") = Ok "( foo & bar )"
     /\ call tsquery (parse "foo:[1 TO 10] and bar") = Ok "bar").
Proof. intros [H _]. vm_compute in H. discriminate H. Qed.

Lemma filter_operands_dropped f operands :
  Forall (dropped_by f) operands -> filter_operands (filter_tree f) operands = Ok [].
Proof.
  induction 1 as [|o operands (n & -> & Hn) _ IH]; [done|].
  cbn [filter_operands]. by rewrite Hn, IH.
Qed.

(** the operands the filter drops around the one it keeps leave that one *)
Lemma filter_operands_single f before x x' after :
  Forall (dropped_by f) before -> Forall (dropped_by f) after ->
  filter_tree f x = Ok (Some x') ->
  filter_operands (filter_tree f) (before ++ Some x :: after) = Ok [Some x'].
Proof.
  intros Hb Ha Hx. induction Hb as [|o before (n & -> & Hn) _ IH]; cbn [app filter_operands].
  - by rewrite Hx, (filter_operands_dropped f after Ha).
  - by rewrite Hn, IH.
Qed.

(** C1, amended.  Single-operand And in tsquery emission: the tsquery of
    [sentence:( foo and bar ) and media_id:1] is [( ( foo & bar ) )] and
    that of [foo:[1 TO 10] and bar] is [( bar )].  When filtering leaves an
    And node one operand, the filter keeps the node, and the node emits its
    operand between one more pair of parentheses: for every filter
    function and every And node all of whose operands but one are dropped,
    wherever the node stands, [filter_tree] returns an And node over what
    it returns for that operand; and [tsquery] of such a node is [tsquery]
    of the operand between [( ] and [ )].  So an Or node keeps the
    parentheses of its And operand: the tsquery of
    [x or ( foo:[1 TO 2] and bar )] is [( x | ( bar ) )]. *)
Theorem tsquery_keeps_single_operand_And :
  call tsquery (parse "sentence:( foo and bar ) and media_id:1") = Ok "( ( foo & bar ) )"
  /\ call tsquery (parse "foo:[1 TO 10] and bar") = Ok "( bar )"
  /\ call tsquery (parse "x or ( foo:[1 TO 2] and bar )") = Ok "( x | ( bar ) )"
  /\ call (filter_tree node_is_field_or_noop) (parse "foo:[1 TO 10] and bar")
     = Ok (Some (AndNode (Some 0) [Some (TermNode (Some 0) "bar" false false)]))
  /\ (forall f m before x x' after,
        memo_is m f = false ->
        fn_call f (AndNode m (before ++ Some x :: after)) = false ->
        Forall (dropped_by f) before -> Forall (dropped_by f) after ->
        filter_tree f x = Ok (Some x') ->
        filter_tree f (AndNode m (before ++ Some x :: after))
        = Ok (Some (AndNode (Some (fn_id f)) [Some x'])))
  /\ (forall before x after s,
        Forall (dropped_by node_is_field_or_noop) before ->
        Forall (dropped_by node_is_field_or_noop) after ->
        tsquery x = Ok s ->
        tsquery (AndNode None (before ++ Some x :: after)) = Ok ("( " +:+ s +:+ " )"))
  /\ forall m x, get_tsquery (AndNode m [Some x])
                 = (let! s := get_tsquery x in Ok ("( " +:+ s +:+ " )")).
Proof.
  do 4 (split; [vm_compute; reflexivity|]).
  assert (Hfilter : forall f m before x x' after,
    memo_is m f = false ->
    fn_call f (AndNode m (before ++ Some x :: after)) = false ->
    Forall (dropped_by f) before -> Forall (dropped_by f) after ->
    filter_tree f x = Ok (Some x') ->
    filter_tree f (AndNode m (before ++ Some x :: after))
    = Ok (Some (AndNode (Some (fn_id f)) [Some x']))).
  { intros f m before x x' after Hm Hf Hb Ha Hx.
    cbn [filter_tree filtered_by]. rewrite Hm, Hf.
    by rewrite (filter_operands_single f before x x' after Hb Ha Hx). }
  assert (Hemit : forall m x, get_tsquery (AndNode m [Some x])
                              = (let! s := get_tsquery x in Ok ("( " +:+ s +:+ " )"))).
  { intros m x. cbn [get_tsquery emit_operands]. destruct (get_tsquery x); reflexivity. }
  split; [exact Hfilter|]. split; [|exact Hemit].
  intros before x after s Hb Ha Hx. unfold tsquery in *.
  destruct (filter_tree node_is_field_or_noop x) as [[x'|]|] eqn:Ex; cbn [bind] in Hx;
    try discriminate Hx.
  rewrite (Hfilter node_is_field_or_noop None before x x' after eq_refl eq_refl Hb Ha Ex).
  cbn [bind]. by rewrite Hemit, Hx.
Qed.

(** C2 fails on the code: for the empty query, and for an empty group,
    [parse] returns [None] and raises nothing; and an empty group before an
    operator ends in an [AttributeError], which is no syntax error. *)
Theorem parse_empty_query_returns_None :
  parse "" = Ok None
  /\ is_syntax_error (parse "") = false
  /\ parse "()" = Ok None
  /\ parse "() and foo" = Err AttributeError.
Proof. repeat split; vm_compute; reflexivity. Qed.

(** C3.  And/Or flattening: in the tree [parse] returns, no And node has
    an And node among its operands and no Or node has an Or node among
    its operands. *)
Theorem parse_flattens_And_Or solr_query t :
  parse solr_query = Ok (Some t) -> flattened t = true.
Proof. intros H. by destruct (parse_well_built _ _ H). Qed.

Lemma parse_flattens_And_Or_witness :
  flattened (OrNode None
      [Some (AndNode None [Some (TermNode None "a" false false);
                           Some (TermNode None "b" false false);
                           Some (TermNode None "c" false false)]);
       Some (TermNode None "d" false false);
       Some (TermNode None "e" false false)]) = true.
Proof.
  apply (parse_flattens_And_Or "a and (b and c) or (d or e)"). vm_compute. reflexivity.
Defined.

(** C5.  Implicit OR: two terms side by side parse to the tree the same
    terms around an explicit [or] parse to, an Or node over the two terms;
    and the tsquery of [foo bar] is [( foo | bar )].  A term is a name the
    lexer classifies as TERM: a word that does not start with a digit (the
    tokenizer reads a word that does as a number and a name) and that is
    none of [and], [or] and [not].  On the tokens of two terms, whatever
    their texts, the parser builds the same Or node with and without the
    token of [or] between them. *)
Theorem implicit_or a b :
  is_term_name a = true -> is_term_name b = true ->
  parse (a +:+ " " +:+ b) = parse (a +:+ " or " +:+ b)
  /\ parse (a +:+ " " +:+ b)
     = Ok (Some (OrNode None [Some (term_clause (lower a)); Some (term_clause (lower b))]))
  /\ (forall x y,
       parse_tokens_top [tok "(" T_OPEN; tok x T_TERM; tok y T_TERM; tok ")" T_CLOSE]
       = parse_tokens_top [tok "(" T_OPEN; tok x T_TERM; tok "or" T_OR; tok y T_TERM;
                           tok ")" T_CLOSE])
  /\ call tsquery (parse "foo bar") = Ok "( foo | bar )".
Proof.
  intros Ha Hb. term_names.
  assert (Htok1 : get_tokens ("( " +:+ (a +:+ " " +:+ b) +:+ " )")
    = Ok [tok "(" T_OPEN; tok (lower a) T_TERM; tok (lower b) T_TERM; tok ")" T_CLOSE])
    by lex_with [Sym "("; Blank; Word (lower a); Blank; Word (lower b); Blank; Sym ")"].
  assert (Htok2 : get_tokens ("( " +:+ (a +:+ " or " +:+ b) +:+ " )")
    = Ok [tok "(" T_OPEN; tok (lower a) T_TERM; tok "or" T_OR; tok (lower b) T_TERM;
          tok ")" T_CLOSE])
    by lex_with [Sym "("; Blank; Word (lower a); Blank; Word "or"; Blank; Word (lower b); Blank;
                 Sym ")"].
  unfold parse, decode_string_from_bytes_if_needed. rewrite Htok1, Htok2. cbn [bind].
  destruct (parse_two_terms (lower a) (lower b)) as [-> ->].
  do 2 (split; [reflexivity|]). split; [|vm_compute; reflexivity].
  intros x y. by destruct (parse_two_terms x y) as [-> ->].
Qed.

Lemma implicit_or_witness :
  parse "Foo bar" = parse "Foo or bar"
  /\ parse "Foo bar" = Ok (Some (OrNode None [Some (TermNode None "foo" false false);
                                               Some (TermNode None "bar" false false)])).
Proof.
  split; [|vm_compute; reflexivity].
  apply (implicit_or "Foo" "bar"); vm_compute; reflexivity.
Defined.

(** C6, as stated, fails: a Term node with [phrase=true] need not hold a
    quoted phrase.  The lexer calls PHRASE every token that starts with a
    quote, and the tokenizer gives a quote that is never closed as a token
    of its own; [parse] of [don't] stores it in a phrase node, on which
    [get_tsquery] raises the [ValueError] of [shlex.split], which is no
    emission and no syntax error. *)
Lemma phrase_tsquery_counterexample :
  parse "don't"
  = Ok (Some (OrNode None [Some (TermNode None "don" false false);
                           Some (TermNode None "'" false true);
                           Some (TermNode None "t" false false)]))
  /\ get_tsquery (TermNode None "'" false true) = Err ValueError
  /\ is_syntax_error (get_tsquery (TermNode None "'" false true)) = false
  /\ call tsquery (parse "don't") = Err ValueError.
Proof. repeat split; vm_compute; reflexivity. Qed.

(** C6, amended.  Phrase emission in tsquery: for every Term node with
    [phrase=true] whose text [shlex.split] accepts, [get_tsquery] takes the
    first word [shlex.split] returns as the inner text, splits it on the
    runs of non-word characters, drops the empty fragments, and emits the
    And node over the words that remain; it raises a syntax error when
    none remains.  For a quoted literal (the body between two quote
    characters, without that quote and, within double quotes, without
    backslash) the inner text is the body.  Where [shlex.split] raises,
    [get_tsquery] raises the same.  The tsquery of ["hello world"] is
    [( hello & world )]. *)
Theorem phrase_tsquery m q body wildcard :
  is_quote q = true ->
  has_char q body = false ->
  (is_dquote q = true -> has_char "\"%char body = false) ->
  shlex_split_first (quoted q body) = Ok body
  /\ get_tsquery (TermNode m (quoted q body) wildcard true)
     = match filter (fun fragment => nonempty fragment = true) (re_split_W body) with
       | [] => Err (ParseSyntaxError EmptyPhrase)
       | words => get_tsquery (AndNode None (map (fun t => Some (TermNode None t false false)) words))
       end
  /\ (forall term inner,
        shlex_split_first term = Ok inner ->
        get_tsquery (TermNode m term wildcard true)
        = match filter (fun fragment => nonempty fragment = true) (re_split_W inner) with
          | [] => Err (ParseSyntaxError EmptyPhrase)
          | words =>
              get_tsquery (AndNode None (map (fun t => Some (TermNode None t false false)) words))
          end)
  /\ (forall term e,
        shlex_split_first term = Err e -> get_tsquery (TermNode m term wildcard true) = Err e)
  /\ call tsquery (parse (quoted dquote "hello world")) = Ok "( hello & world )"
  /\ call tsquery (parse (quoted dquote " , ")) = Err (ParseSyntaxError EmptyPhrase).
Proof.
  intros Hquote Hq Hb.
  assert (Hinner : forall term inner,
    shlex_split_first term = Ok inner ->
    get_tsquery (TermNode m term wildcard true)
    = match filter (fun fragment => nonempty fragment = true) (re_split_W inner) with
      | [] => Err (ParseSyntaxError EmptyPhrase)
      | words =>
          get_tsquery (AndNode None (map (fun t => Some (TermNode None t false false)) words))
      end).
  { intros term inner Hs. cbn [get_tsquery]. rewrite Hs. cbn [bind]. unfold phrase_words.
    destruct (filter _ (re_split_W inner)) as [|w words] eqn:Ew; [done|].
    by rewrite emit_plain_terms. }
  assert (Hs := shlex_split_first_quoted q body Hquote Hq Hb).
  split; [exact Hs|]. split; [by apply Hinner|]. split; [exact Hinner|].
  split; [|split; vm_compute; reflexivity].
  intros term e He. cbn [get_tsquery]. by rewrite He.
Qed.

Lemma phrase_tsquery_witness :
  get_tsquery (TermNode None (quoted dquote "hello, big world") false true)
  = Ok "( hello & big & world )".
Proof.
  destruct (phrase_tsquery None dquote "hello, big world" false) as (_ & H & _);
    [reflexivity | reflexivity | intros _; reflexivity | ].
  rewrite H. reflexivity.
Defined.

(** C7.  Commutative regex adjacency: the regex of [foo and bar] is the
    alternation of [[[:<:]]foo .* [[:<:]]bar] and [[[:<:]]bar .*
    [[:<:]]foo]; an And node of two operands that emit [A] and [B] emits
    [(?: (?: A .* B ) | (?: B .* A ) )]. *)
Theorem and_re_both_orders :
  call re (parse "foo and bar")
    = Ok "(?: (?: [[:<:]]foo .* [[:<:]]bar ) | (?: [[:<:]]bar .* [[:<:]]foo ) )"
  /\ contains "[[:<:]]foo .* [[:<:]]bar"
       "(?: (?: [[:<:]]foo .* [[:<:]]bar ) | (?: [[:<:]]bar .* [[:<:]]foo ) )" = true
  /\ contains "[[:<:]]bar .* [[:<:]]foo"
       "(?: (?: [[:<:]]foo .* [[:<:]]bar ) | (?: [[:<:]]bar .* [[:<:]]foo ) )" = true
  /\ forall m a b,
       get_re (AndNode m [Some a; Some b])
       = (let! A := get_re a in
          let! B := get_re b in
          Ok ("(?: (?: " +:+ A +:+ " .* " +:+ B +:+ " ) | (?: " +:+ B +:+ " .* " +:+ A +:+ " ) )")).
Proof.
  do 3 (split; [vm_compute; reflexivity|]).
  intros m a b. cbn [get_re]. destruct (get_re a); [|reflexivity].
  destruct (get_re b); reflexivity.
Qed.

(** C8.  The regex backend rejects negation: in the tree the regex filter
    leaves of a parsed tree there is no Not node; [re] of a parsed tree
    that holds nothing but negated content fails with the syntax error of
    the empty query; so does [parse("!foo").re()]. *)
Theorem re_rejects_negation solr_query t :
  parse solr_query = Ok (Some t) ->
  (forall t', filter_tree node_is_field_or_noop_or_not t = Ok (Some t') ->
              without_not t' = true)
  /\ (only_negated t = true -> re t = Err (ParseSyntaxError EmptyQuery))
  /\ call re (parse "!foo") = Err (ParseSyntaxError EmptyQuery).
Proof.
  intros H. destruct (parse_well_built _ _ H) as [_ Hnf].
  split; [by apply filter_tree_without_not|]. split; [|vm_compute; reflexivity].
  intros Hneg. unfold re. by rewrite (filter_tree_only_negated t Hnf Hneg).
Qed.

Lemma re_rejects_negation_witness :
  re (AndNode None [Some (NotNode None (TermNode None "foo" false false));
                    Some (NotNode None (TermNode None "bar" false false))])
  = Err (ParseSyntaxError EmptyQuery).
Proof.
  destruct (re_rejects_negation "!foo !bar"
              (AndNode None [Some (NotNode None (TermNode None "foo" false false));
                             Some (NotNode None (TermNode None "bar" false false))]))
    as (_ & H & _); [vm_compute; reflexivity|].
  apply H. reflexivity.
Defined.

(** C10, as stated, fails: [parse] of [foo )] returns no tree.  The
    tokenizer yields the four tokens and raises [TokenError] at the end of
    the input, where it has counted one closing bracket more than opening
    ones. *)
Lemma stray_close_counterexample :
  ~ (parse "foo )" = parse "foo"
     /\ parse "foo )" = Ok (Some (TermNode None "foo" false false))).
Proof. intros [H _]. vm_compute in H. discriminate H. Qed.

(** C10, amended.  An unmatched closing parenthesis is accepted by the
    parser and rejected by the tokenizer before it: on the tokens of
    [( a ) )] (the query [a )] between the parentheses that [parse] adds)
    [__parse_tokens] raises nothing and returns what it returns on the
    tokens of [( a )], the Term node of [a], the stray CLOSE token ending
    the outer group early; but [parse] of [a )] raises the [TokenError] of
    the tokenizer, which is no syntax error, and returns no tree. *)
Theorem stray_close_rejected_by_tokenizer a :
  is_term_name a = true ->
  parse (a +:+ " )") = Err TokenError
  /\ is_syntax_error (parse (a +:+ " )")) = false
  /\ get_tokens ("( " +:+ a +:+ " )") = Ok [tok "(" T_OPEN; tok (lower a) T_TERM; tok ")" T_CLOSE]
  /\ (forall x,
       parse_tokens_top [tok "(" T_OPEN; tok x T_TERM; tok ")" T_CLOSE; tok ")" T_CLOSE]
       = parse_tokens_top [tok "(" T_OPEN; tok x T_TERM; tok ")" T_CLOSE]
       /\ parse_tokens_top [tok "(" T_OPEN; tok x T_TERM; tok ")" T_CLOSE; tok ")" T_CLOSE]
          = Ok (Some (term_clause x))).
Proof.
  intros Ha. term_names.
  assert (Hraise : parse (a +:+ " )") = Err TokenError).
  { unfold parse, decode_string_from_bytes_if_needed.
    rewrite (get_tokens_unbalanced _
               [Sym "("; Blank; Word (lower a); Blank; Sym ")"; Blank; Sym ")"]).
    - cbn [texts classify]. by repeat match goal with H : _ = _ |- _ => rewrite H end.
    - rewrite normalize_plain; rewrite !lower_app; lower_literals;
        [ by rewrite !append_assoc
        | rewrite !plain_app; by repeat match goal with H : plain _ = _ |- _ => rewrite H end ].
    - reflexivity.
    - cbn [lexemes_fit]. by repeat match goal with H : is_name _ = _ |- _ => rewrite H end.
    - by vm_compute. }
  split; [done|]. split; [by rewrite Hraise|]. split.
  - by lex_with [Sym "("; Blank; Word (lower a); Blank; Sym ")"].
  - intros x. split; vm_compute; reflexivity.
Qed.

Lemma stray_close_rejected_by_tokenizer_witness :
  parse "foo )" = Err TokenError
  /\ get_tokens "( foo )" = Ok [tok "(" T_OPEN; tok "foo" T_TERM; tok ")" T_CLOSE].
Proof.
  destruct (stray_close_rejected_by_tokenizer "foo") as (H1 & _ & H2 & _); [reflexivity|].
  split; [exact H1|exact H2].
Defined.

(** * Further properties *)

(** ** Invariants of the parser *)

Section parser_invariant.
Variable ok_token : Token -> Prop.
Variable Inv : option node -> Prop.
Hypothesis Inv_None : Inv None.
Hypothesis Inv_Noop : forall token,
  ok_token token -> token_type token = T_NOOP -> Inv (Some (NoopNode None)).
Hypothesis Inv_Term : forall token,
  ok_token token -> token_type token = T_TERM -> Inv (Some (term_clause (token_value token))).
Hypothesis Inv_Phrase : forall token,
  ok_token token -> token_type token = T_PHRASE ->
  Inv (Some (TermNode None (token_value token) false true)).
Hypothesis Inv_Boolean : forall clause t n,
  Inv clause ->
  (if bool_decide (boolean_type_of clause = Some t)
   then BooleanNode_init t (operands_of clause)
   else BooleanNode_init t [clause]) = Ok n ->
  Inv (Some n).
Hypothesis Inv_append : forall boolean_clause clause,
  Inv boolean_clause -> Inv clause -> Inv (append_operand boolean_clause clause).
Hypothesis Inv_Not : forall operand n, Inv operand -> NotNode_init operand = Ok n -> Inv (Some n).
Hypothesis Inv_Field : forall token operand n,
  ok_token token -> token_type token = T_FIELD -> Inv operand ->
  FieldNode_init (replace FIELD_PLACEHOLDER "" (token_value token)) operand = Ok n ->
  Inv (Some n).

Ltac inv_call IH fuel :=
  match goal with
  | |- context [parse_tokens fuel ?t ?w ?c ?b ?h] =>
      let H := fresh "Hrec" in
      assert (H : Forall ok_token t /\ Inv c /\ Inv b)
        by (split; [ first [ assumption | by repeat constructor ]
                   | split; first [ exact Inv_None | assumption
                                  | apply Inv_append;
                                    first [ assumption | exact Inv_None
                                          | eapply Inv_Noop; eassumption
                                          | eapply Inv_Term; eassumption
                                          | eapply Inv_Phrase; eassumption ] ] ]);
      destruct H as (H & ? & ?);
      apply (IH t w c b h) in H; [ | assumption | assumption ];
      destruct (parse_tokens fuel t w c b h) as [[? ?]|?];
      cbn [bind];
      [ destruct H | exact I ]
  | |- context [check_type ?t ?w] => destruct (check_type t w); cbn [bind]; [ | exact I ]
  | |- context [NotNode_init ?o] =>
      let H := fresh "Hinit" in
      assert (H := Inv_Not o);
      destruct (NotNode_init o); cbn [bind]; [ | exact I ];
      specialize (H _ ltac:(assumption) eq_refl)
  | |- context [FieldNode_init ?f ?o] =>
      let H := fresh "Hinit" in
      destruct (FieldNode_init f o) eqn:H; cbn [bind]; [ | exact I ];
      eapply Inv_Field in H; [ | eassumption | eassumption | assumption ]
  | Hc : Inv ?c
    |- context [if bool_decide (boolean_type_of ?c = Some ?t) then _ else _] =>
      let H := fresh "Hinit" in
      assert (H := Inv_Boolean c t);
      destruct (if bool_decide (boolean_type_of c = Some t)
                then BooleanNode_init t (operands_of c)
                else BooleanNode_init t [c]); cbn [bind]; [ | exact I ];
      specialize (H _ Hc eq_refl)
  | |- context [match ?l with [] => Err IndexError | _ :: _ => _ end] =>
      destruct l; [ exact I | ]
  | H : Forall ok_token (_ :: _) |- _ => apply Forall_cons in H as [? ?]
  | |- context [if bool_decide ?P then _ else _] => destruct (bool_decide P)
  end.

Lemma parse_tokens_invariant fuel : forall tokens want clause bc hanging,
  Forall ok_token tokens -> Inv clause -> Inv bc ->
  match parse_tokens fuel tokens want clause bc hanging with
  | Ok (c, rest) => Inv c /\ Forall ok_token rest
  | Err _ => True
  end.
Proof.
  induction fuel as [|fuel IH]; intros tokens want clause bc hanging Htok Hclause Hbc; [exact I|].
  cbn [parse_tokens]. unfold parse_iteration.
  destruct tokens as [|token tokens]; [by split|].
  apply Forall_cons in Htok as [Htoken Htok].
  destruct (bool_decide (token_type token = T_PLUS) && _).
  { by apply IH. }
  destruct hanging;
    [ | destruct (_ && kind_in _ [T_OPEN; T_PHRASE; T_TERM; T_NOOP; T_FIELD]);
        [ | destruct (_ && kind_in _ [T_NOT]) ] ];
    cbn [token_type].
  - inv_call IH fuel. destruct (token_type token) eqn:Hty; repeat inv_call IH fuel; try done.
  - repeat inv_call IH fuel; try done.
  - repeat inv_call IH fuel; try done.
  - inv_call IH fuel. destruct (token_type token) eqn:Hty; repeat inv_call IH fuel; try done.
Qed.
End parser_invariant.


Lemma boolean_type_of_Some clause t :
  boolean_type_of clause = Some t ->
  exists m, clause = Some (mk_boolean t m (operands_of clause)).
Proof. destruct clause as [[]|]; simpl; intros [= <-]; eauto. Qed.

Lemma has_first_operand_boolean t m ops :
  has_first_operand (mk_boolean t m ops)
  = match ops with Some _ :: _ => true | _ => false end
    && forallb (fun o => match o with Some x => has_first_operand x | None => true end) ops.
Proof. by destruct t. Qed.

Lemma has_first_operand_app t m ops more :
  has_first_operand (mk_boolean t m ops) = true ->
  forallb (fun o => match o with Some x => has_first_operand x | None => true end) more = true ->
  has_first_operand (mk_boolean t m (ops ++ more)) = true.
Proof.
  rewrite !has_first_operand_boolean. intros [Hfirst Hall]%andb_true_iff Hmore.
  rewrite forallb_app, Hall, Hmore.
  by destruct ops as [|[x|] ops].
Qed.

Lemma has_first_operand_append boolean_clause clause :
  opt_holds has_first_operand boolean_clause -> opt_holds has_first_operand clause ->
  opt_holds has_first_operand (append_operand boolean_clause clause).
Proof.
  intros Hb Hc. unfold append_operand.
  assert (Hops : forall t, boolean_type_of clause = Some t ->
            forallb (fun o => match o with Some x => has_first_operand x | None => true end)
              (operands_of clause) = true).
  { intros t Ht. destruct (boolean_type_of_Some _ _ Ht) as [m' Hm']. rewrite Hm' in Hc.
    cbn [opt_holds] in Hc. rewrite has_first_operand_boolean in Hc.
    by apply andb_true_iff in Hc as [_ Hc]. }
  assert (Hone : forallb (fun o => match o with Some x => has_first_operand x | None => true end)
                   [clause] = true).
  { destruct clause; cbn [forallb opt_holds] in *; by rewrite ?Hc. }
  destruct boolean_clause as [[m t w p|m ops|m ops|m o|m f o|m]|]; try assumption.
  - case_bool_decide as Ht; cbn [opt_holds];
      apply (has_first_operand_app AndType); eauto.
  - case_bool_decide as Ht; cbn [opt_holds];
      apply (has_first_operand_app OrType); eauto.
Qed.

Lemma has_first_operand_Boolean clause t n :
  opt_holds has_first_operand clause ->
  (if bool_decide (boolean_type_of clause = Some t)
   then BooleanNode_init t (operands_of clause)
   else BooleanNode_init t [clause]) = Ok n ->
  opt_holds has_first_operand (Some n).
Proof.
  intros Hc. unfold BooleanNode_init. case_bool_decide as Ht.
  - destruct (forallb _ _); [|discriminate]. intros [= <-].
    destruct (boolean_type_of_Some _ _ Ht) as [m' Hm']. rewrite Hm' in Hc.
    cbn [opt_holds] in *. by rewrite has_first_operand_boolean in *.
  - destruct clause as [x|]; cbn [forallb andb]; [|discriminate]. intros [= <-].
    cbn [opt_holds] in *. rewrite has_first_operand_boolean. cbn [forallb]. by rewrite Hc.
Qed.

Lemma parse_tokens_has_first_operand fuel tokens want c rest :
  parse_tokens fuel tokens want None None false = Ok (c, rest) ->
  opt_holds has_first_operand c.
Proof.
  intros H.
  assert (Hinv := parse_tokens_invariant (fun _ => True) (opt_holds has_first_operand)).
  specialize (Hinv I (fun _ _ _ => eq_refl) (fun _ _ _ => eq_refl) (fun _ _ _ => eq_refl)
                has_first_operand_Boolean has_first_operand_append).
  refine (_ (Hinv _ _ fuel tokens want None None false _ I I)).
  - rewrite H. by intros [? _].
  - intros operand n Ho. destruct operand; [|discriminate]. by intros [= <-].
  - intros token operand n _ _ Ho. destruct operand; [|discriminate]. by intros [= <-].
  - by apply Forall_forall.
Qed.

(** X11.  Every And and Or node of a parsed tree has a first operand,
    which is a node. *)
Theorem parse_boolean_nodes_have_operands solr_query t :
  parse solr_query = Ok (Some t) -> has_first_operand t = true.
Proof.
  unfold parse, parse_tokens_top.
  destruct (get_tokens _) as [tokens|e]; cbn [bind]; [|discriminate].
  destruct (parse_tokens _ _ _ _ _ _) as [[c rest]|e] eqn:Hp; cbn [bind]; [|discriminate].
  intros [= ->]. by apply parse_tokens_has_first_operand in Hp.
Qed.

Lemma parse_boolean_nodes_have_operands_witness :
  has_first_operand (OrNode None [Some (AndNode None [Term "a"; Term "b"]); Term "c"]) = true.
Proof. apply (parse_boolean_nodes_have_operands "a and b or c"). vm_compute. reflexivity. Defined.


Lemma without_field_or_noop_boolean t m ops :
  without_field_or_noop (mk_boolean t m ops)
  = forallb (fun o => match o with Some x => without_field_or_noop x | None => true end) ops.
Proof. by destruct t. Qed.

Lemma without_field_or_noop_operands clause :
  opt_holds without_field_or_noop clause ->
  forall t, boolean_type_of clause = Some t ->
  forallb (fun o => match o with Some x => without_field_or_noop x | None => true end)
    (operands_of clause) = true.
Proof.
  intros Hc t Ht. destruct (boolean_type_of_Some _ _ Ht) as [m' Hm']. rewrite Hm' in Hc.
  cbn [opt_holds] in Hc. by rewrite without_field_or_noop_boolean in Hc.
Qed.

Lemma without_field_or_noop_one clause :
  opt_holds without_field_or_noop clause ->
  forallb (fun o => match o with Some x => without_field_or_noop x | None => true end)
    [clause] = true.
Proof. intros Hc. destruct clause; cbn [forallb opt_holds] in *; by rewrite ?Hc. Qed.

Lemma without_field_or_noop_append boolean_clause clause :
  opt_holds without_field_or_noop boolean_clause -> opt_holds without_field_or_noop clause ->
  opt_holds without_field_or_noop (append_operand boolean_clause clause).
Proof.
  intros Hb Hc. unfold append_operand.
  assert (Hops := without_field_or_noop_operands _ Hc).
  assert (Hone := without_field_or_noop_one _ Hc).
  destruct boolean_clause as [[m t w p|m ops|m ops|m o|m f o|m]|]; try assumption;
    case_bool_decide as Ht; cbn [opt_holds without_field_or_noop] in *;
    rewrite forallb_app, Hb; cbn [andb]; eauto.
Qed.

Lemma without_field_or_noop_Boolean clause t n :
  opt_holds without_field_or_noop clause ->
  (if bool_decide (boolean_type_of clause = Some t)
   then BooleanNode_init t (operands_of clause)
   else BooleanNode_init t [clause]) = Ok n ->
  opt_holds without_field_or_noop (Some n).
Proof.
  intros Hc. unfold BooleanNode_init. case_bool_decide as Ht.
  - destruct (forallb _ _); [|discriminate]. intros [= <-].
    cbn [opt_holds]. rewrite without_field_or_noop_boolean.
    by eapply without_field_or_noop_operands.
  - destruct (forallb _ _); [|discriminate]. intros [= <-].
    cbn [opt_holds]. rewrite without_field_or_noop_boolean.
    by apply without_field_or_noop_one.
Qed.

(** token level: without field and noop tokens, no Field and no Noop node *)
Lemma parse_tokens_without_field_or_noop fuel tokens want c rest :
  Forall plain_token tokens ->
  parse_tokens fuel tokens want None None false = Ok (c, rest) ->
  opt_holds without_field_or_noop c.
Proof.
  intros Htok H.
  assert (Hinv := parse_tokens_invariant plain_token (opt_holds without_field_or_noop)).
  refine (_ (Hinv I _ _ _ without_field_or_noop_Boolean without_field_or_noop_append _ _
               fuel tokens want None None false Htok I I)).
  - rewrite H. by intros [? _].
  - by intros token [_ Hn] Ht.
  - by intros.
  - by intros.
  - intros operand n Ho. destruct operand; [|discriminate]. by intros [= <-].
  - by intros token operand n [Hf _] Ht.
Qed.

(** ** No pop from an empty list *)


Lemma closed_tail token tokens : closed (token :: tokens) -> closed tokens.
Proof. unfold closed. destruct tokens; [done|]. by rewrite last_cons_cons. Qed.


(** the nested call on one token: a field name or a negation is not
    among the types it wants *)
Lemma parse_one_token_no_IndexError fuel token want :
  (forall tokens want clause bc hanging,
     closed tokens -> no_IndexError (parse_tokens fuel tokens want clause bc hanging)) ->
  (token_type token = T_FIELD \/ token_type token = T_NOT ->
   kind_in (token_type token) want = false) ->
  match parse_tokens fuel [token] want None None false with
  | Ok _ => True
  | Err e => e <> IndexError
  end.
Proof.
  intros IH Hwant.
  destruct (decide (token_type token = T_FIELD \/ token_type token = T_NOT)) as [Hty|Hty].
  - specialize (Hwant Hty). destruct fuel as [|fuel]; [done|].
    cbn [parse_tokens]. unfold parse_iteration.
    replace (bool_decide (token_type token = T_PLUS)) with false
      by (symmetry; apply bool_decide_eq_false; intros H; rewrite H in Hty; by destruct Hty).
    cbn [andb]. unfold check_type. by rewrite Hwant.
  - assert (Hc : closed [token]) by (unfold closed; cbn; tauto).
    specialize (IH [token] want None None false Hc).
    destruct (parse_tokens _ _ _ _ _ _) as [[? ?]|?]; [done|exact IH].
Qed.

Ltac closed_tac :=
  first [ assumption
        | exact I
        | eapply closed_tail; eassumption
        | eapply closed_tail, closed_tail; eassumption ].

Ltac idx_call IH fuel :=
  match goal with
  | |- context [parse_tokens fuel [?tk] ?w None None false] =>
      let H := fresh "Hrec" in
      assert (H := parse_one_token_no_IndexError fuel tk w IH
                     ltac:(intros [Hk|Hk]; rewrite Hk; first [reflexivity | congruence]));
      destruct (parse_tokens fuel [tk] w None None false) as [[? ?]|?]; cbn [bind];
      [ clear H | exact H ]
  | |- context [parse_tokens fuel ?t ?w ?c ?b ?h] =>
      let H := fresh "Hrec" in
      assert (H : closed t) by closed_tac;
      apply (IH t w c b h) in H;
      destruct (parse_tokens fuel t w c b h) as [[? ?]|?]; cbn [bind];
      [ cbn [no_IndexError] in H | exact H ]
  | |- context [check_type ?t ?w] =>
      unfold check_type; destruct (kind_in _ w); cbn [bind]; [ | discriminate ]
  | |- context [NotNode_init ?o] => destruct o; cbn [NotNode_init bind]; [ | discriminate ]
  | |- context [FieldNode_init ?f ?o] => destruct o; cbn [FieldNode_init bind]; [ | discriminate ]
  | |- context [BooleanNode_init ?t ?o] =>
      unfold BooleanNode_init; destruct (forallb _ o); cbn [bind]; [ | discriminate ]
  | Hty : token_type ?tk = _
    |- context [match ?l with [] => Err IndexError | _ :: _ => _ end] =>
      destruct l;
      [ exfalso;
        match goal with
        | Hc : closed [tk] |- _ => unfold closed in Hc; cbn in Hc; rewrite Hty in Hc; by destruct Hc
        end
      | ]
  | |- context [if bool_decide ?P then _ else _] => case_bool_decide
  end.

Lemma parse_tokens_no_IndexError fuel : forall tokens want clause bc hanging,
  closed tokens -> no_IndexError (parse_tokens fuel tokens want clause bc hanging).
Proof.
  induction fuel as [|fuel IH]; intros tokens want clause bc hanging Hclosed; [done|].
  cbn [parse_tokens]. unfold parse_iteration.
  destruct tokens as [|token tokens]; [exact I|].
  destruct (bool_decide (token_type token = T_PLUS) && _).
  { apply IH. by eapply closed_tail. }
  destruct hanging;
    [ | destruct (_ && kind_in _ [T_OPEN; T_PHRASE; T_TERM; T_NOOP; T_FIELD]);
        [ | destruct (_ && kind_in _ [T_NOT]) ] ];
    cbn [token_type].
  - idx_call IH fuel. destruct (token_type token) eqn:Hty; repeat idx_call IH fuel; try done;
      try closed_tac.
  - repeat idx_call IH fuel; try done; try closed_tac.
  - repeat idx_call IH fuel; try done; try closed_tac.
  - idx_call IH fuel. destruct (token_type token) eqn:Hty; repeat idx_call IH fuel; try done;
      try closed_tac.
Qed.

(** ** Normalization and lexemes *)

Lemma has_char_app x s t : has_char x (s +:+ t) = has_char x s || has_char x t.
Proof.
  induction s as [|c s IH]; [done|]. rewrite append_cons. cbn [has_char].
  by rewrite IH, orb_assoc.
Qed.

Lemma replace_char_app x new s t :
  replace (String x "") new (s +:+ t)
  = replace (String x "") new s +:+ replace (String x "") new t.
Proof.
  unfold replace. induction s as [|c s IH]; [done|].
  rewrite append_cons. cbn [replace_from startswith String.length Nat.sub].
  destruct (Ascii.eqb x c); cbn [andb]; by rewrite IH, ?append_assoc, ?append_cons.
Qed.

Lemma has_char_replace x y new s :
  has_char x s = false -> has_char x new = false ->
  has_char x (replace (String y "") new s) = false.
Proof.
  unfold replace. intros Hs Hnew. induction s as [|c s IH]; [done|].
  cbn [has_char] in Hs. apply orb_false_iff in Hs as [Hc Hs].
  cbn [replace_from startswith String.length Nat.sub].
  destruct (Ascii.eqb y c); cbn [andb].
  - by rewrite has_char_app, Hnew, (IH Hs).
  - cbn [has_char]. by rewrite Hc, (IH Hs).
Qed.

Lemma range_length_no_bracket s : has_char "[" s = false -> range_length s = None.
Proof.
  intros H. apply word_run_rest in H. unfold range_length.
  destruct (word_run s) as [[|n] [|a [|b r]]]; try done.
  cbn [snd has_char] in H. apply orb_false_iff in H as [_ H].
  apply orb_false_iff in H as [Hb _].
  assert (Hc : (code b =? 91) = false).
  { apply Nat.eqb_neq. intros Hn. apply Ascii.eqb_neq in Hb. apply Hb.
    apply code_inj. by rewrite Hn. }
  by rewrite Hc, andb_false_r.
Qed.

Lemma sub_ranges_no_bracket new s : has_char "[" s = false -> sub_ranges new s = s.
Proof.
  unfold sub_ranges. induction s as [|c s IH]; [done|]. intros H.
  cbn [sub_ranges_from]. rewrite (range_length_no_bracket _ H).
  cbn [has_char] in H. apply orb_false_iff in H as [_ H]. by rewrite (IH H).
Qed.

Lemma has_char_lower x s :
  is_lower x = false -> has_char x s = false -> has_char x (lower s) = false.
Proof.
  intros Hx. induction s as [|c s IH]; [done|]. cbn [lower has_char].
  intros [Hc Hs]%orb_false_iff. rewrite (IH Hs), orb_false_r.
  unfold lower_char. destruct (is_upper c) eqn:Hu; [|done].
  apply Ascii.eqb_neq. intros ->.
  unfold is_upper, is_lower, between in *.
  apply andb_true_iff in Hu as [H1 H2]. apply Nat.leb_le in H1, H2.
  rewrite code_of_nat in Hx by lia.
  apply andb_false_iff in Hx as [Hx|Hx]; apply Nat.leb_gt in Hx; lia.
Qed.

Lemma has_char_replaced x new s :
  has_char x new = false -> has_char x (replace (String x "") new s) = false.
Proof.
  unfold replace. intros Hnew. induction s as [|c s IH]; [done|].
  cbn [replace_from startswith String.length Nat.sub].
  destruct (Ascii.eqb x c) eqn:E; cbn [andb].
  - by rewrite has_char_app, Hnew, IH.
  - cbn [has_char]. by rewrite E, IH.
Qed.

Lemma has_char_sub_ranges x new s : forall skip,
  has_char x s = false -> has_char x new = false ->
  has_char x (sub_ranges_from new skip s) = false.
Proof.
  induction s as [|c s IH]; intros skip Hs Hnew; [done|].
  cbn [has_char] in Hs. apply orb_false_iff in Hs as [Hc Hs].
  cbn [sub_ranges_from]. destruct skip as [|skip]; [|by apply IH].
  destruct (range_length (String c s)).
  - by rewrite has_char_app, Hnew, IH.
  - cbn [has_char]. by rewrite Hc, IH.
Qed.

(** the text the tokenizer is given is one line: the normalization leaves
    no line feed and no carriage return *)
Lemma normalize_one_line query :
  has_char LF (normalize query) = false /\ has_char CR (normalize query) = false.
Proof.
  unfold normalize, sub_ranges. split.
  - do 2 (apply has_char_replace; [|done]). apply has_char_sub_ranges; [|done].
    apply has_char_replace; [|done]. by apply has_char_replaced.
  - do 2 (apply has_char_replace; [|done]). apply has_char_sub_ranges; [|done].
    by apply has_char_replaced.
Qed.

(** without a range, the normalization is the lower case and the
    replacements of characters *)
Lemma normalize_no_bracket query :
  has_char "[" query = false -> normalize query = rewrite_chars (lower query).
Proof.
  intros H. unfold normalize, rewrite_chars.
  rewrite sub_ranges_no_bracket; [done|].
  do 3 (apply has_char_replace; [|done]).
  by apply has_char_lower.
Qed.

Lemma rewrite_chars_app s t : rewrite_chars (s +:+ t) = rewrite_chars s +:+ rewrite_chars t.
Proof. unfold rewrite_chars. by rewrite !replace_char_app. Qed.

Lemma rewrite_chars_plain s : plain s = true -> rewrite_chars s = s.
Proof.
  intros H. unfold rewrite_chars.
  rewrite (replace_absent "!"), (replace_absent (ascii_of_nat 10)),
    (replace_absent (ascii_of_nat 13)), (replace_absent ":"), (replace_absent "*");
    try done; by apply plain_has_char.
Qed.

(** ** Short queries *)

(** *** The parser on short token lists *)

Lemma parse_negated_term x y :
  parse_tokens_top [tok "(" T_OPEN; tok x T_TERM; tok "-" T_NOT; tok y T_TERM; tok ")" T_CLOSE]
  = Ok (Some (AndNode None [Some (term_clause x); Some (NotNode None (term_clause y))]))
  /\ parse_tokens_top [tok "(" T_OPEN; tok x T_TERM; tok "and" T_AND; tok "not" T_NOT;
                       tok y T_TERM; tok ")" T_CLOSE]
  = Ok (Some (AndNode None [Some (term_clause x); Some (NotNode None (term_clause y))])).
Proof. split; vm_compute; reflexivity. Qed.

(** X12.  Implicit AND: a term followed by a negated term parses as the
    two around [and not] do, to the And node of the term and of the Not
    node. *)
Theorem implicit_and_before_negation a b :
  is_term_name a = true -> is_term_name b = true ->
  parse (a +:+ " -" +:+ b) = parse (a +:+ " and not " +:+ b)
  /\ parse (a +:+ " and not " +:+ b)
     = Ok (Some (AndNode None [Term (lower a);
                               Some (NotNode None (TermNode None (lower b) false false))])).
Proof.
  intros Ha Hb. term_names.
  assert (Htok1 : get_tokens ("( " +:+ (a +:+ " -" +:+ b) +:+ " )")
    = Ok [tok "(" T_OPEN; tok (lower a) T_TERM; tok "-" T_NOT; tok (lower b) T_TERM;
          tok ")" T_CLOSE])
    by lex_with [Sym "("; Blank; Word (lower a); Blank; Sym "-"; Word (lower b); Blank; Sym ")"].
  assert (Htok2 : get_tokens ("( " +:+ (a +:+ " and not " +:+ b) +:+ " )")
    = Ok [tok "(" T_OPEN; tok (lower a) T_TERM; tok "and" T_AND; tok "not" T_NOT;
          tok (lower b) T_TERM; tok ")" T_CLOSE])
    by lex_with [Sym "("; Blank; Word (lower a); Blank; Word "and"; Blank; Word "not"; Blank;
                 Word (lower b); Blank; Sym ")"].
  unfold parse, decode_string_from_bytes_if_needed. rewrite Htok1, Htok2. cbn [bind].
  destruct (parse_negated_term (lower a) (lower b)) as [-> ->].
  by rewrite !term_clause_lower.
Qed.

Lemma implicit_and_before_negation_witness :
  parse "Foo -bar" = parse "Foo and not bar"
  /\ parse "Foo and not bar"
     = Ok (Some (AndNode None [Term "foo"; Some (NotNode None (TermNode None "bar" false false))])).
Proof. apply (implicit_and_before_negation "Foo" "bar"); vm_compute; reflexivity. Defined.

(** *** No precedence *)

Lemma parse_three_terms x y z :
  parse_tokens_top [tok "(" T_OPEN; tok x T_TERM; tok "or" T_OR; tok y T_TERM;
                    tok "and" T_AND; tok z T_TERM; tok ")" T_CLOSE]
  = Ok (Some (AndNode None [Some (OrNode None [Some (term_clause x); Some (term_clause y)]);
                            Some (term_clause z)]))
  /\ parse_tokens_top [tok "(" T_OPEN; tok "(" T_OPEN; tok x T_TERM; tok "or" T_OR; tok y T_TERM;
                       tok ")" T_CLOSE; tok "and" T_AND; tok z T_TERM; tok ")" T_CLOSE]
  = Ok (Some (AndNode None [Some (OrNode None [Some (term_clause x); Some (term_clause y)]);
                            Some (term_clause z)]))
  /\ parse_tokens_top [tok "(" T_OPEN; tok x T_TERM; tok "or" T_OR; tok "(" T_OPEN; tok y T_TERM;
                       tok "and" T_AND; tok z T_TERM; tok ")" T_CLOSE; tok ")" T_CLOSE]
  = Ok (Some (OrNode None [Some (term_clause x);
                           Some (AndNode None [Some (term_clause y); Some (term_clause z)])])).
Proof. repeat split; vm_compute; reflexivity. Qed.

(** X13.  No precedence: [a or b and c] parses as [( a or b ) and c]
    does, to the And node of the Or node of a and b, and of c; only
    parentheses group to the right. *)
Theorem operators_group_from_the_left a b c :
  is_term_name a = true -> is_term_name b = true -> is_term_name c = true ->
  parse (a +:+ " or " +:+ b +:+ " and " +:+ c)
  = Ok (Some (AndNode None [Some (OrNode None [Term (lower a); Term (lower b)]); Term (lower c)]))
  /\ parse (a +:+ " or " +:+ b +:+ " and " +:+ c)
     = parse ("( " +:+ a +:+ " or " +:+ b +:+ " ) and " +:+ c)
  /\ parse (a +:+ " or ( " +:+ b +:+ " and " +:+ c +:+ " )")
     = Ok (Some (OrNode None [Term (lower a);
                              Some (AndNode None [Term (lower b); Term (lower c)])])).
Proof.
  intros Ha Hb Hc. term_names.
  assert (Htok1 : get_tokens ("( " +:+ (a +:+ " or " +:+ b +:+ " and " +:+ c) +:+ " )")
    = Ok [tok "(" T_OPEN; tok (lower a) T_TERM; tok "or" T_OR; tok (lower b) T_TERM;
          tok "and" T_AND; tok (lower c) T_TERM; tok ")" T_CLOSE])
    by lex_with [Sym "("; Blank; Word (lower a); Blank; Word "or"; Blank; Word (lower b); Blank;
                 Word "and"; Blank; Word (lower c); Blank; Sym ")"].
  assert (Htok2 : get_tokens ("( " +:+ ("( " +:+ a +:+ " or " +:+ b +:+ " ) and " +:+ c) +:+ " )")
    = Ok [tok "(" T_OPEN; tok "(" T_OPEN; tok (lower a) T_TERM; tok "or" T_OR;
          tok (lower b) T_TERM; tok ")" T_CLOSE; tok "and" T_AND; tok (lower c) T_TERM;
          tok ")" T_CLOSE])
    by lex_with [Sym "("; Blank; Sym "("; Blank; Word (lower a); Blank; Word "or"; Blank;
                 Word (lower b); Blank; Sym ")"; Blank; Word "and"; Blank; Word (lower c);
                 Blank; Sym ")"].
  assert (Htok3 : get_tokens ("( " +:+ (a +:+ " or ( " +:+ b +:+ " and " +:+ c +:+ " )") +:+ " )")
    = Ok [tok "(" T_OPEN; tok (lower a) T_TERM; tok "or" T_OR; tok "(" T_OPEN;
          tok (lower b) T_TERM; tok "and" T_AND; tok (lower c) T_TERM; tok ")" T_CLOSE;
          tok ")" T_CLOSE])
    by lex_with [Sym "("; Blank; Word (lower a); Blank; Word "or"; Blank; Sym "("; Blank;
                 Word (lower b); Blank; Word "and"; Blank; Word (lower c); Blank; Sym ")";
                 Blank; Sym ")"].
  unfold parse, decode_string_from_bytes_if_needed. rewrite Htok1, Htok2, Htok3. cbn [bind].
  destruct (parse_three_terms (lower a) (lower b) (lower c)) as (-> & -> & ->).
  by rewrite !term_clause_lower.
Qed.

Lemma operators_group_from_the_left_witness :
  parse "a or b and c"
  = Ok (Some (AndNode None [Some (OrNode None [Term "a"; Term "b"]); Term "c"]))
  /\ parse "a or b and c" = parse "( a or b ) and c"
  /\ parse "a or ( b and c )"
     = Ok (Some (OrNode None [Term "a"; Some (AndNode None [Term "b"; Term "c"])])).
Proof. apply (operators_group_from_the_left "a" "b" "c"); vm_compute; reflexivity. Defined.

(** *** The plus sign *)

Lemma parse_plus x y z :
  parse_tokens_top [tok "(" T_OPEN; tok x T_TERM; tok "+" T_PLUS; tok y T_TERM; tok ")" T_CLOSE]
  = Ok (Some (AndNode None [Some (term_clause x); Some (term_clause y)]))
  /\ parse_tokens_top [tok "(" T_OPEN; tok "+" T_PLUS; tok x T_TERM; tok "+" T_PLUS; tok y T_TERM;
                       tok ")" T_CLOSE]
  = Ok (Some (AndNode None [Some (term_clause x); Some (term_clause y)]))
  /\ parse_tokens_top [tok "(" T_OPEN; tok "+" T_PLUS; tok x T_TERM; tok "+" T_PLUS; tok y T_TERM;
                       tok "+" T_PLUS; tok z T_TERM; tok ")" T_CLOSE]
  = Ok (Some (OrNode None [Some (AndNode None [Some (term_clause x); Some (term_clause y)]);
                           Some (term_clause z)])).
Proof. repeat split; vm_compute; reflexivity. Qed.

(** X15.  The plus sign: [a +b] and [+a +b] parse to the And node of a and
    b; a plus after an And node is skipped, so that [+a +b +c] parses to
    the Or node of that And node and of c. *)
Theorem plus_is_and_once a b c :
  is_term_name a = true -> is_term_name b = true -> is_term_name c = true ->
  parse (a +:+ " +" +:+ b) = Ok (Some (AndNode None [Term (lower a); Term (lower b)]))
  /\ parse ("+" +:+ a +:+ " +" +:+ b) = Ok (Some (AndNode None [Term (lower a); Term (lower b)]))
  /\ parse ("+" +:+ a +:+ " +" +:+ b +:+ " +" +:+ c)
     = Ok (Some (OrNode None [Some (AndNode None [Term (lower a); Term (lower b)]);
                              Term (lower c)])).
Proof.
  intros Ha Hb Hc. term_names.
  assert (Htok1 : get_tokens ("( " +:+ (a +:+ " +" +:+ b) +:+ " )")
    = Ok [tok "(" T_OPEN; tok (lower a) T_TERM; tok "+" T_PLUS; tok (lower b) T_TERM;
          tok ")" T_CLOSE])
    by lex_with [Sym "("; Blank; Word (lower a); Blank; Sym "+"; Word (lower b); Blank; Sym ")"].
  assert (Htok2 : get_tokens ("( " +:+ ("+" +:+ a +:+ " +" +:+ b) +:+ " )")
    = Ok [tok "(" T_OPEN; tok "+" T_PLUS; tok (lower a) T_TERM; tok "+" T_PLUS;
          tok (lower b) T_TERM; tok ")" T_CLOSE])
    by lex_with [Sym "("; Blank; Sym "+"; Word (lower a); Blank; Sym "+"; Word (lower b);
                 Blank; Sym ")"].
  assert (Htok3 : get_tokens ("( " +:+ ("+" +:+ a +:+ " +" +:+ b +:+ " +" +:+ c) +:+ " )")
    = Ok [tok "(" T_OPEN; tok "+" T_PLUS; tok (lower a) T_TERM; tok "+" T_PLUS;
          tok (lower b) T_TERM; tok "+" T_PLUS; tok (lower c) T_TERM; tok ")" T_CLOSE])
    by lex_with [Sym "("; Blank; Sym "+"; Word (lower a); Blank; Sym "+"; Word (lower b);
                 Blank; Sym "+"; Word (lower c); Blank; Sym ")"].
  unfold parse, decode_string_from_bytes_if_needed. rewrite Htok1, Htok2, Htok3. cbn [bind].
  destruct (parse_plus (lower a) (lower b) (lower c)) as (-> & -> & ->).
  by rewrite !term_clause_lower.
Qed.

Lemma plus_is_and_once_witness :
  parse "a +b" = Ok (Some (AndNode None [Term "a"; Term "b"]))
  /\ parse "+a +b" = Ok (Some (AndNode None [Term "a"; Term "b"]))
  /\ parse "+a +b +c"
     = Ok (Some (OrNode None [Some (AndNode None [Term "a"; Term "b"]); Term "c"])).
Proof. apply (plus_is_and_once "a" "b" "c"); vm_compute; reflexivity. Defined.

(** *** Operators without operands *)

Lemma parse_misplaced_operator x y :
  parse_tokens_top [tok "(" T_OPEN; tok x T_TERM; tok "and" T_AND; tok "or" T_OR; tok y T_TERM;
                    tok ")" T_CLOSE]
  = Err (ParseSyntaxError UnexpectedToken)
  /\ parse_tokens_top [tok "(" T_OPEN; tok x T_TERM; tok "or" T_OR; tok "and" T_AND; tok y T_TERM;
                       tok ")" T_CLOSE]
  = Err (ParseSyntaxError UnexpectedToken)
  /\ parse_tokens_top [tok "(" T_OPEN; tok "and" T_AND; tok x T_TERM; tok ")" T_CLOSE]
  = Err (ParseSyntaxError UnexpectedToken)
  /\ parse_tokens_top [tok "(" T_OPEN; tok "or" T_OR; tok x T_TERM; tok ")" T_CLOSE]
  = Err (ParseSyntaxError UnexpectedToken).
Proof. repeat split; vm_compute; reflexivity. Qed.

(** X16.  An operator after an operator, or at the start of the query, is
    a syntax error. *)
Theorem misplaced_operator_rejected a b :
  is_term_name a = true -> is_term_name b = true ->
  parse (a +:+ " and or " +:+ b) = Err (ParseSyntaxError UnexpectedToken)
  /\ parse (a +:+ " or and " +:+ b) = Err (ParseSyntaxError UnexpectedToken)
  /\ parse ("and " +:+ a) = Err (ParseSyntaxError UnexpectedToken)
  /\ parse ("or " +:+ a) = Err (ParseSyntaxError UnexpectedToken).
Proof.
  intros Ha Hb. term_names.
  assert (Htok1 : get_tokens ("( " +:+ (a +:+ " and or " +:+ b) +:+ " )")
    = Ok [tok "(" T_OPEN; tok (lower a) T_TERM; tok "and" T_AND; tok "or" T_OR;
          tok (lower b) T_TERM; tok ")" T_CLOSE])
    by lex_with [Sym "("; Blank; Word (lower a); Blank; Word "and"; Blank; Word "or"; Blank;
                 Word (lower b); Blank; Sym ")"].
  assert (Htok2 : get_tokens ("( " +:+ (a +:+ " or and " +:+ b) +:+ " )")
    = Ok [tok "(" T_OPEN; tok (lower a) T_TERM; tok "or" T_OR; tok "and" T_AND;
          tok (lower b) T_TERM; tok ")" T_CLOSE])
    by lex_with [Sym "("; Blank; Word (lower a); Blank; Word "or"; Blank; Word "and"; Blank;
                 Word (lower b); Blank; Sym ")"].
  assert (Htok3 : get_tokens ("( " +:+ ("and " +:+ a) +:+ " )")
    = Ok [tok "(" T_OPEN; tok "and" T_AND; tok (lower a) T_TERM; tok ")" T_CLOSE])
    by lex_with [Sym "("; Blank; Word "and"; Blank; Word (lower a); Blank; Sym ")"].
  assert (Htok4 : get_tokens ("( " +:+ ("or " +:+ a) +:+ " )")
    = Ok [tok "(" T_OPEN; tok "or" T_OR; tok (lower a) T_TERM; tok ")" T_CLOSE])
    by lex_with [Sym "("; Blank; Word "or"; Blank; Word (lower a); Blank; Sym ")"].
  unfold parse, decode_string_from_bytes_if_needed.
  rewrite Htok1, Htok2, Htok3, Htok4. cbn [bind].
  by destruct (parse_misplaced_operator (lower a) (lower b)) as (-> & -> & -> & ->).
Qed.

Lemma misplaced_operator_rejected_witness :
  parse "a and or b" = Err (ParseSyntaxError UnexpectedToken)
  /\ parse "a or and b" = Err (ParseSyntaxError UnexpectedToken)
  /\ parse "and a" = Err (ParseSyntaxError UnexpectedToken)
  /\ parse "or a" = Err (ParseSyntaxError UnexpectedToken).
Proof. apply (misplaced_operator_rejected "a" "b"); vm_compute; reflexivity. Defined.

Lemma parse_trailing_operator x :
  parse_tokens_top [tok "(" T_OPEN; tok x T_TERM; tok "and" T_AND; tok ")" T_CLOSE]
  = Ok (Some (AndNode None [Some (term_clause x)]))
  /\ parse_tokens_top [tok "(" T_OPEN; tok x T_TERM; tok "or" T_OR; tok ")" T_CLOSE]
  = Ok (Some (OrNode None [Some (term_clause x)])).
Proof. split; vm_compute; reflexivity. Qed.

(** X17.  A trailing operator is accepted: [a and] parses to the And node
    of the one operand a, whose tsquery is [( a )] and whose regex is that
    of a. *)
Theorem trailing_operator_accepted a :
  is_term_name a = true ->
  parse (a +:+ " and") = Ok (Some (AndNode None [Term (lower a)]))
  /\ parse (a +:+ " or") = Ok (Some (OrNode None [Term (lower a)]))
  /\ call tsquery (parse (a +:+ " and")) = Ok ("( " +:+ lower a +:+ " )")
  /\ call re (parse (a +:+ " and")) = Ok ("[[:<:]]" +:+ re_escape (lower a)).
Proof.
  intros Ha. term_names.
  assert (Htok1 : get_tokens ("( " +:+ (a +:+ " and") +:+ " )")
    = Ok [tok "(" T_OPEN; tok (lower a) T_TERM; tok "and" T_AND; tok ")" T_CLOSE])
    by lex_with [Sym "("; Blank; Word (lower a); Blank; Word "and"; Blank; Sym ")"].
  assert (Htok2 : get_tokens ("( " +:+ (a +:+ " or") +:+ " )")
    = Ok [tok "(" T_OPEN; tok (lower a) T_TERM; tok "or" T_OR; tok ")" T_CLOSE])
    by lex_with [Sym "("; Blank; Word (lower a); Blank; Word "or"; Blank; Sym ")"].
  unfold parse, decode_string_from_bytes_if_needed.
  rewrite Htok1, Htok2. cbn [bind].
  destruct (parse_trailing_operator (lower a)) as (-> & ->).
  rewrite !term_clause_lower. repeat split; reflexivity.
Qed.

Lemma trailing_operator_accepted_witness :
  parse "a and" = Ok (Some (AndNode None [Term "a"]))
  /\ parse "a or" = Ok (Some (OrNode None [Term "a"]))
  /\ call tsquery (parse "a and") = Ok "( a )"
  /\ call re (parse "a and") = Ok "[[:<:]]a".
Proof. apply (trailing_operator_accepted "a"); vm_compute; reflexivity. Defined.

(** ** Placeholders *)

Lemma string_length_app s t : String.length (s +:+ t) = String.length s + String.length t.
Proof. induction s as [|c s IH]; [done|]. rewrite append_cons. cbn [String.length]. by rewrite IH. Qed.

Lemma eqb_longer s t : String.length t < String.length s -> String.eqb s t = false.
Proof. intros H. apply String.eqb_neq. intros ->. lia. Qed.

Lemma startswith_app p s : startswith p (p +:+ s) = true.
Proof.
  induction p as [|c p IH]; [done|]. rewrite append_cons. cbn [startswith].
  by rewrite Ascii.eqb_refl, IH.
Qed.

Lemma rev_string_append s t :
  rev_string (s +:+ t) "" = rev_string t "" +:+ rev_string s "".
Proof.
  induction s as [|c s IH]; [by rewrite append_nil_l, append_nil_r|].
  rewrite append_cons. cbn [rev_string].
  by rewrite (rev_string_app (s +:+ t)), (rev_string_app s), IH, append_assoc.
Qed.

Lemma endswith_app p s : endswith p (s +:+ p) = true.
Proof. unfold endswith. by rewrite rev_string_append, startswith_app. Qed.

Lemma word_has_char x s : all_chars is_word s = true -> is_word x = false -> has_char x s = false.
Proof.
  intros Hs Hx. induction s as [|c s IH]; [done|]. cbn [all_chars has_char] in *.
  apply andb_true_iff in Hs as [Hc Hs]. rewrite (IH Hs), orb_false_r.
  apply Ascii.eqb_neq. intros ->. by rewrite Hx in Hc.
Qed.

Lemma no_upper_has_char x s : no_upper s = true -> is_upper x = true -> has_char x s = false.
Proof.
  unfold no_upper. intros Hs Hx. induction s as [|c s IH]; [done|]. cbn [all_chars has_char] in *.
  apply andb_true_iff in Hs as [Hc Hs]. rewrite (IH Hs), orb_false_r.
  apply Ascii.eqb_neq. intros ->. by rewrite Hx in Hc.
Qed.

Lemma match_word_app s t :
  match_word s = true -> all_chars is_word t = true -> match_word (s +:+ t) = true.
Proof.
  unfold match_word. intros [Hs Hl]%andb_true_iff Ht.
  rewrite all_chars_app, Hs, Ht, string_length_app. cbn [andb].
  apply Nat.ltb_lt in Hl. apply Nat.ltb_lt. lia.
Qed.

Lemma match_word_first_is_quote s t : match_word s = true -> first_is_quote (s +:+ t) = false.
Proof.
  unfold match_word. destruct s as [|c s]; [done|]. cbn [all_chars]. rewrite append_cons.
  intros [[Hc _]%andb_true_iff _]%andb_true_iff. cbn [first_is_quote].
  unfold is_quote. unfold is_word, is_upper, is_lower, is_digit, between in Hc.
  destruct (code c =? 34) eqn:E1; [apply Nat.eqb_eq in E1; rewrite E1 in Hc; discriminate Hc|].
  destruct (code c =? 39) eqn:E2; [apply Nat.eqb_eq in E2; rewrite E2 in Hc; discriminate Hc|].
  done.
Qed.

(** a placeholder has an upper-case letter that a text in lower case
    has not *)
Lemma contains_WILD_absent s : has_char "W" s = false -> contains WILD_PLACEHOLDER s = false.
Proof.
  induction s as [|c1 s IH]; [done|]. intros H.
  cbn [has_char] in H. apply orb_false_iff in H as [H1 H]. cbn [contains].
  rewrite (IH H), orb_false_r.
  destruct s as [|c2 [|c3 s]]; cbn [startswith WILD_PLACEHOLDER]; rewrite ?andb_false_r; try done.
  cbn [has_char] in H. apply orb_false_iff in H as [_ H]. apply orb_false_iff in H as [H3 _].
  by rewrite H3, !andb_false_r.
Qed.

(** *** Wildcards *)

(** the placeholder at the end of a word in lower case is the only one *)
Lemma startswith_placeholder u p s rest :
  is_upper u = true -> no_upper s = true -> s <> "" ->
  startswith (String "_" (String "_" (String u p)))
    (s +:+ String "_" (String "_" (String u p)) +:+ rest) = false.
Proof.
  intros Hu Hs Hne. unfold no_upper in Hs.
  assert (Hu' : Ascii.eqb u "_" = false).
  { apply Ascii.eqb_neq. intros ->. vm_compute in Hu. discriminate Hu. }
  destruct s as [|c1 [|c2 [|c3 r]]]; [done| | |]; rewrite ?append_cons, ?append_nil_l;
    cbn [startswith]; rewrite ?Hu', ?andb_false_r; try done.
  destruct (Ascii.eqb u c3) eqn:E; [|by rewrite !andb_false_r].
  apply Ascii.eqb_eq in E. subst c3. cbn [all_chars] in Hs. rewrite Hu in Hs.
  by rewrite !andb_false_r in Hs.
Qed.

Lemma startswith_refl p : startswith p p = true.
Proof. induction p as [|c p IH]; [done|]. cbn [startswith]. by rewrite Ascii.eqb_refl, IH. Qed.

Lemma replace_from_skip old new s : forall k,
  String.length s <= k -> replace_from old new k s = "".
Proof.
  induction s as [|c s IH]; intros k Hk; [done|]. cbn [String.length] in Hk.
  destruct k as [|k]; [lia|]. cbn [replace_from]. apply IH. lia.
Qed.

(** [replace] takes the placeholder off the end of a text in lower case *)
Lemma replace_placeholder_suffix u p s :
  is_upper u = true -> no_upper s = true ->
  replace (String "_" (String "_" (String u p))) "" (s +:+ String "_" (String "_" (String u p)))
  = s.
Proof.
  intros Hu. unfold replace. induction s as [|c s IH]; intros Hs.
  - rewrite append_nil_l. cbn [replace_from]. rewrite startswith_refl, append_nil_l.
    apply replace_from_skip. cbn [String.length]. exact (le_n _).
  - assert (Hs' : no_upper s = true).
    { unfold no_upper in *. cbn [all_chars] in Hs. by apply andb_true_iff in Hs as [_ ?]. }
    assert (H := startswith_placeholder u p (String c s) "" Hu Hs ltac:(done)).
    rewrite !append_cons, append_nil_r in H. rewrite append_cons. cbn [replace_from]. rewrite H. by rewrite (IH Hs').
Qed.

Lemma term_clause_wild s :
  no_upper s = true ->
  term_clause (s +:+ WILD_PLACEHOLDER) = TermNode None s true false.
Proof.
  intros Hs. unfold term_clause. rewrite endswith_app.
  by rewrite (replace_placeholder_suffix "W" "ILD__") by done.
Qed.

Lemma get_token_type_wild s :
  match_word s = true -> get_token_type (s +:+ WILD_PLACEHOLDER) = Ok T_TERM.
Proof.
  intros Hs. unfold get_token_type.
  assert (Hlen : 8 < String.length (s +:+ WILD_PLACEHOLDER)).
  { rewrite string_length_app. apply andb_true_iff in Hs as [_ Hl]. apply Nat.ltb_lt in Hl.
    cbn [WILD_PLACEHOLDER String.length]. lia. }
  assert (Hw : all_chars is_word (s +:+ WILD_PLACEHOLDER) = true).
  { rewrite all_chars_app. by apply andb_true_iff in Hs as [-> _]. }
  rewrite !eqb_longer by (rewrite ?lower_length; cbn [String.length NOOP_PLACEHOLDER]; lia).
  rewrite match_word_first_is_quote by done. cbn [orb].
  unfold match_word_wild. rewrite Hw, endswith_app. cbn [andb].
  replace (String.length WILD_PLACEHOLDER <? _) with true
    by (symmetry; apply Nat.ltb_lt; cbn [WILD_PLACEHOLDER String.length]; lia).
  rewrite andb_false_r.
  unfold endswith. rewrite rev_string_append.
  change (startswith _ _) with false.
  unfold match_word. rewrite Hw. cbn [andb].
  replace (0 <? _) with true by (symmetry; apply Nat.ltb_lt; lia).
  reflexivity.
Qed.

Lemma re_escape_word s : all_chars is_word s = true -> re_escape s = s.
Proof.
  induction s as [|c s IH]; [done|]. cbn [all_chars re_escape].
  intros [Hc Hs]%andb_true_iff. by rewrite Hc, (IH Hs).
Qed.

Lemma is_name_spec w :
  is_name w = true ->
  match_word (lower w) = true /\ plain (lower w) = true /\ no_upper (lower w) = true
  /\ all_chars is_word (lower w) = true /\ has_char "[" w = false.
Proof.
  intros Hn. assert (Hw : match_word (lower w) = true).
  { rewrite match_word_lower_eq. by apply is_name_word. }
  assert (Ha : all_chars is_word w = true).
  { apply is_name_word in Hn. by apply andb_true_iff in Hn as [? _]. }
  repeat split; try done.
  - by apply match_word_lower.
  - apply lower_no_upper.
  - by rewrite lower_all_word.
  - by apply word_has_char.
Qed.

Ltac names :=
  repeat match goal with
         | H : is_term_name ?w = true |- _ =>
             let Hn := fresh "Hname" in
             assert (Hn : is_name w = true)
               by (by apply andb_true_iff in H as [? _]);
             pose proof (is_name_lower_true _ Hn);
             apply is_term_name_spec in H as (? & _ & _ & ?);
             apply is_name_spec in Hn as (? & ? & ? & ? & ?)
         | H : is_name ?w = true |- _ =>
             lazymatch w with lower _ => fail | _ => idtac end;
             pose proof (is_name_lower_true _ H);
             apply is_name_spec in H as (? & ? & ? & ? & ?)
         end.

Ltac rewrite_literals :=
  repeat match goal with
         | |- context [rewrite_chars (String ?c ?s)] =>
             let v := eval vm_compute in (rewrite_chars (String c s)) in
             change (rewrite_chars (String c s)) with v
         end.

(** the tokens of a query without a bracket, given its lexemes *)
Ltac lex_rewritten ls :=
  rewrite (get_tokens_lexemes _ ls);
  [ cbn [texts classify]
  | rewrite normalize_no_bracket;
    [ rewrite !lower_app; lower_literals; rewrite !rewrite_chars_app;
      repeat match goal with
             | H : plain ?s = true |- _ => rewrite (rewrite_chars_plain s H)
             end;
      rewrite_literals;
      cbn [render]; rewrite ?append_assoc; reflexivity
    | rewrite !has_char_app;
      by repeat match goal with H : has_char _ _ = _ |- _ => rewrite H end ]
  | apply lexemes_ok_intro; [reflexivity | cbn [lexemes_fit] | by vm_compute] ].

Lemma parse_one_term x :
  parse_tokens_top [tok "(" T_OPEN; tok x T_TERM; tok ")" T_CLOSE] = Ok (Some (term_clause x)).
Proof. vm_compute; reflexivity. Qed.

(** X3.  A star at the end of a name: [parse] returns a Term node with the
    name in lower case and its wildcard flag set; its tsquery is the name
    followed by [:*]; its regex is that of the name without the star. *)
Theorem wildcard_term a :
  is_name a = true ->
  parse (a +:+ "*") = Ok (Some (TermNode None (lower a) true false))
  /\ call tsquery (parse (a +:+ "*")) = Ok (lower a +:+ ":*")
  /\ call re (parse (a +:+ "*")) = Ok ("[[:<:]]" +:+ lower a).
Proof.
  intros Ha. names.
  assert (Htok : get_tokens ("( " +:+ (a +:+ "*") +:+ " )")
    = Ok [tok "(" T_OPEN; tok (lower a +:+ WILD_PLACEHOLDER) T_TERM; tok ")" T_CLOSE]).
  { lex_rewritten [Sym "("; Blank; Word (lower a +:+ WILD_PLACEHOLDER); Blank; Sym ")"].
    - rewrite get_token_type_wild by done.
      replace (0 <? String.length (lower a +:+ WILD_PLACEHOLDER)) with true; [done|].
      symmetry. apply Nat.ltb_lt. rewrite string_length_app. cbn [WILD_PLACEHOLDER String.length]. lia.
    - by rewrite is_name_app. }
  assert (Hparse : parse (a +:+ "*") = Ok (Some (TermNode None (lower a) true false))).
  { unfold parse, decode_string_from_bytes_if_needed. rewrite Htok. cbn [bind].
    by rewrite parse_one_term, term_clause_wild. }
  rewrite Hparse. repeat split.
  cbn [call bind]. unfold re.
  change (filter_tree _ _) with (Ok (Some (TermNode (Some 1) (lower a) true false))).
  cbn [bind get_re term_re]. by rewrite re_escape_word.
Qed.

Lemma wildcard_term_witness :
  parse "Foo*" = Ok (Some (TermNode None "foo" true false))
  /\ call tsquery (parse "Foo*") = Ok "foo:*"
  /\ call re (parse "Foo*") = Ok "[[:<:]]foo".
Proof. apply (wildcard_term "Foo"); vm_compute; reflexivity. Defined.

Lemma contains_app p s t : contains p (s +:+ p +:+ t) = true.
Proof.
  induction s as [|c s IH].
  - rewrite append_nil_l. destruct p as [|d p]; [by destruct t|].
    rewrite append_cons. cbn [contains]. rewrite <- append_cons. by rewrite startswith_app.
  - rewrite append_cons. cbn [contains]. by rewrite IH, orb_true_r.
Qed.

Lemma no_upper_rev s : no_upper (rev_string s "") = no_upper s.
Proof. unfold no_upper. by rewrite all_chars_rev, andb_true_r. Qed.

Lemma rev_string_nonempty s : s <> "" -> rev_string s "" <> "".
Proof.
  destruct s as [|c s]; [done|]. intros _. cbn [rev_string].
  rewrite rev_string_app. by destruct (rev_string s "").
Qed.

(** a token with the placeholder before its end is no term *)
Lemma get_token_type_wild_inside s t :
  all_chars is_word s = true -> match_word t = true -> no_upper t = true ->
  get_token_type (s +:+ WILD_PLACEHOLDER +:+ t) = Err (ParseSyntaxError WildNotAtEnd).
Proof.
  intros Hs Ht Hu. unfold get_token_type.
  assert (Hlen : 8 < String.length (s +:+ WILD_PLACEHOLDER +:+ t)).
  { rewrite !string_length_app. apply andb_true_iff in Ht as [_ Hl]. apply Nat.ltb_lt in Hl.
    cbn [WILD_PLACEHOLDER String.length]. lia. }
  assert (Hw : match_word ((s +:+ WILD_PLACEHOLDER) +:+ t) = true).
  { unfold match_word in *. apply andb_true_iff in Ht as [Ht Hl].
    rewrite !all_chars_app, Hs, Ht, append_assoc. cbn [andb].
    apply Nat.ltb_lt. lia. }
  rewrite !eqb_longer by (rewrite ?lower_length; cbn [String.length NOOP_PLACEHOLDER]; lia).
  assert (Hsw : match_word (s +:+ WILD_PLACEHOLDER) = true).
  { unfold match_word. rewrite all_chars_app, Hs, string_length_app.
    change (all_chars is_word WILD_PLACEHOLDER) with true. cbn [andb].
    apply Nat.ltb_lt. cbn [WILD_PLACEHOLDER String.length]. lia. }
  rewrite <- !(append_assoc s), (match_word_first_is_quote _ _ Hsw), !append_assoc.
  cbn [orb]. rewrite contains_app. cbn [andb].
  unfold match_word_wild, endswith.
  rewrite !rev_string_append.
  change (rev_string WILD_PLACEHOLDER "") with "__DLIW__".
  rewrite append_assoc, (startswith_placeholder "D" "LIW__").
  - by rewrite andb_false_r.
  - done.
  - by rewrite no_upper_rev.
  - apply rev_string_nonempty. intros ->. discriminate Ht.
Qed.

(** X4.  A star inside a word, or in front of one, is a syntax error
    ('* can only appear the end of a term'). *)
Theorem wildcard_inside_rejected a b :
  is_name a = true -> match_word b = true ->
  parse (a +:+ "*" +:+ b) = Err (ParseSyntaxError WildNotAtEnd)
  /\ parse ("*" +:+ b) = Err (ParseSyntaxError WildNotAtEnd).
Proof.
  intros Ha Hb. names.
  assert (Hb' : match_word (lower b) = true) by (by rewrite match_word_lower_eq).
  assert (Hpb := match_word_lower _ Hb').
  assert (Hwb : all_chars is_word (lower b) = true) by (by apply andb_true_iff in Hb' as [? _]).
  assert (Hbb : has_char "[" b = false).
  { apply word_has_char; [|done]. by apply andb_true_iff in Hb as [? _]. }
  assert (Hub := lower_no_upper b).
  assert (Htok1 : get_tokens ("( " +:+ (a +:+ "*" +:+ b) +:+ " )")
    = Err (ParseSyntaxError WildNotAtEnd)).
  { lex_rewritten [Sym "("; Blank; Word (lower a +:+ WILD_PLACEHOLDER +:+ lower b); Blank;
                   Sym ")"].
    - rewrite get_token_type_wild_inside by done.
      replace (0 <? String.length (lower a +:+ WILD_PLACEHOLDER +:+ lower b)) with true; [done|].
      symmetry. apply Nat.ltb_lt. rewrite !string_length_app. cbn [WILD_PLACEHOLDER String.length]. lia.
    - rewrite is_name_app; [done|done|]. by rewrite all_chars_app, Hwb. }
  assert (Htok2 : get_tokens ("( " +:+ ("*" +:+ b) +:+ " )")
    = Err (ParseSyntaxError WildNotAtEnd)).
  { lex_rewritten [Sym "("; Blank; Word (WILD_PLACEHOLDER +:+ lower b); Blank; Sym ")"].
    - rewrite <- (append_nil_l (WILD_PLACEHOLDER +:+ lower b)).
      rewrite (get_token_type_wild_inside "") by done.
      replace (0 <? String.length ("" +:+ WILD_PLACEHOLDER +:+ lower b)) with true; [done|].
      symmetry. apply Nat.ltb_lt. rewrite !string_length_app. cbn [WILD_PLACEHOLDER String.length]. lia.
    - by rewrite is_name_app. }
  unfold parse, decode_string_from_bytes_if_needed. by rewrite Htok1, Htok2.
Qed.

Lemma wildcard_inside_rejected_witness :
  parse "fo*o" = Err (ParseSyntaxError WildNotAtEnd)
  /\ parse "*foo" = Err (ParseSyntaxError WildNotAtEnd).
Proof. apply (wildcard_inside_rejected "fo" "o"); vm_compute; reflexivity. Defined.

(** X5.  [~] after a term, and [/], are syntax errors (proximity and
    regular expression searches are not supported). *)
Theorem proximity_and_regex_rejected a b :
  is_term_name a = true -> is_term_name b = true ->
  parse (a +:+ "~" +:+ b) = Err (ParseSyntaxError ProximityNotSupported)
  /\ parse (a +:+ "~") = Err (ParseSyntaxError ProximityNotSupported)
  /\ parse ("/" +:+ a +:+ "/") = Err (ParseSyntaxError RegexNotSupported).
Proof.
  intros Ha Hb. term_names.
  assert (Htok1 : get_tokens ("( " +:+ (a +:+ "~" +:+ b) +:+ " )")
    = Err (ParseSyntaxError ProximityNotSupported))
    by lex_with [Sym "("; Blank; Word (lower a); Sym "~"; Word (lower b); Blank; Sym ")"].
  assert (Htok2 : get_tokens ("( " +:+ (a +:+ "~") +:+ " )")
    = Err (ParseSyntaxError ProximityNotSupported))
    by lex_with [Sym "("; Blank; Word (lower a); Sym "~"; Blank; Sym ")"].
  assert (Htok3 : get_tokens ("( " +:+ ("/" +:+ a +:+ "/") +:+ " )")
    = Err (ParseSyntaxError RegexNotSupported))
    by lex_with [Sym "("; Blank; Sym "/"; Word (lower a); Sym "/"; Blank; Sym ")"].
  unfold parse, decode_string_from_bytes_if_needed. by rewrite Htok1, Htok2, Htok3.
Qed.

Lemma proximity_and_regex_rejected_witness :
  parse "foo~bar" = Err (ParseSyntaxError ProximityNotSupported)
  /\ parse "foo~" = Err (ParseSyntaxError ProximityNotSupported)
  /\ parse "/foo/" = Err (ParseSyntaxError RegexNotSupported).
Proof. apply (proximity_and_regex_rejected "foo" "bar"); vm_compute; reflexivity. Defined.

(** ** Fields and ranges *)

(** *** Fields *)

Lemma get_token_type_field s :
  match_word s = true -> no_upper s = true ->
  get_token_type (s +:+ FIELD_PLACEHOLDER) = Ok T_FIELD.
Proof.
  intros Hs Hu. unfold get_token_type.
  assert (Hlen : 9 < String.length (s +:+ FIELD_PLACEHOLDER)).
  { rewrite string_length_app. apply andb_true_iff in Hs as [_ Hl]. apply Nat.ltb_lt in Hl.
    cbn [FIELD_PLACEHOLDER String.length]. lia. }
  rewrite !eqb_longer by (rewrite ?lower_length; cbn [String.length NOOP_PLACEHOLDER]; lia).
  rewrite match_word_first_is_quote by done. cbn [orb].
  rewrite contains_WILD_absent.
  2:{ rewrite has_char_app, no_upper_has_char by done. reflexivity. }
  cbn [andb]. by rewrite endswith_app.
Qed.

Lemma parse_field_term f x :
  parse_tokens_top [tok "(" T_OPEN; tok f T_FIELD; tok x T_TERM; tok ")" T_CLOSE]
  = Ok (Some (FieldNode None (replace FIELD_PLACEHOLDER "" f) (term_clause x))).
Proof. vm_compute; reflexivity. Qed.

(** X7.  A field clause [f:a] parses to a Field node with the names in
    lower case; [tsquery] and [re] emit the term when the field is
    [sentence], and raise the syntax error of the empty query for every
    other field. *)
Theorem field_clause f a :
  is_name f = true -> is_term_name a = true ->
  parse (f +:+ ":" +:+ a)
  = Ok (Some (FieldNode None (lower f) (TermNode None (lower a) false false)))
  /\ call tsquery (parse (f +:+ ":" +:+ a))
     = (if String.eqb (lower f) "sentence" then Ok (lower a)
        else Err (ParseSyntaxError EmptyQuery))
  /\ call re (parse (f +:+ ":" +:+ a))
     = (if String.eqb (lower f) "sentence" then Ok ("[[:<:]]" +:+ lower a)
        else Err (ParseSyntaxError EmptyQuery)).
Proof.
  intros Hf Ha. names.
  assert (Htok : get_tokens ("( " +:+ (f +:+ ":" +:+ a) +:+ " )")
    = Ok [tok "(" T_OPEN; tok (lower f +:+ FIELD_PLACEHOLDER) T_FIELD; tok (lower a) T_TERM;
          tok ")" T_CLOSE]).
  { lex_rewritten [Sym "("; Blank; Word (lower f +:+ FIELD_PLACEHOLDER); Blank; Word (lower a);
                   Blank; Sym ")"].
    - rewrite get_token_type_field by done.
      replace (0 <? String.length (lower f +:+ FIELD_PLACEHOLDER)) with true.
      + by repeat match goal with H : _ = _ |- _ => rewrite H end.
      + symmetry. apply Nat.ltb_lt. rewrite string_length_app. cbn [FIELD_PLACEHOLDER String.length]. lia.
    - rewrite is_name_app by done.
      by repeat match goal with H : is_name _ = _ |- _ => rewrite H end. }
  assert (Hparse : parse (f +:+ ":" +:+ a)
    = Ok (Some (FieldNode None (lower f) (TermNode None (lower a) false false)))).
  { unfold parse, decode_string_from_bytes_if_needed. rewrite Htok. cbn [bind].
    rewrite parse_field_term, term_clause_lower.
    by rewrite (replace_placeholder_suffix "F" "IELD__"). }
  rewrite Hparse. split; [done|]. cbn [call bind]. unfold tsquery, re.
  cbn [filter_tree filtered_by memo_is node_is_field_or_noop node_is_field_or_noop_or_not
       fn_call fn_id].
  change (memo_is None node_is_field_or_noop) with false.
  change (memo_is None node_is_field_or_noop_or_not) with false.
  destruct (String.eqb (lower f) "sentence") eqn:Es; cbn [negb bind]; [|done].
  cbn [get_tsquery get_re negb term_re]. rewrite Es.
  by rewrite re_escape_word.
Qed.

Lemma field_clause_witness :
  parse "Sentence:Foo"
  = Ok (Some (FieldNode None "sentence" (TermNode None "foo" false false)))
  /\ call tsquery (parse "Sentence:Foo") = Ok "foo"
  /\ call re (parse "Sentence:Foo") = Ok "[[:<:]]foo".
Proof. apply (field_clause "Sentence" "Foo"); vm_compute; reflexivity. Defined.

(** *** Ranges *)

Lemma word_run_app w c rest :
  all_chars is_word w = true -> is_word c = false ->
  word_run (w +:+ String c rest) = (String.length w, String c rest).
Proof.
  intros Hw Hc. induction w as [|d w IH].
  - rewrite append_nil_l. cbn [word_run String.length]. by rewrite Hc.
  - rewrite append_cons. cbn [all_chars] in Hw. apply andb_true_iff in Hw as [Hd Hw].
    cbn [word_run String.length]. by rewrite Hd, (IH Hw).
Qed.

Lemma find_char_app x s rest :
  has_char x s = false -> find_char x (s +:+ String x rest) = Some (String.length s).
Proof.
  induction s as [|c s IH]; intros H.
  - rewrite append_nil_l. cbn [find_char String.length]. by rewrite Ascii.eqb_refl.
  - rewrite append_cons. cbn [has_char] in H. apply orb_false_iff in H as [Hc Hs].
    cbn [find_char String.length]. by rewrite Hc, (IH Hs).
Qed.

Lemma range_length_range w body rest :
  match_word w = true -> has_char "]" body = false ->
  range_length (w +:+ ":[" +:+ body +:+ "]" +:+ rest)
  = Some (String.length (w +:+ ":[" +:+ body +:+ "]")).
Proof.
  intros [Hw Hl]%andb_true_iff Hb. unfold range_length.
  change (":[" +:+ body +:+ "]" +:+ rest) with (String ":" (String "[" (body +:+ "]" +:+ rest))).
  rewrite word_run_app by done.
  destruct (String.length w) as [|n] eqn:En; [discriminate Hl|].
  change ((code ":" =? 58) && (code "[" =? 91)) with true. cbn iota.
  change ("]" +:+ rest) with (String "]" rest).
  rewrite find_char_app by done. cbn [option_map].
  rewrite !string_length_app, En. cbn [String.length]. f_equal. lia.
Qed.

Lemma sub_ranges_from_skip new x rest :
  sub_ranges_from new (String.length x) (x +:+ rest) = sub_ranges_from new 0 rest.
Proof.
  induction x as [|c x IH]; [by rewrite append_nil_l|].
  rewrite append_cons. cbn [String.length sub_ranges_from]. exact IH.
Qed.

Lemma sub_ranges_from_match new c s n :
  range_length (String c s) = Some (S n) ->
  sub_ranges_from new 0 (String c s) = new +:+ sub_ranges_from new n s.
Proof. intros H. cbn [sub_ranges_from]. rewrite H. cbn [Nat.sub]. by rewrite Nat.sub_0_r. Qed.

(** a range at the start of a text is replaced as a whole *)
Lemma sub_ranges_range new w body rest :
  match_word w = true -> has_char "]" body = false ->
  sub_ranges new (w +:+ ":[" +:+ body +:+ "]" +:+ rest) = new +:+ sub_ranges new rest.
Proof.
  intros Hw Hb. unfold sub_ranges.
  assert (Hr := range_length_range w body rest Hw Hb).
  assert (E : w +:+ ":[" +:+ body +:+ "]" +:+ rest = (w +:+ ":[" +:+ body +:+ "]") +:+ rest)
    by (by rewrite !append_assoc).
  rewrite E in *. clear E.
  set (x := ":[" +:+ body +:+ "]") in *.
  destruct w as [|c w]; [discriminate Hw|].
  rewrite !append_cons in *.
  rewrite (sub_ranges_from_match new c _ (String.length (w +:+ x))) by exact Hr.
  by rewrite sub_ranges_from_skip.
Qed.

Lemma normalize_folded query :
  normalize query
  = replace "*" WILD_PLACEHOLDER
      (replace ":" (FIELD_PLACEHOLDER +:+ " ") (sub_ranges NOOP_PLACEHOLDER (folded query))).
Proof. reflexivity. Qed.

Lemma folded_app s t : folded (s +:+ t) = folded s +:+ folded t.
Proof. unfold folded. by rewrite lower_app, !replace_char_app. Qed.

Lemma folded_plain s : plain (lower s) = true -> folded s = lower s.
Proof.
  intros H. unfold folded.
  rewrite (replace_absent "!"), (replace_absent (ascii_of_nat 10)),
    (replace_absent (ascii_of_nat 13)); try done; by apply plain_has_char.
Qed.

Lemma folded_has_char x s :
  is_lower x = false -> has_char x "- " = false -> has_char x s = false ->
  has_char x (folded s) = false.
Proof.
  intros Hx Hn Hs. unfold folded.
  cbn [has_char] in Hn. apply orb_false_iff in Hn as [H1 Hn]. apply orb_false_iff in Hn as [H2 _].
  repeat (apply has_char_replace; [|cbn [has_char]; by rewrite ?H1, ?H2]).
  by apply has_char_lower.
Qed.

Ltac folded_literals :=
  repeat match goal with
         | |- context [folded (String ?c ?s)] =>
             let v := eval vm_compute in (folded (String c s)) in
             change (folded (String c s)) with v
         end.

Lemma parse_noop x :
  parse_tokens_top [tok "(" T_OPEN; tok NOOP_PLACEHOLDER T_NOOP; tok ")" T_CLOSE]
  = Ok (Some (NoopNode None))
  /\ parse_tokens_top [tok "(" T_OPEN; tok NOOP_PLACEHOLDER T_NOOP; tok "and" T_AND;
                       tok x T_TERM; tok ")" T_CLOSE]
  = Ok (Some (AndNode None [Some (NoopNode None); Some (term_clause x)])).
Proof. split; vm_compute; reflexivity. Qed.

(** X8.  A range [f:[...]] is read as a noop, whatever stands between the
    brackets: alone, it parses to a Noop node and its tsquery is the syntax
    error of the empty query; in front of [and a], the tsquery is [( a )]. *)
Theorem range_is_neutralised f body a :
  match_word f = true -> has_char "]" body = false -> is_term_name a = true ->
  parse (f +:+ ":[" +:+ body +:+ "]") = Ok (Some (NoopNode None))
  /\ call tsquery (parse (f +:+ ":[" +:+ body +:+ "]")) = Err (ParseSyntaxError EmptyQuery)
  /\ parse (f +:+ ":[" +:+ body +:+ "] and " +:+ a)
     = Ok (Some (AndNode None [Some (NoopNode None); Term (lower a)]))
  /\ call tsquery (parse (f +:+ ":[" +:+ body +:+ "] and " +:+ a))
     = Ok ("( " +:+ lower a +:+ " )").
Proof.
  intros Hf Hb Ha. names.
  assert (Hlf : match_word (lower f) = true) by (by rewrite match_word_lower_eq).
  assert (Hpf := match_word_lower _ Hlf).
  assert (Hfb : has_char "]" (folded body) = false) by (by apply folded_has_char).
  assert (Htok1 : get_tokens ("( " +:+ (f +:+ ":[" +:+ body +:+ "]") +:+ " )")
    = Ok [tok "(" T_OPEN; tok NOOP_PLACEHOLDER T_NOOP; tok ")" T_CLOSE]).
  { rewrite (get_tokens_lexemes _ [Sym "("; Blank; Word NOOP_PLACEHOLDER; Blank; Sym ")"]);
      [reflexivity| |reflexivity].
    rewrite normalize_folded, !folded_app, (folded_plain f) by done. folded_literals.
    rewrite ?append_assoc.
    change ("( " +:+ ?s) with (String "(" (String " " s)).
    unfold sub_ranges. cbn [sub_ranges_from].
    change (range_length (String "(" _)) with (@None nat).
    change (range_length (String " " _)) with (@None nat). cbn iota.
    fold (sub_ranges NOOP_PLACEHOLDER (lower f +:+ ":[" +:+ folded body +:+ "]" +:+ " )")).
    rewrite sub_ranges_range by done. reflexivity. }
  assert (Htok2 : get_tokens ("( " +:+ (f +:+ ":[" +:+ body +:+ "] and " +:+ a) +:+ " )")
    = Ok [tok "(" T_OPEN; tok NOOP_PLACEHOLDER T_NOOP; tok "and" T_AND; tok (lower a) T_TERM;
          tok ")" T_CLOSE]).
  { rewrite (get_tokens_lexemes _
      [Sym "("; Blank; Word NOOP_PLACEHOLDER; Blank; Word "and"; Blank; Word (lower a); Blank;
       Sym ")"]).
    - cbn [texts classify]. by repeat match goal with H : _ = _ |- _ => rewrite H end.
    - rewrite normalize_folded, !folded_app, (folded_plain f), (folded_plain a) by done.
      folded_literals. rewrite !append_assoc.
      change ("( " +:+ ?s) with (String "(" (String " " s)).
      unfold sub_ranges. cbn [sub_ranges_from].
      change (range_length (String "(" _)) with (@None nat).
      change (range_length (String " " _)) with (@None nat). cbn iota.
      change ("] and " +:+ ?s) with ("]" +:+ " and " +:+ s).
      fold (sub_ranges NOOP_PLACEHOLDER
              (lower f +:+ ":[" +:+ folded body +:+ "]" +:+ " and " +:+ lower a +:+ " )")).
      rewrite sub_ranges_range by done.
      rewrite (sub_ranges_absent _ (" and " +:+ lower a +:+ " )")).
      2:{ rewrite !has_char_app, (plain_has_char ":" (lower a)) by done. reflexivity. }
      rewrite <- !append_cons.
      rewrite (replace_absent ":"), (replace_absent "*").
      + cbn [render]. rewrite ?append_assoc. reflexivity.
      + rewrite !has_char_app, (plain_has_char "*" (lower a)) by done. reflexivity.
      + rewrite !has_char_app, (plain_has_char ":" (lower a)) by done. reflexivity.
    - lexemes_in_order. }
  unfold parse, decode_string_from_bytes_if_needed. rewrite Htok1, Htok2. cbn [bind].
  destruct (parse_noop (lower a)) as [-> ->]. rewrite term_clause_lower.
  repeat split; reflexivity.
Qed.

Lemma range_is_neutralised_witness :
  parse "date:[1 TO 10]" = Ok (Some (NoopNode None))
  /\ call tsquery (parse "date:[1 TO 10]") = Err (ParseSyntaxError EmptyQuery)
  /\ parse "date:[1 TO 10] and foo" = Ok (Some (AndNode None [Some (NoopNode None); Term "foo"]))
  /\ call tsquery (parse "date:[1 TO 10] and foo") = Ok "( foo )".
Proof. apply (range_is_neutralised "date" "1 TO 10" "foo"); vm_compute; reflexivity. Defined.

(** *** Placeholders are not written by hand *)


Lemma has_char_rev x s : forall acc,
  has_char x (rev_string s acc) = has_char x s || has_char x acc.
Proof.
  induction s as [|c s IH]; intros acc; cbn [rev_string has_char]; [done|].
  rewrite IH. cbn [has_char]. destruct (Ascii.eqb x c), (has_char x s); done.
Qed.

Lemma has_char_drop x n : forall s, has_char x s = false -> has_char x (str_drop n s) = false.
Proof.
  induction n as [|n IH]; intros s Hs; [by destruct s|]. destruct s as [|c s]; [done|].
  cbn [has_char] in Hs. apply orb_false_iff in Hs as [_ Hs]. by apply IH.
Qed.

Lemma has_char_take x n : forall s, has_char x s = false -> has_char x (str_take n s) = false.
Proof.
  induction n as [|n IH]; intros s Hs; [by destruct s|]. destruct s as [|c s]; [done|].
  cbn [has_char str_take] in *. apply orb_false_iff in Hs as [-> Hs]. by apply IH.
Qed.

(** a token is made of characters of the line *)
Lemma tokenize_from_chars x s : forall skip parenlev closing,
  has_char x s = false -> Forall (fun t => has_char x t = false) closing ->
  Forall (fun t => has_char x t = false) (yielded (tokenize_from s skip parenlev closing)).
Proof.
  induction s as [|c s IH]; intros skip parenlev closing Hs Hc; cbn [tokenize_from].
  - unfold end_of_input. by destruct (parenlev =? 0)%Z.
  - assert (Hs' : has_char x s = false)
      by (cbn [has_char] in Hs; by apply orb_false_iff in Hs as [_ ?]).
    destruct skip as [|skip]; [|by apply IH].
    destruct (pseudo_token (String c s)) as [[start [|len]]|]; cbn [yield yielded].
    + by apply IH.
    + destruct (triple_quoted _).
      * destruct (end_of_triple _ _); cbn [yield yielded]; [|constructor].
        constructor; [|by apply IH]. by apply has_char_take, has_char_drop.
      * constructor; [|by apply IH]. by apply has_char_take, has_char_drop.
    + constructor; [|by apply IH]. cbn [has_char] in *. apply orb_false_iff in Hs as [-> _]. done.
Qed.

Lemma generate_tokens_chars x line :
  has_char x line = false ->
  Forall (fun t => has_char x t = false) (yielded (generate_tokens line)).
Proof.
  intros Hl. unfold generate_tokens.
  assert (Hd := has_char_drop x (span is_whitespace line) line Hl).
  assert (He : Forall (fun t => has_char x t = false) (implicit_newline line)).
  { eapply Forall_impl; [apply implicit_newline_empty|]. by intros t ->. }
  destruct (str_drop _ line) as [|c rest] eqn:Er; [by repeat constructor|].
  destruct (code c =? 35).
  { cbn [yielded]. repeat constructor.
    - unfold rstrip. rewrite has_char_rev, orb_false_r. apply has_char_drop.
      by rewrite has_char_rev, Hd.
    - by apply has_char_drop. }
  destruct (is_newline c).
  { cbn [yielded]. constructor; [done|]. apply Forall_app. split; [done|by repeat constructor]. }
  destruct (0 <? _); cbn [yield yielded].
  - constructor; [by apply has_char_take|]. apply tokenize_from_chars; [done|].
    apply Forall_app. split; [done|by repeat constructor].
  - apply tokenize_from_chars; [done|]. apply Forall_app. split; [done|by repeat constructor].
Qed.

Lemma classify_values raw : forall tokens,
  classify raw = Ok tokens ->
  Forall (fun t => token_value t ∈ raw /\ get_token_type (token_value t) = Ok (token_type t))
    tokens.
Proof.
  induction raw as [|v raw IH]; intros tokens; cbn [classify].
  - intros [= <-]. constructor.
  - destruct (0 <? String.length v).
    + destruct (get_token_type v) as [ty|] eqn:Ety; cbn [bind]; [|discriminate].
      destruct (classify raw) as [l|]; cbn [bind]; [|discriminate].
      intros [= <-]. constructor.
      * cbn [token_value token_type]. split; [apply list_elem_of_here|done].
      * eapply Forall_impl; [by apply IH|]. intros t [Hin Hty]. split; [|done].
        by apply list_elem_of_further.
    + intros H. eapply Forall_impl; [by apply IH|]. intros t [Hin Hty]. split; [|done].
      by apply list_elem_of_further.
Qed.

Lemma startswith_has_char x p s :
  startswith p s = true -> has_char x p = true -> has_char x s = true.
Proof.
  revert s. induction p as [|c p IH]; intros s; [done|].
  destruct s as [|d s]; [done|]. cbn [startswith has_char].
  intros [Hc Hp]%andb_true_iff. apply Ascii.eqb_eq in Hc. subst d.
  intros [H|H]%orb_true_iff; [by rewrite H|]. by rewrite (IH s Hp H), orb_true_r.
Qed.

Lemma endswith_has_char x p s :
  endswith p s = true -> has_char x p = true -> has_char x s = true.
Proof.
  unfold endswith. intros H Hp.
  apply (startswith_has_char x) in H; [|by rewrite has_char_rev, Hp].
  by rewrite has_char_rev, orb_false_r in H.
Qed.

Lemma get_token_type_FIELD token :
  get_token_type token = Ok T_FIELD -> has_char "F" token = true.
Proof.
  unfold get_token_type.
  repeat match goal with
         | |- context [if ?b then _ else _] => destruct b eqn:?
         end; try discriminate.
  intros _. by eapply endswith_has_char.
Qed.

Lemma get_token_type_NOOP token :
  get_token_type token = Ok T_NOOP -> has_char "N" token = true.
Proof.
  unfold get_token_type.
  repeat match goal with
         | |- context [if ?b then _ else _] => destruct b eqn:?
         end; try discriminate.
  intros _.
  match goal with H : String.eqb token NOOP_PLACEHOLDER = true |- _ =>
    apply String.eqb_eq in H; by subst token end.
Qed.

(** without a colon, the normalized query has no upper-case letter but
    those of the wildcard placeholder *)
Lemma normalize_no_colon x query :
  has_char ":" query = false -> is_upper x = true -> has_char x WILD_PLACEHOLDER = false ->
  has_char x (normalize query) = false.
Proof.
  intros Hq Hx Hw. rewrite normalize_folded.
  assert (Hf : has_char ":" (folded query) = false) by (by apply folded_has_char).
  rewrite sub_ranges_absent, (replace_absent ":") by done.
  apply has_char_replace; [|done].
  unfold folded. repeat (apply has_char_replace; [|by destruct (is_upper x) eqn:E; [by
    (cbn [has_char]; rewrite !orb_false_r; apply Ascii.eqb_neq; intros ->; discriminate E)|]]).
  apply no_upper_has_char; [apply lower_no_upper|done].
Qed.

(** X2.  A field or noop token comes from a colon: the tokens of a query
    without [:] hold no FIELD and no NOOP token, and the tree of the query
    holds no Field and no Noop node.  (The query is put in lower case
    before the placeholders, which have upper-case letters, are written
    into it.) *)
Theorem placeholders_need_a_colon solr_query :
  has_char ":" solr_query = false ->
  (forall tokens, get_tokens solr_query = Ok tokens -> Forall plain_token tokens)
  /\ (forall t, parse solr_query = Ok (Some t) -> without_field_or_noop t = true).
Proof.
  intros Hq.
  assert (Hlex : forall query tokens,
    has_char ":" query = false -> get_tokens query = Ok tokens -> Forall plain_token tokens).
  { intros query tokens Hc Htok. apply get_tokens_Ok in Htok as [Htok _].
    apply classify_values in Htok.
    assert (HF := generate_tokens_chars "F" (normalize query)
                    (normalize_no_colon "F" query Hc eq_refl eq_refl)).
    assert (HN := generate_tokens_chars "N" (normalize query)
                    (normalize_no_colon "N" query Hc eq_refl eq_refl)).
    rewrite Forall_forall in HF, HN.
    eapply Forall_impl; [exact Htok|]. intros t [Hin Hty]. split; intros Ht; rewrite Ht in Hty.
    - apply get_token_type_FIELD in Hty. by rewrite (HF _ Hin) in Hty.
    - apply get_token_type_NOOP in Hty. by rewrite (HN _ Hin) in Hty. }
  split; [intros tokens; by apply Hlex|].
  intros t. unfold parse, decode_string_from_bytes_if_needed, parse_tokens_top.
  destruct (get_tokens _) as [tokens|e] eqn:Htok; cbn [bind]; [|discriminate].
  apply Hlex in Htok; [|by rewrite !has_char_app, Hq].
  destruct (parse_tokens _ _ _ _ _ _) as [[c rest]|e] eqn:Hp; cbn [bind]; [|discriminate].
  intros [= ->]. by apply (parse_tokens_without_field_or_noop _ _ _ _ _ Htok) in Hp.
Qed.

Lemma placeholders_need_a_colon_witness :
  (forall tokens, get_tokens "foo and -bar" = Ok tokens -> Forall plain_token tokens)
  /\ (forall t, parse "foo and -bar" = Ok (Some t) -> without_field_or_noop t = true).
Proof. apply (placeholders_need_a_colon "foo and -bar"). reflexivity. Defined.

(** ** What the filters leave *)

Lemma drops_field_or_noop : drops_field_and_noop node_is_field_or_noop.
Proof. intros [] H; try done. cbn in H. by apply negb_false_iff in H. Qed.

Lemma drops_field_or_noop_or_not : drops_field_and_noop node_is_field_or_noop_or_not.
Proof. intros [] H; try done. cbn in H. by apply negb_false_iff in H. Qed.

Lemma filter_operands_emittable f operands :
  Forall (fun o => match o with
                   | Some x => never_filtered x = true ->
                       forall t', filter_tree f x = Ok (Some t') -> emittable t' = true
                   | None => True
                   end) operands ->
  forallb (fun o => match o with Some x => never_filtered x | None => true end) operands = true ->
  forall l, filter_operands (filter_tree f) operands = Ok l ->
  forallb (fun o => match o with Some x => emittable x | None => false end) l = true.
Proof.
  induction 1 as [|o operands Ho _ IH]; simpl; intros Hnf l.
  - by intros [= <-].
  - destruct o as [x|]; [|discriminate].
    apply andb_true_iff in Hnf as [Hx Hnf].
    destruct (filter_tree f x) as [r|e] eqn:Ex; cbn [bind]; [|discriminate].
    destruct (filter_operands (filter_tree f) operands) as [l'|e]; cbn [bind]; [|discriminate].
    specialize (IH Hnf l' eq_refl).
    destruct r as [t'|]; intros [= <-]; [|done].
    simpl. rewrite IH, (Ho Hx t' eq_refl). done.
Qed.

Lemma filter_tree_emittable f t :
  drops_field_and_noop f -> never_filtered t = true ->
  forall t', filter_tree f t = Ok (Some t') -> emittable t' = true.
Proof.
  intros Hf.
  induction t as [m term wildcard phrase|m operands IH|m operands IH|m operand IH
                 |m field operand IH|m] using node_induction;
    intros Hnf t'; cbn [filter_tree]; rewrite (never_filtered_memo _ _ Hnf);
    (destruct (fn_call f _) eqn:Hcall; [discriminate|]); apply Hf in Hcall.
  - by intros [= <-].
  - simpl in Hnf. apply andb_true_iff in Hnf as [_ Hnf].
    destruct (filter_operands _ operands) as [l|e] eqn:El; cbn [bind]; [|discriminate].
    destruct (0 <? length l) eqn:Hl; intros [= <-]. cbn [emittable]. rewrite Hl.
    by eapply filter_operands_emittable.
  - simpl in Hnf. apply andb_true_iff in Hnf as [_ Hnf].
    destruct (filter_operands _ operands) as [l|e] eqn:El; cbn [bind]; [|discriminate].
    destruct (0 <? length l) eqn:Hl; intros [= <-]. cbn [emittable]. rewrite Hl.
    by eapply filter_operands_emittable.
  - simpl in Hnf. apply andb_true_iff in Hnf as [_ Hnf].
    destruct (filter_tree _ operand) as [[o|]|e] eqn:Eo; cbn [bind]; try discriminate.
    intros [= <-]. simpl. by apply IH.
  - simpl in Hnf. apply andb_true_iff in Hnf as [_ Hnf].
    destruct (filter_tree _ operand) as [[o|]|e] eqn:Eo; cbn [bind]; try discriminate.
    intros [= <-]. simpl. rewrite Hcall. by apply IH.
  - done.
Qed.

(** X20.  What the two filters leave of a tree that carries no memo: no
    Noop node, no Field node but [sentence], no And or Or node without
    operands, and no missing operand. *)
Theorem filter_tree_leaves_emittable t :
  never_filtered t = true ->
  (forall t', filter_tree node_is_field_or_noop t = Ok (Some t') -> emittable t' = true)
  /\ (forall t', filter_tree node_is_field_or_noop_or_not t = Ok (Some t') ->
        emittable t' = true).
Proof.
  intros Hnf. split.
  - by apply filter_tree_emittable; [apply drops_field_or_noop|].
  - by apply filter_tree_emittable; [apply drops_field_or_noop_or_not|].
Qed.

Lemma filter_tree_leaves_emittable_witness :
  (forall t', filter_tree node_is_field_or_noop example_tree = Ok (Some t') ->
              emittable t' = true)
  /\ (forall t', filter_tree node_is_field_or_noop_or_not example_tree = Ok (Some t') ->
                 emittable t' = true).
Proof. apply (filter_tree_leaves_emittable example_tree). reflexivity. Defined.

(** *** The outcomes of [tsquery] and [re] *)

Lemma filter_operands_ok f operands :
  Forall (fun o => match o with
                   | Some x => never_filtered x = true -> complete x = true ->
                               exists r, filter_tree f x = Ok r
                   | None => True
                   end) operands ->
  forallb (fun o => match o with Some x => never_filtered x | None => true end) operands = true ->
  forallb (fun o => match o with Some x => complete x | None => false end) operands = true ->
  exists l, filter_operands (filter_tree f) operands = Ok l.
Proof.
  induction 1 as [|o operands Ho _ IH]; simpl; intros Hnf Hc; [by eexists|].
  destruct o as [x|]; [|discriminate].
  apply andb_true_iff in Hnf as [Hx Hnf]. apply andb_true_iff in Hc as [Hcx Hc].
  destruct (Ho Hx Hcx) as [r ->]. destruct (IH Hnf Hc) as [l ->]. cbn [bind].
  destruct r; by eexists.
Qed.

(** the filter raises nothing on a complete tree *)
Lemma filter_tree_ok f t :
  never_filtered t = true -> complete t = true -> exists r, filter_tree f t = Ok r.
Proof.
  induction t as [m term wildcard phrase|m operands IH|m operands IH|m operand IH
                 |m field operand IH|m] using node_induction;
    intros Hnf Hc; cbn [filter_tree]; rewrite (never_filtered_memo _ _ Hnf);
    (destruct (fn_call f _); [by eexists|]).
  - by eexists.
  - simpl in Hnf, Hc. apply andb_true_iff in Hnf as [_ Hnf]. apply andb_true_iff in Hc as [_ Hc].
    destruct (filter_operands_ok f _ IH Hnf Hc) as [l ->]. cbn [bind].
    destruct (0 <? length l); by eexists.
  - simpl in Hnf, Hc. apply andb_true_iff in Hnf as [_ Hnf]. apply andb_true_iff in Hc as [_ Hc].
    destruct (filter_operands_ok f _ IH Hnf Hc) as [l ->]. cbn [bind].
    destruct (0 <? length l); by eexists.
  - simpl in Hnf, Hc. apply andb_true_iff in Hnf as [_ Hnf].
    destruct (IH Hnf Hc) as [r ->]. cbn [bind]. destruct r; by eexists.
  - simpl in Hnf, Hc. apply andb_true_iff in Hnf as [_ Hnf].
    destruct (IH Hnf Hc) as [r ->]. cbn [bind]. destruct r; by eexists.
  - by eexists.
Qed.

Lemma filter_operands_without_phrase f operands :
  Forall (fun o => match o with
                   | Some x => never_filtered x = true -> without_phrase x = true ->
                       forall t', filter_tree f x = Ok (Some t') -> without_phrase t' = true
                   | None => True
                   end) operands ->
  forallb (fun o => match o with Some x => never_filtered x | None => true end) operands = true ->
  forallb (fun o => match o with Some x => without_phrase x | None => true end) operands = true ->
  forall l, filter_operands (filter_tree f) operands = Ok l ->
  forallb (fun o => match o with Some x => without_phrase x | None => true end) l = true.
Proof.
  induction 1 as [|o operands Ho _ IH]; simpl; intros Hnf Hp l.
  - by intros [= <-].
  - destruct o as [x|]; [|discriminate].
    apply andb_true_iff in Hnf as [Hx Hnf]. apply andb_true_iff in Hp as [Hpx Hp].
    destruct (filter_tree f x) as [r|e] eqn:Ex; cbn [bind]; [|discriminate].
    destruct (filter_operands (filter_tree f) operands) as [l'|e]; cbn [bind]; [|discriminate].
    specialize (IH Hnf Hp l' eq_refl).
    destruct r as [t'|]; intros [= <-]; [|done].
    simpl. rewrite IH, (Ho Hx Hpx t' eq_refl). done.
Qed.

Lemma filter_tree_without_phrase f t :
  never_filtered t = true -> without_phrase t = true ->
  forall t', filter_tree f t = Ok (Some t') -> without_phrase t' = true.
Proof.
  induction t as [m term wildcard phrase|m operands IH|m operands IH|m operand IH
                 |m field operand IH|m] using node_induction;
    intros Hnf Hp t'; cbn [filter_tree]; rewrite (never_filtered_memo _ _ Hnf);
    (destruct (fn_call f _); [discriminate|]).
  - by intros [= <-].
  - simpl in Hnf, Hp. apply andb_true_iff in Hnf as [_ Hnf].
    destruct (filter_operands _ operands) as [l|e] eqn:El; cbn [bind]; [|discriminate].
    destruct (0 <? length l); intros [= <-]. simpl.
    by eapply filter_operands_without_phrase.
  - simpl in Hnf, Hp. apply andb_true_iff in Hnf as [_ Hnf].
    destruct (filter_operands _ operands) as [l|e] eqn:El; cbn [bind]; [|discriminate].
    destruct (0 <? length l); intros [= <-]. simpl.
    by eapply filter_operands_without_phrase.
  - simpl in Hnf, Hp. apply andb_true_iff in Hnf as [_ Hnf].
    destruct (filter_tree _ operand) as [[o|]|e] eqn:Eo; cbn [bind]; try discriminate.
    intros [= <-]. simpl. by apply IH.
  - simpl in Hnf, Hp. apply andb_true_iff in Hnf as [_ Hnf].
    destruct (filter_tree _ operand) as [[o|]|e] eqn:Eo; cbn [bind]; try discriminate.
    intros [= <-]. simpl. by apply IH.
  - by intros [= <-].
Qed.

Lemma emit_operands_ok get operands :
  Forall (fun o => match o with
                   | Some x => emittable x = true -> without_phrase x = true ->
                               without_not x = true -> exists s, get x = Ok s
                   | None => True
                   end) operands ->
  forallb (fun o => match o with Some x => emittable x | None => false end) operands = true ->
  forallb (fun o => match o with Some x => without_phrase x | None => true end) operands = true ->
  forallb (fun o => match o with Some x => without_not x | None => true end) operands = true ->
  exists parts, emit_operands get operands = Ok parts.
Proof.
  induction 1 as [|o operands Ho _ IH]; simpl; intros He Hp Hn; [by eexists|].
  destruct o as [x|]; [|discriminate].
  apply andb_true_iff in He as [Hex He]. apply andb_true_iff in Hp as [Hpx Hp].
  apply andb_true_iff in Hn as [Hnx Hn].
  destruct (Ho Hex Hpx Hnx) as [s ->]. destruct (IH He Hp Hn) as [l ->]. by eexists.
Qed.

(** the regex emitter returns on what the regex filter leaves *)
Lemma get_re_ok t :
  emittable t = true -> without_phrase t = true -> without_not t = true ->
  exists s, get_re t = Ok s.
Proof.
  induction t as [m term wildcard phrase|m operands IH|m operands IH|m operand IH
                 |m field operand IH|m] using node_induction;
    intros He Hp Hn; cbn [get_re]; try discriminate.
  - simpl in Hp. apply negb_true_iff in Hp. subst phrase. by eexists.
  - simpl in He, Hp, Hn. apply andb_true_iff in He as [Hl He].
    clear m. revert He Hp Hn Hl.
    induction IH as [|o operands Ho Hops IHops]; [discriminate|].
    simpl. intros He Hp Hn _.
    destruct o as [x|]; [|discriminate].
    apply andb_true_iff in He as [Hex He]. apply andb_true_iff in Hp as [Hpx Hp].
    apply andb_true_iff in Hn as [Hnx Hn].
    destruct (Ho Hex Hpx Hnx) as [a Ha]. rewrite Ha.
    destruct operands as [|o' operands']; [by eexists|].
    destruct (IHops He Hp Hn eq_refl) as [b Hb].
    cbn [bind]. rewrite Hb. by eexists.
  - simpl in He, Hp, Hn. apply andb_true_iff in He as [_ He].
    destruct (emit_operands_ok get_re operands IH He Hp Hn) as [parts ->]. by eexists.
  - simpl in He, Hp, Hn. apply andb_true_iff in He as [-> He]. by apply IH.
Qed.

Lemma emit_operands_tsquery_ok operands :
  Forall (fun o => match o with
                   | Some x => emittable x = true -> without_phrase x = true ->
                               exists s, get_tsquery x = Ok s
                   | None => True
                   end) operands ->
  forallb (fun o => match o with Some x => emittable x | None => false end) operands = true ->
  forallb (fun o => match o with Some x => without_phrase x | None => true end) operands = true ->
  exists parts, emit_operands get_tsquery operands = Ok parts.
Proof.
  induction 1 as [|o operands Ho _ IH]; simpl; intros He Hp; [by eexists|].
  destruct o as [x|]; [|discriminate].
  apply andb_true_iff in He as [Hex He]. apply andb_true_iff in Hp as [Hpx Hp].
  destruct (Ho Hex Hpx) as [s ->]. destruct (IH He Hp) as [l ->]. by eexists.
Qed.

(** the tsquery emitter returns on what the tsquery filter leaves *)
Lemma get_tsquery_ok t :
  emittable t = true -> without_phrase t = true -> exists s, get_tsquery t = Ok s.
Proof.
  induction t as [m term wildcard phrase|m operands IH|m operands IH|m operand IH
                 |m field operand IH|m] using node_induction;
    intros He Hp; cbn [get_tsquery]; try discriminate.
  - simpl in Hp. apply negb_true_iff in Hp. subst phrase. by eexists.
  - simpl in He, Hp. apply andb_true_iff in He as [_ He].
    destruct (emit_operands_tsquery_ok operands IH He Hp) as [parts ->]. by eexists.
  - simpl in He, Hp. apply andb_true_iff in He as [_ He].
    destruct (emit_operands_tsquery_ok operands IH He Hp) as [parts ->]. by eexists.
  - simpl in He, Hp. destruct (IH He Hp) as [s ->]. by eexists.
  - simpl in He, Hp. apply andb_true_iff in He as [-> He]. by apply IH.
Qed.

(** X23.  On a tree without memo and without phrase, whose And and Or
    nodes have operands of which none is missing, [tsquery] and [re] return
    a text or raise the syntax error of the empty query: the branches of
    the emitters that raise for a Noop node, for a field that is not
    [sentence] and for a Not node are not reached. *)
Theorem emitters_return_or_report_empty t :
  never_filtered t = true -> complete t = true -> without_phrase t = true ->
  ((exists s, tsquery t = Ok s) \/ tsquery t = Err (ParseSyntaxError EmptyQuery))
  /\ ((exists s, re t = Ok s) \/ re t = Err (ParseSyntaxError EmptyQuery)).
Proof.
  intros Hnf Hc Hp. split.
  - unfold tsquery.
    destruct (filter_tree_ok node_is_field_or_noop t Hnf Hc) as [[t'|] Hf]; rewrite Hf; cbn [bind];
      [left|by right].
    apply get_tsquery_ok.
    + by eapply filter_tree_emittable; [apply drops_field_or_noop| |].
    + by eapply filter_tree_without_phrase.
  - unfold re.
    destruct (filter_tree_ok node_is_field_or_noop_or_not t Hnf Hc) as [[t'|] Hf]; rewrite Hf;
      cbn [bind]; [left|by right].
    apply get_re_ok.
    + by eapply filter_tree_emittable; [apply drops_field_or_noop_or_not| |].
    + by eapply filter_tree_without_phrase.
    + by eapply filter_tree_without_not.
Qed.

Lemma emitters_return_or_report_empty_witness :
  ((exists s, tsquery example_tree = Ok s)
   \/ tsquery example_tree = Err (ParseSyntaxError EmptyQuery))
  /\ ((exists s, re example_tree = Ok s)
      \/ re example_tree = Err (ParseSyntaxError EmptyQuery)).
Proof. apply (emitters_return_or_report_empty example_tree); reflexivity. Defined.

(** *** One filter after the other *)

Lemma filter_operands_twice operands :
  Forall (fun o => match o with
                   | Some x => never_filtered x = true ->
                       forall r, filter_tree node_is_field_or_noop x = Ok r ->
                       match r with
                       | Some x' => filter_tree node_is_field_or_noop_or_not x'
                                    = filter_tree node_is_field_or_noop_or_not x
                       | None => filter_tree node_is_field_or_noop_or_not x = Ok None
                       end
                   | None => True
                   end) operands ->
  forallb (fun o => match o with Some x => never_filtered x | None => true end) operands = true ->
  forall l, filter_operands (filter_tree node_is_field_or_noop) operands = Ok l ->
  filter_operands (filter_tree node_is_field_or_noop_or_not) l
  = filter_operands (filter_tree node_is_field_or_noop_or_not) operands.
Proof.
  induction 1 as [|o operands Ho _ IH]; simpl; intros Hnf l.
  - by intros [= <-].
  - destruct o as [x|]; [|discriminate].
    apply andb_true_iff in Hnf as [Hx Hnf].
    destruct (filter_tree node_is_field_or_noop x) as [r|e] eqn:Ex; cbn [bind]; [|discriminate].
    destruct (filter_operands (filter_tree node_is_field_or_noop) operands) as [l'|e];
      cbn [bind]; [|discriminate].
    specialize (IH Hnf l' eq_refl). specialize (Ho Hx r eq_refl).
    destruct r as [x'|]; intros [= <-].
    + cbn [filter_operands]. by rewrite Ho, IH.
    + rewrite Ho, IH. cbn [bind].
      by destruct (filter_operands (filter_tree node_is_field_or_noop_or_not) operands).
Qed.

Lemma filter_tree_twice t :
  never_filtered t = true ->
  forall r, filter_tree node_is_field_or_noop t = Ok r ->
  match r with
  | Some t' => filter_tree node_is_field_or_noop_or_not t'
               = filter_tree node_is_field_or_noop_or_not t
  | None => filter_tree node_is_field_or_noop_or_not t = Ok None
  end.
Proof.
  induction t as [m term wildcard phrase|m operands IH|m operands IH|m operand IH
                 |m field operand IH|m] using node_induction;
    intros Hnf r; cbn [filter_tree]; rewrite !(never_filtered_memo _ _ Hnf);
    cbn [fn_call node_is_field_or_noop node_is_field_or_noop_or_not].
  - by intros [= <-].
  - simpl in Hnf. apply andb_true_iff in Hnf as [_ Hnf].
    destruct (filter_operands _ operands) as [l|e] eqn:El; cbn [bind]; [|discriminate].
    assert (H2 := filter_operands_twice operands IH Hnf l El).
    destruct (0 <? length l) eqn:Hl; intros [= <-].
    + cbn [filter_tree filtered_by fn_call node_is_field_or_noop_or_not].
      change (memo_is (Some _) node_is_field_or_noop_or_not) with false. by rewrite H2.
    + destruct l; [|discriminate Hl]. by rewrite <- H2.
  - simpl in Hnf. apply andb_true_iff in Hnf as [_ Hnf].
    destruct (filter_operands _ operands) as [l|e] eqn:El; cbn [bind]; [|discriminate].
    assert (H2 := filter_operands_twice operands IH Hnf l El).
    destruct (0 <? length l) eqn:Hl; intros [= <-].
    + cbn [filter_tree filtered_by fn_call node_is_field_or_noop_or_not].
      change (memo_is (Some _) node_is_field_or_noop_or_not) with false. by rewrite H2.
    + destruct l; [|discriminate Hl]. by rewrite <- H2.
  - destruct (filter_tree _ operand) as [[o|]|e]; cbn [bind]; try discriminate;
      by intros [= <-].
  - simpl in Hnf. apply andb_true_iff in Hnf as [_ Hnf].
    destruct (negb _) eqn:Hs; [by intros [= <-]|].
    destruct (filter_tree node_is_field_or_noop operand) as [[o|]|e] eqn:Eo; cbn [bind];
      try discriminate; intros [= <-]; specialize (IH Hnf _ eq_refl).
    + cbn [filter_tree filtered_by fn_call node_is_field_or_noop_or_not].
      change (memo_is (Some _) node_is_field_or_noop_or_not) with false.
      by rewrite Hs, IH.
    + by rewrite IH.
  - by intros [= <-].
Qed.

(** X22.  The regex of a tree filtered for tsquery is the regex of the
    tree; and when that filter leaves nothing, the regex is the syntax
    error of the empty query. *)
Theorem re_after_tsquery_filter t :
  never_filtered t = true ->
  (forall t', filter_tree node_is_field_or_noop t = Ok (Some t') -> re t' = re t)
  /\ (filter_tree node_is_field_or_noop t = Ok None -> re t = Err (ParseSyntaxError EmptyQuery)).
Proof.
  intros Hnf. split.
  - intros t' Hr. apply (filter_tree_twice t Hnf) in Hr. unfold re. by rewrite Hr.
  - intros Hr. apply (filter_tree_twice t Hnf) in Hr. unfold re. by rewrite Hr.
Qed.

Lemma re_after_tsquery_filter_witness :
  (forall t', filter_tree node_is_field_or_noop example_tree = Ok (Some t') ->
              re t' = re example_tree)
  /\ (filter_tree node_is_field_or_noop example_tree = Ok None ->
      re example_tree = Err (ParseSyntaxError EmptyQuery)).
Proof. apply (re_after_tsquery_filter example_tree). reflexivity. Defined.

(** ** The regex emitter *)

(** *** The size of the regex of an And node *)

Lemma and_re_length a b :
  2 * String.length a + 2 * String.length b <= String.length (and_re a b).
Proof. unfold and_re. rewrite !string_length_app. lia. Qed.

Lemma emit_operands_length get operands parts :
  emit_operands get operands = Ok parts -> length parts = length operands.
Proof.
  revert parts. induction operands as [|o operands IH]; intros parts; simpl.
  - by intros [= <-].
  - destruct o as [x|]; [|discriminate].
    destruct (get x); cbn [bind]; [|discriminate].
    destruct (emit_operands get operands) as [rest|]; cbn [bind]; [|discriminate].
    intros [= <-]. simpl. by rewrite (IH rest).
Qed.

(** a regex is never empty *)
Lemma get_re_nonempty t : forall s, get_re t = Ok s -> 1 <= String.length s.
Proof.
  induction t as [m term wildcard phrase|m operands IH|m operands IH|m operand IH
                 |m field operand IH|m] using node_induction;
    intros s; cbn [get_re]; try discriminate.
  - unfold term_re. destruct phrase.
    + destruct (shlex_split_first term); cbn [bind]; [|discriminate].
      intros [= <-]. rewrite string_length_app. cbn [String.length]. lia.
    + intros [= <-]. rewrite string_length_app. cbn [String.length]. lia.
  - revert s. induction IH as [|o operands Ho Hops IHops]; intros s; [discriminate|].
    destruct o as [x|].
    + destruct operands as [|o' operands'].
      * by apply Ho.
      * destruct (get_re x) as [a|] eqn:Ea; cbn [bind]; [|discriminate].
        match goal with |- context [bind ?r _] => destruct r as [b|] eqn:Eb end;
          cbn [bind]; [|discriminate].
        intros [= <-]. assert (Hl := and_re_length a b). specialize (Ho a eq_refl). lia.
    + destruct operands; [discriminate|]. cbn [bind]. discriminate.
  - destruct (emit_operands get_re operands); cbn [bind]; [|discriminate].
    intros [= <-]. rewrite !string_length_app. cbn [String.length]. lia.
  - destruct (String.eqb field "sentence"); [by apply IH|discriminate].
Qed.

(** X25.  The regex of an And node of n operands is 2^(n-1) characters
    long at least: every operand but the last doubles it. *)
Theorem and_re_doubles m operands s :
  get_re (AndNode m operands) = Ok s -> 2 ^ (length operands - 1) <= String.length s.
Proof.
  cbn [get_re]. revert s.
  induction operands as [|o operands IH]; intros s; [discriminate|].
  destruct o as [x|].
  - destruct operands as [|o' operands'].
    + intros H. apply get_re_nonempty in H. simpl. lia.
    + destruct (get_re x) as [a|] eqn:Ea; cbn [bind]; [|discriminate].
      match goal with |- context [bind ?r _] => destruct r as [b|] eqn:Eb end;
        cbn [bind]; [|discriminate].
      intros [= <-]. specialize (IH b eq_refl).
      assert (Hl := and_re_length a b).
      cbn [length Nat.sub] in *. rewrite Nat.sub_0_r in *.
      rewrite Nat.pow_succ_r'. lia.
  - destruct operands; [discriminate|]. cbn [bind]. discriminate.
Qed.

Lemma and_re_doubles_witness :
  2 ^ (length [Term "a"; Term "b"; Term "c"] - 1) <= String.length example_and_re.
Proof.
  apply (and_re_doubles None [Term "a"; Term "b"; Term "c"] example_and_re). reflexivity.
Defined.

(** *** The regex of a phrase *)

Lemma join_cons sep w ws :
  ws <> [] -> join sep (w :: ws) = w +:+ sep +:+ join sep ws.
Proof. by destruct ws. Qed.

Lemma word_not_space c : is_word c = true -> is_space c = false.
Proof.
  unfold is_word, is_space, is_upper, is_lower, is_digit, between. intros H.
  destruct (code c =? 32) eqn:E1; [apply Nat.eqb_eq in E1; rewrite E1 in H; discriminate H|].
  cbn [orb]. apply orb_false_iff. split; apply andb_false_iff.
  - destruct (9 <=? code c) eqn:E2; [right|by left]. apply Nat.leb_gt.
    apply Nat.leb_le in E2.
    destruct (code c <=? 13) eqn:E3; [|by apply Nat.leb_gt in E3].
    apply Nat.leb_le in E3. exfalso.
    repeat (apply orb_true_iff in H as [H|H]);
      rewrite ?andb_true_iff, ?Nat.leb_le, ?Nat.eqb_eq in H; lia.
  - destruct (28 <=? code c) eqn:E2; [right|by left]. apply Nat.leb_gt.
    apply Nat.leb_le in E2.
    destruct (code c <=? 31) eqn:E3; [|by apply Nat.leb_gt in E3].
    apply Nat.leb_le in E3. exfalso.
    repeat (apply orb_true_iff in H as [H|H]);
      rewrite ?andb_true_iff, ?Nat.leb_le, ?Nat.eqb_eq in H; lia.
Qed.

Lemma sub_spaces_word new w rest :
  all_chars is_word w = true ->
  sub_spaces_from new (w +:+ rest) false = w +:+ sub_spaces_from new rest false.
Proof.
  induction w as [|c w IH]; [done|]. cbn [all_chars]. intros [Hc Hw]%andb_true_iff.
  rewrite !append_cons. cbn [sub_spaces_from]. by rewrite (word_not_space c Hc), (IH Hw).
Qed.

Lemma sub_spaces_word_any new w rest b :
  match_word w = true ->
  sub_spaces_from new (w +:+ rest) b = w +:+ sub_spaces_from new rest false.
Proof.
  unfold match_word. destruct w as [|c w]; [done|]. cbn [all_chars].
  intros [[Hc Hw]%andb_true_iff _]%andb_true_iff.
  rewrite !append_cons. cbn [sub_spaces_from]. rewrite (word_not_space c Hc).
  by rewrite sub_spaces_word.
Qed.

Lemma sub_spaces_words new ws :
  Forall (fun w => match_word w = true) ws ->
  forall b, sub_spaces_from new (join " " ws) b = join new ws.
Proof.
  induction 1 as [|w ws Hw Hws IH]; intros b; [done|].
  destruct ws as [|w' ws'].
  - cbn [join]. rewrite <- (append_nil_r w) at 1. rewrite sub_spaces_word_any by done.
    by rewrite append_nil_r.
  - rewrite !join_cons by done. rewrite sub_spaces_word_any by done.
    change (" " +:+ ?s) with (String " " s). cbn [sub_spaces_from].
    change (is_space " ") with true. cbn iota. by rewrite IH.
Qed.

Lemma lower_join sep ws : lower (join sep ws) = join (lower sep) (map lower ws).
Proof.
  induction ws as [|w ws IH]; [done|]. destruct ws as [|w' ws']; [done|].
  rewrite join_cons by done.
  change (map lower (w :: w' :: ws')) with (lower w :: lower w' :: map lower ws').
  rewrite (join_cons (lower sep)) by done. by rewrite !lower_app, IH.
Qed.

Lemma all_chars_join p sep ws :
  all_chars p sep = true -> Forall (fun w => all_chars p w = true) ws ->
  all_chars p (join sep ws) = true.
Proof.
  intros Hsep. induction 1 as [|w ws Hw Hws IH]; [done|]. destruct ws as [|w' ws']; [done|].
  rewrite join_cons by done. by rewrite !all_chars_app, Hw, Hsep, IH.
Qed.

Lemma replace_from_skip_app old new x rest :
  replace_from old new (String.length x) (x +:+ rest) = replace_from old new 0 rest.
Proof.
  induction x as [|c x IH]; [by rewrite append_nil_l|].
  rewrite append_cons. cbn [String.length replace_from]. exact IH.
Qed.

(** the text before the first occurrence stays *)
Lemma replace_absent_prefix u p new w rest :
  has_char u w = false ->
  replace_from (String u p) new 0 (w +:+ rest) = w +:+ replace_from (String u p) new 0 rest.
Proof.
  induction w as [|c w IH]; [done|]. cbn [has_char]. intros [Hc Hw]%orb_false_iff.
  rewrite !append_cons. cbn [replace_from startswith]. rewrite Hc. cbn [andb].
  by rewrite (IH Hw).
Qed.

Lemma replace_occurrence old new rest :
  old <> "" -> replace_from old new 0 (old +:+ rest) = new +:+ replace_from old new 0 rest.
Proof.
  intros Hne. destruct old as [|c old]; [done|].
  rewrite append_cons. cbn [replace_from]. rewrite <- append_cons, startswith_app.
  cbn [String.length Nat.sub]. rewrite Nat.sub_0_r. by rewrite replace_from_skip_app.
Qed.

Lemma replace_join u p new ws :
  Forall (fun w => has_char u w = false) ws ->
  replace (String u p) new (join (String u p) ws) = join new ws.
Proof.
  unfold replace. induction 1 as [|w ws Hw Hws IH]; [done|].
  destruct ws as [|w' ws'].
  - cbn [join]. rewrite <- (append_nil_r w) at 1. rewrite replace_absent_prefix by done.
    cbn [replace_from]. by rewrite append_nil_r.
  - rewrite !join_cons by done. rewrite replace_absent_prefix by done.
    by rewrite replace_occurrence, IH.
Qed.

(** X26.  The regex of a phrase of words with one blank between them: the
    word-start anchor, then the words in lower case joined by
    [[[:space:]]+]. *)
Theorem phrase_re m q ws wildcard :
  is_quote q = true -> Forall (fun w => match_word w = true) ws ->
  get_re (TermNode m (quoted q (join " " ws)) wildcard true)
  = Ok ("[[:<:]]" +:+ join "[[:space:]]+" (map lower ws)).
Proof.
  intros Hq Hws. cbn [get_re]. unfold term_re.
  assert (Hall : Forall (fun w => all_chars is_word w = true) ws).
  { eapply Forall_impl; [exact Hws|]. intros w Hw. by apply andb_true_iff in Hw as [? _]. }
  assert (Hbody : forall x, is_word x = false -> has_char x " " = false ->
                            has_char x (join " " ws) = false).
  { intros x Hx Hsp. clear Hws. induction Hall as [|w ws Hw _ IH]; [done|].
    destruct ws as [|w' ws']; [by apply word_has_char|].
    rewrite join_cons by done. by rewrite !has_char_app, (word_has_char x w), Hsp, IH. }
  assert (Hq' : is_word q = false /\ has_char q " " = false).
  { unfold is_quote in Hq. apply orb_true_iff in Hq as [H|H]; apply Nat.eqb_eq in H.
    - assert (q = ascii_of_nat 34) as -> by (apply code_inj; by rewrite H). done.
    - assert (q = ascii_of_nat 39) as -> by (apply code_inj; by rewrite H). done. }
  destruct Hq' as [Hqw Hqs].
  rewrite shlex_split_first_quoted; [|done|by apply Hbody|intros _; by apply Hbody].
  cbn [bind]. rewrite lower_join. change (lower " ") with " ".
  assert (Hlws : Forall (fun w => match_word w = true) (map lower ws)).
  { apply Forall_map. eapply Forall_impl; [exact Hws|]. intros w Hw.
    by rewrite match_word_lower_eq. }
  unfold sub_spaces. rewrite sub_spaces_words by done.
  rewrite re_escape_word.
  2:{ apply all_chars_join; [done|]. eapply Forall_impl; [exact Hlws|].
      intros w Hw. by apply andb_true_iff in Hw as [? _]. }
  rewrite (replace_join "S" "PACE"); [done|].
  apply Forall_map, Forall_forall. intros w _. apply no_upper_has_char; [|done].
  apply lower_no_upper.
Qed.

Lemma phrase_re_witness :
  get_re (TermNode None (quoted dquote "Hello big world") false true)
  = Ok "[[:<:]]hello[[:space:]]+big[[:space:]]+world".
Proof.
  apply (phrase_re None dquote ["Hello"; "big"; "world"] false); [reflexivity|].
  repeat constructor.
Defined.

(** ** Chains of one operator *)

Lemma chain_node_boolean t terms w :
  terms <> [] ->
  chain_node t (terms ++ [w])
  = mk_boolean t None (map (fun w => Some (term_clause w)) (terms ++ [w])).
Proof. destruct terms as [|w1 [|w2 terms]]; done. Qed.

Lemma forallb_terms terms :
  forallb (fun o : option node => match o with Some _ => true | None => false end)
    (map (fun w => Some (term_clause w)) terms) = true.
Proof. by induction terms. Qed.

(** an operator after a chain: the node of the chain, ready for its next
    operand *)
Lemma chain_operator t terms :
  terms <> [] ->
  (if bool_decide (boolean_type_of (Some (chain_node t terms)) = Some t)
   then BooleanNode_init t (operands_of (Some (chain_node t terms)))
   else BooleanNode_init t [Some (chain_node t terms)])
  = Ok (mk_boolean t None (map (fun w => Some (term_clause w)) terms)).
Proof.
  intros Hne. destruct terms as [|w1 [|w2 terms]]; [done| |].
  - by destruct t.
  - unfold chain_node. destruct t; cbn [mk_boolean boolean_type_of operands_of];
      rewrite bool_decide_eq_true_2 by done; unfold BooleanNode_init;
      by rewrite forallb_terms.
Qed.

Lemma step_operator fuel t tokens clause :
  parse_tokens (S fuel) (operator_token t :: tokens) (WANT_OPERATOR ++ [T_CLOSE])
    (Some clause) None false
  = let! c := (if bool_decide (boolean_type_of (Some clause) = Some t)
               then BooleanNode_init t (operands_of (Some clause))
               else BooleanNode_init t [Some clause]) in
    parse_tokens fuel tokens (WANT_OPERAND ++ [T_CLOSE]) (Some c) None true.
Proof. destruct t; reflexivity. Qed.

Lemma step_operand fuel w tokens b :
  parse_tokens (S fuel) (tok w T_TERM :: tokens) (WANT_OPERAND ++ [T_CLOSE]) (Some b) None true
  = parse_tokens fuel tokens (WANT_OPERATOR ++ [T_CLOSE])
      (append_operand (Some b) (Some (term_clause w))) None false.
Proof. reflexivity. Qed.

Lemma append_term t ops w :
  append_operand (Some (mk_boolean t None ops)) (Some (term_clause w))
  = Some (mk_boolean t None (ops ++ [Some (term_clause w)])).
Proof. by destruct t. Qed.

Lemma chain_loop t : forall terms fuel done_terms rest,
  done_terms <> [] -> 2 * length terms < fuel ->
  parse_tokens fuel (chain_tokens t terms ++ tok ")" T_CLOSE :: rest)
    (WANT_OPERATOR ++ [T_CLOSE]) (Some (chain_node t done_terms)) None false
  = Ok (Some (chain_node t (done_terms ++ terms)), rest).
Proof.
  induction terms as [|w terms IH]; intros fuel done_terms rest Hne Hfuel.
  - destruct fuel as [|fuel]; [simpl in Hfuel; lia|]. rewrite app_nil_r. reflexivity.
  - destruct fuel as [|[|fuel]]; [simpl in Hfuel; lia..|].
    cbn [chain_tokens app].
    rewrite step_operator, chain_operator by done. cbn [bind].
    rewrite step_operand, append_term.
    change [Some (term_clause w)] with (map (fun w => Some (term_clause w)) [w]).
    rewrite <- map_app, <- chain_node_boolean by done.
    rewrite IH; [by rewrite <- app_assoc|by destruct done_terms|simpl in Hfuel; lia].
Qed.

(** a group that holds a chain of terms *)
Lemma parse_chain t w terms :
  parse_tokens_top (tok "(" T_OPEN :: tok w T_TERM :: chain_tokens t terms ++ [tok ")" T_CLOSE])
  = Ok (Some (chain_node t (w :: terms))).
Proof.
  unfold parse_tokens_top, enough_fuel.
  cbn [length]. rewrite List.length_app. cbn [length].
  replace (2 * S (S (length (chain_tokens t terms) + 1)) + 2)
    with (S (S (S (2 * length (chain_tokens t terms) + 5)))) by lia.
  set (fuel := 2 * length (chain_tokens t terms) + 5).
  assert (Hstart : forall tokens,
    parse_tokens (S (S (S fuel))) (tok "(" T_OPEN :: tok w T_TERM :: tokens) WANT_START
      None None false
    = let! (clause, tokens) :=
        parse_tokens (S fuel) tokens (WANT_OPERATOR ++ [T_CLOSE]) (Some (term_clause w)) None false in
      parse_tokens (S (S fuel)) tokens (WANT_AFTER_GROUP ++ [T_CLOSE]) clause None false)
    by reflexivity.
  rewrite Hstart.
  change (Some (term_clause w)) with (Some (chain_node t [w])).
  rewrite (chain_loop t terms (S fuel) [w] []); [done|done|].
  assert (length terms <= length (chain_tokens t terms)).
  { clear. induction terms; simpl; lia. }
  unfold fuel. lia.
Qed.


Lemma render_app ls ls' : render (ls ++ ls') = render ls +:+ render ls'.
Proof.
  induction ls as [|[w|c|] ls IH]; cbn [app render]; [done|..]; rewrite IH;
    by rewrite ?append_assoc, ?append_cons.
Qed.

Lemma render_chain t : forall terms w,
  render (Word w :: chain_lexemes t terms)
  = join (" " +:+ plain_connector t +:+ " ") (w :: terms).
Proof.
  induction terms as [|w' terms IH]; intros w.
  - cbn [chain_lexemes render join]. by rewrite append_nil_r.
  - rewrite join_cons by done. rewrite <- IH. cbn [chain_lexemes render].
    by rewrite !append_assoc.
Qed.

Lemma lexemes_fit_chain t : forall terms w tail,
  Forall (fun w => is_name w = true) (w :: terms) ->
  lexemes_fit (Blank :: tail) = true ->
  lexemes_fit (Word w :: chain_lexemes t terms ++ Blank :: tail) = true.
Proof.
  induction terms as [|w' terms IH]; intros w tail Hws Htail;
    apply Forall_cons in Hws as [Hw Hws].
  - cbn [chain_lexemes app lexemes_fit] in *. by rewrite Hw, Htail.
  - cbn [chain_lexemes app].
    change (lexemes_fit (Word w :: Blank :: Word (plain_connector t) :: Blank :: ?l))
      with (is_name w && true && (is_name (plain_connector t) && true && lexemes_fit l)).
    rewrite Hw, (IH w' tail Hws Htail). by destruct t.
Qed.

Lemma level_chain t terms tail : level (chain_lexemes t terms ++ tail) = level tail.
Proof. induction terms as [|w terms IH]; [done|]. exact IH. Qed.

Lemma classify_chain t : forall terms tail tokens,
  Forall (fun w => get_token_type w = Ok T_TERM) terms ->
  classify (texts tail) = Ok tokens ->
  classify (texts (chain_lexemes t terms ++ tail)) = Ok (chain_tokens t terms ++ tokens).
Proof.
  induction terms as [|w terms IH]; intros tail tokens Hws Htail; [done|].
  apply Forall_cons in Hws as [Hw Hws].
  cbn [chain_lexemes app texts chain_tokens].
  assert (Hlen : (0 <? String.length w) = true).
  { apply term_is_word in Hw. by apply andb_true_iff in Hw as [_ ?]. }
  cbn [classify]. rewrite Hlen, Hw, (IH tail tokens Hws Htail). by destruct t.
Qed.

Lemma filter_operands_terms terms :
  filter_operands (filter_tree node_is_field_or_noop) (map Term terms)
  = Ok (map (fun w => Some (TermNode (Some 0) w false false)) terms).
Proof. induction terms as [|w terms IH]; [done|]. cbn [map]. simpl. by rewrite IH. Qed.

Lemma emit_filtered_terms terms :
  emit_operands get_tsquery (map (fun w => Some (TermNode (Some 0) w false false)) terms)
  = Ok terms.
Proof. induction terms as [|w terms IH]; simpl; [done|]. by rewrite IH. Qed.

Lemma tsquery_chain t w terms :
  tsquery (mk_boolean t None (map Term (w :: terms)))
  = Ok ("( " +:+ join (" " +:+ tsquery_connector t +:+ " ") (w :: terms) +:+ " )").
Proof.
  unfold tsquery.
  assert (Hf : filter_tree node_is_field_or_noop (mk_boolean t None (map Term (w :: terms)))
             = Ok (Some (mk_boolean t (Some 0)
                           (map (fun w => Some (TermNode (Some 0) w false false)) (w :: terms))))).
  { destruct t; cbn [mk_boolean filter_tree filtered_by];
      change (memo_is None node_is_field_or_noop) with false; cbn [fn_call node_is_field_or_noop];
      by rewrite filter_operands_terms. }
  rewrite Hf. cbn [bind].
  destruct t; cbn [mk_boolean get_tsquery]; by rewrite emit_filtered_terms.
Qed.

(** X14.  A chain of terms joined by one operator parses to one node over
    all the terms in their order, whatever its length; its tsquery is the
    terms joined by [&] or [|] between parentheses. *)
Theorem operator_chain_is_one_node t a b terms :
  Forall (fun w => is_term_name w = true) (a :: b :: terms) ->
  parse (join (" " +:+ plain_connector t +:+ " ") (a :: b :: terms))
  = Ok (Some (mk_boolean t None (map (fun w => Term (lower w)) (a :: b :: terms))))
  /\ call tsquery (parse (join (" " +:+ plain_connector t +:+ " ") (a :: b :: terms)))
     = Ok ("( " +:+ join (" " +:+ tsquery_connector t +:+ " ") (map lower (a :: b :: terms))
           +:+ " )").
Proof.
  intros Hws.
  assert (Hparse : parse (join (" " +:+ plain_connector t +:+ " ") (a :: b :: terms))
    = Ok (Some (mk_boolean t None (map (fun w => Term (lower w)) (a :: b :: terms))))); [|
    split; [exact Hparse|]; rewrite Hparse; cbn [call bind];
    rewrite <- (map_map lower Term); exact (tsquery_chain t (lower a) (map lower (b :: terms)))].
  assert (Hty : Forall (fun w => get_token_type w = Ok T_TERM) (map lower (a :: b :: terms))).
  { apply Forall_map. eapply Forall_impl; [exact Hws|]. intros w Hw.
    by apply is_term_name_spec in Hw as (? & _). }
  assert (Hmw : Forall (fun w => match_word w = true) (map lower (a :: b :: terms))).
  { eapply Forall_impl; [exact Hty|]. intros w Hw. by apply term_is_word. }
  assert (Hnm : Forall (fun w => is_name w = true) (map lower (a :: b :: terms))).
  { apply Forall_map. eapply Forall_impl; [exact Hws|]. intros w Hw.
    by apply is_term_name_name. }
  assert (Hpl : Forall (fun w => plain w = true) (map lower (a :: b :: terms))).
  { eapply Forall_impl; [exact Hmw|]. intros w [Hw _]%andb_true_iff. by apply word_plain. }
  assert (Htok : get_tokens ("( " +:+ join (" " +:+ plain_connector t +:+ " ") (a :: b :: terms)
                             +:+ " )")
    = Ok (tok "(" T_OPEN :: tok (lower a) T_TERM
          :: chain_tokens t (map lower (b :: terms)) ++ [tok ")" T_CLOSE])).
  { rewrite (get_tokens_lexemes _
      (Sym "(" :: Blank :: Word (lower a)
       :: chain_lexemes t (map lower (b :: terms)) ++ [Blank; Sym ")"])).
    - apply Forall_cons in Hty as [Ha Hty].
      assert (Hlen : (0 <? String.length (lower a)) = true).
      { apply term_is_word in Ha. by apply andb_true_iff in Ha as [_ ?]. }
      cbn [texts classify].
      change (0 <? String.length "(") with true. cbn iota.
      change (get_token_type "(") with (@Ok token_kind T_OPEN). cbn [bind].
      rewrite Hlen, Ha. cbn [bind].
      by rewrite (classify_chain t _ [Blank; Sym ")"] [tok ")" T_CLOSE]).
    - assert (Hlow : lower (join (" " +:+ plain_connector t +:+ " ") (a :: b :: terms))
                     = join (" " +:+ plain_connector t +:+ " ") (map lower (a :: b :: terms))).
      { rewrite lower_join. by destruct t. }
      rewrite normalize_plain; rewrite !lower_app, Hlow.
      + change (lower "( ") with "( ". change (lower " )") with " )".
        change (Sym "(" :: Blank :: Word (lower a)
                :: chain_lexemes t (map lower (b :: terms)) ++ [Blank; Sym ")"])
          with ([Sym "("; Blank]
                ++ (Word (lower a) :: chain_lexemes t (map lower (b :: terms)))
                ++ [Blank; Sym ")"]).
        by rewrite !render_app, render_chain.
      + rewrite !plain_app. cbn [andb]. rewrite andb_true_r.
        apply all_chars_join; [by destruct t|done].
    - apply lexemes_ok_intro; [reflexivity| |].
      + change (lexemes_fit (Sym "(" :: Blank :: ?l)) with (lexemes_fit l).
        by apply lexemes_fit_chain.
      + cbn [level]. by rewrite level_chain. }
  unfold parse, decode_string_from_bytes_if_needed. rewrite Htok. cbn [bind].
  rewrite parse_chain. unfold chain_node.
  change (lower a :: map lower (b :: terms)) with (map lower (a :: b :: terms)).
  rewrite map_map. do 3 f_equal. apply map_ext. intros w. by rewrite term_clause_lower.
Qed.

Lemma operator_chain_is_one_node_witness :
  parse "a and b and c and d"
  = Ok (Some (AndNode None [Term "a"; Term "b"; Term "c"; Term "d"]))
  /\ call tsquery (parse "a and b and c and d") = Ok "( a & b & c & d )".
Proof.
  apply (operator_chain_is_one_node AndType "a" "b" ["c"; "d"]).
  repeat constructor.
Defined.

(** ** Fuel, and the pops of the parser *)

(** *** More fuel changes nothing *)


Ltac mono_call Hext rec :=
  match goal with
  | Hr : context [rec ?t ?w ?c ?b ?h] |- _ =>
      let E := fresh "E" in
      let H := fresh "H" in
      assert (H := Hext t w c b h);
      destruct (rec t w c b h) as [[? ?]|[]] eqn:E; cbn [bind] in Hr |- *;
      try (exfalso; apply Hr; reflexivity);
      rewrite H by discriminate; cbn [bind]; clear H
  | |- context [check_type ?t ?w] => destruct (check_type t w); cbn [bind] in *; [ | reflexivity ]
  | |- context [NotNode_init ?o] => destruct (NotNode_init o); cbn [bind] in *; [ | reflexivity ]
  | |- context [FieldNode_init ?f ?o] =>
      destruct (FieldNode_init f o); cbn [bind] in *; [ | reflexivity ]
  | |- context [BooleanNode_init ?t ?o] =>
      destruct (BooleanNode_init t o); cbn [bind] in *; [ | reflexivity ]
  | |- context [match ?l with [] => Err IndexError | _ :: _ => _ end] =>
      destruct l; [ reflexivity | ]
  | |- context [if bool_decide ?P then _ else _] => destruct (bool_decide P)
  end.

Lemma parse_iteration_extends rec rec' :
  extends rec rec' -> extends (parse_iteration rec) (parse_iteration rec').
Proof.
  intros Hext tokens want clause bc hanging Hr.
  unfold parse_iteration in *.
  destruct tokens as [|token tokens]; [reflexivity|].
  destruct (bool_decide (token_type token = T_PLUS) && _).
  { by apply Hext. }
  destruct hanging;
    [ | destruct (_ && kind_in _ [T_OPEN; T_PHRASE; T_TERM; T_NOOP; T_FIELD]);
        [ | destruct (_ && kind_in _ [T_NOT]) ] ];
    cbn [token_type] in *.
  - mono_call Hext rec. destruct (token_type token); repeat mono_call Hext rec; try reflexivity;
      try (by apply Hext).
  - repeat mono_call Hext rec; try reflexivity; try (by apply Hext).
  - repeat mono_call Hext rec; try reflexivity; try (by apply Hext).
  - mono_call Hext rec. destruct (token_type token); repeat mono_call Hext rec; try reflexivity;
      try (by apply Hext).
Qed.

Lemma parse_tokens_extends fuel : extends (parse_tokens fuel) (parse_tokens (S fuel)).
Proof.
  induction fuel as [|fuel IH]; [by intros tokens want clause bc hanging H|].
  by apply parse_iteration_extends.
Qed.

Lemma parse_tokens_more_fuel fuel fuel' :
  fuel <= fuel' -> extends (parse_tokens fuel) (parse_tokens fuel').
Proof.
  induction 1 as [|fuel' _ IH]; [by intros tokens want clause bc hanging H|].
  intros tokens want clause bc hanging H.
  rewrite <- (IH _ _ _ _ _ H). apply parse_tokens_extends. by rewrite (IH _ _ _ _ _ H).
Qed.

(** X9.  The parser ends: on n tokens, a call of [__parse_tokens] is
    through after 2n+2 loop iterations and nested calls at most, whatever
    the tokens are (an iteration that pushes its token back sets the
    hanging flag for the next one); with more fuel the embedding returns
    the same. *)
Theorem parse_tokens_terminates tokens want fuel :
  enough_fuel tokens <= fuel ->
  parse_tokens fuel tokens want None None false
  = parse_tokens (enough_fuel tokens) tokens want None None false
  /\ parse_tokens fuel tokens want None None false <> Err OutOfFuel.
Proof.
  intros Hfuel.
  assert (Heq := parse_tokens_more_fuel _ _ Hfuel tokens want None None false
                   (parse_tokens_fuel tokens want)).
  split; [done|]. rewrite Heq. apply parse_tokens_fuel.
Qed.

Lemma parse_tokens_terminates_witness :
  parse_tokens 100 [tok "(" T_OPEN; tok "a" T_TERM; tok "b" T_TERM; tok ")" T_CLOSE]
    WANT_START None None false
  = parse_tokens 10 [tok "(" T_OPEN; tok "a" T_TERM; tok "b" T_TERM; tok ")" T_CLOSE]
      WANT_START None None false
  /\ parse_tokens 100 [tok "(" T_OPEN; tok "a" T_TERM; tok "b" T_TERM; tok ")" T_CLOSE]
       WANT_START None None false <> Err OutOfFuel.
Proof.
  apply (parse_tokens_terminates
           [tok "(" T_OPEN; tok "a" T_TERM; tok "b" T_TERM; tok ")" T_CLOSE] WANT_START 100).
  unfold enough_fuel. simpl. lia.
Defined.

(** *** No pop from an empty list, whatever the query *)

Lemma word_run_suffix s :
  word_run (s +:+ " )") = (fst (word_run s), snd (word_run s) +:+ " )").
Proof.
  induction s as [|c s IH]; [done|]. rewrite append_cons. cbn [word_run].
  destruct (is_word c); [|done]. rewrite IH. by destruct (word_run s).
Qed.

Lemma word_run_length s :
  String.length s = fst (word_run s) + String.length (snd (word_run s)).
Proof.
  induction s as [|c s IH]; [done|]. cbn [word_run].
  destruct (is_word c); [|done]. destruct (word_run s). cbn [fst snd String.length] in *. lia.
Qed.

Lemma find_char_suffix r k :
  find_char "]" (r +:+ " )") = Some k -> k < String.length r.
Proof.
  revert k. induction r as [|c r IH]; intros k; [discriminate|].
  rewrite append_cons. cbn [find_char String.length].
  destruct (Ascii.eqb "]" c); [intros [= <-]; lia|].
  destruct (find_char "]" (r +:+ " )")) as [k'|]; [|discriminate].
  intros [= <-]. specialize (IH k' eq_refl). lia.
Qed.

(** a range ends before the parenthesis that [parse] appends *)
Lemma range_length_suffix s n :
  range_length (s +:+ " )") = Some n -> n <= String.length s.
Proof.
  unfold range_length. rewrite word_run_suffix.
  assert (Hlen := word_run_length s).
  destruct (word_run s) as [k r]. cbn [fst snd] in *.
  destruct k as [|k]; [discriminate|].
  destruct r as [|a [|b r]]; rewrite ?append_cons, ?append_nil_l; try discriminate.
  - change ((code ":" =? 58) && (code " " =? 91)) with false.
    destruct ((code a =? 58) && (code " " =? 91)) eqn:E; [|discriminate].
    apply andb_true_iff in E as [_ E]. discriminate E.
  - destruct ((code a =? 58) && (code b =? 91)); [|discriminate].
    destruct (find_char "]" (r +:+ " )")) as [j|] eqn:Ej; [|discriminate].
    apply find_char_suffix in Ej. intros [= <-]. cbn [String.length] in Hlen. lia.
Qed.

Lemma sub_ranges_suffix new y : forall k,
  k <= String.length y -> exists z, sub_ranges_from new k (y +:+ " )") = z +:+ " )".
Proof.
  induction y as [|c y IH]; intros k Hk.
  - cbn [String.length] in Hk. assert (k = 0) as -> by lia. by exists "".
  - rewrite append_cons. cbn [sub_ranges_from]. destruct k as [|k].
    + rewrite <- append_cons.
      destruct (range_length (String c y +:+ " )")) as [n|] eqn:En.
      * apply range_length_suffix in En. cbn [String.length] in En.
        destruct (IH (n - 1)) as [z Hz]; [lia|]. rewrite Hz.
        exists (new +:+ z). by rewrite append_assoc.
      * destruct (IH 0) as [z Hz]; [lia|]. rewrite Hz. by exists (String c z).
    + cbn [String.length] in Hk. apply IH. lia.
Qed.

(** the normalized query ends with the parenthesis that [parse] appends *)
Lemma normalize_suffix query :
  exists z, normalize ("( " +:+ query +:+ " )") = z +:+ " )".
Proof.
  rewrite normalize_folded, <- append_assoc, folded_app.
  change (folded " )") with " )".
  destruct (sub_ranges_suffix NOOP_PLACEHOLDER (folded ("( " +:+ query)) 0) as [z Hz]; [lia|].
  unfold sub_ranges. rewrite Hz, !replace_char_app. by eexists.
Qed.


(** *** Matches are not empty *)

Lemma digit_part_positive s n : digit_part s = Some n -> 0 < n.
Proof.
  unfold digit_part. destruct s as [|c s]; [done|]. destruct (is_digit c); [|done].
  intros [= <-]. lia.
Qed.

Lemma maybe_at_least pattern n s : n <= maybe pattern n s.
Proof. unfold maybe. lia. Qed.

Lemma point_float_positive s n : point_float s = Some n -> 0 < n.
Proof.
  unfold point_float. destruct (digit_part s) as [k|] eqn:Ek.
  - destruct (str_drop k s) as [|point r]; [done|]. destruct (has_char point "."); [|done].
    cbn [option_map]. intros [= <-].
    assert (H1 := maybe_at_least digit_part (S k) s).
    assert (H2 := maybe_at_least exponent (maybe digit_part (S k) s) s). lia.
  - destruct s as [|point r]; [done|]. destruct (has_char point "."); [|done].
    destruct (digit_part r) as [k|]; [|done]. cbn [option_map]. intros [= <-].
    assert (H2 := maybe_at_least exponent (S k) (String point r)). lia.
Qed.

Lemma exp_float_positive s n : exp_float s = Some n -> 0 < n.
Proof.
  unfold exp_float. destruct (digit_part s) as [k|] eqn:Ek; [|done].
  apply digit_part_positive in Ek. destruct (exponent _); [|done].
  cbn [option_map]. intros [= <-]. lia.
Qed.

Lemma float_number_positive s n : float_number s = Some n -> 0 < n.
Proof.
  unfold float_number. destruct (point_float s) as [k|] eqn:Ek; cbn [orelse].
  - intros [= <-]. by eapply point_float_positive.
  - apply exp_float_positive.
Qed.

Lemma imaginary_positive pattern s n : imaginary pattern s = Some n -> 0 < n.
Proof.
  unfold imaginary. destruct (pattern s) as [k|]; [|done].
  destruct (str_drop k s) as [|j r]; [done|]. destruct (has_char j "jJ"); [|done].
  intros [= <-]. lia.
Qed.

Lemma based_number_positive marks class s n : based_number marks class s = Some n -> 0 < n.
Proof.
  unfold based_number. destruct s as [|zero [|mark s]]; try done.
  destruct (_ && _); [|done]. destruct (digits_more class s); [done|].
  intros [= <-]. lia.
Qed.

Lemma dec_number_positive s n : dec_number s = Some n -> 0 < n.
Proof.
  unfold dec_number. destruct s as [|c s]; [done|].
  destruct (code c =? 48); [intros [= <-]; lia|].
  destruct (is_digit c); [intros [= <-]; lia|done].
Qed.

Lemma orelse_positive a b n :
  (forall k, a = Some k -> 0 < k) -> (forall k, b = Some k -> 0 < k) ->
  orelse a b = Some n -> 0 < n.
Proof. intros Ha Hb. destruct a as [k|]; cbn [orelse]; [by apply Ha|by apply Hb]. Qed.

Lemma number_positive s n : number s = Some n -> 0 < n.
Proof.
  unfold number, imag_number, int_number.
  repeat (apply orelse_positive; intros ?);
    eauto using imaginary_positive, float_number_positive, point_float_positive,
      exp_float_positive, based_number_positive, dec_number_positive.
Qed.

Lemma special_positive s n : special s = Some n -> 0 < n.
Proof.
  unfold special. destruct (find _ EXACT_TOKENS) as [operator|] eqn:Ef; [|done].
  apply find_some in Ef as [Hin _]. cbn [option_map]. intros [= <-].
  unfold EXACT_TOKENS in Hin. cbn [In] in Hin.
  repeat (destruct Hin as [<-|Hin]; [cbn; lia|]). done.
Qed.

Lemma funny_positive s n : funny s = Some n -> 0 < n.
Proof.
  unfold funny. destruct (startswith _ s); [intros [= <-]; lia|].
  destruct (startswith _ s); [intros [= <-]; lia|]. apply special_positive.
Qed.

Lemma cont_str_positive s n : cont_str s = Some n -> 0 < n.
Proof.
  unfold cont_str. destruct (string_start s) as [[p q]|]; [|done].
  destruct (end_of_string _ _); [|done]. cbn [option_map]. intros [= <-]. lia.
Qed.

Lemma name_positive s n : name s = Some n -> 0 < n.
Proof. unfold name. destruct (span is_word s); [done|]. intros [= <-]. lia. Qed.

Lemma comment_positive s n : comment s = Some n -> 0 < n.
Proof.
  unfold comment. destruct s as [|c s]; [done|]. destruct (code c =? 35); [|done].
  intros [= <-]. lia.
Qed.

Lemma triple_positive s n : triple s = Some n -> 0 < n.
Proof.
  unfold triple. destruct (string_start s) as [[p q]|]; [|done].
  destruct (startswith _ _); [|done]. intros [= <-]. lia.
Qed.

(** where the match is empty, the line is at its end *)
Lemma pseudo_token_empty s start len :
  pseudo_token s = Some (start, len) ->
  start = span is_whitespace s /\ (len = 0 -> str_drop start s = "").
Proof.
  unfold pseudo_token. cbn zeta.
  destruct (orelse _ _) as [n|] eqn:En; [|done]. cbn [option_map]. intros [= <- <-].
  split; [done|]. intros ->.
  destruct (str_drop (span is_whitespace s) s) as [|d r]; [done|].
  exfalso. revert En. cbn [pseudo_extras].
  intros En. apply (Nat.lt_irrefl 0). revert En.
  repeat (apply orelse_positive; intros ?);
    eauto using comment_positive, triple_positive, number_positive, funny_positive,
      cont_str_positive, name_positive, imaginary_positive, float_number_positive,
      point_float_positive, exp_float_positive, based_number_positive, dec_number_positive.
Qed.

(** *** The last token of a line that ends with a parenthesis *)

Lemma closes_drop s : forall k,
  closes s -> str_drop k s = "" \/ closes (str_drop k s).
Proof.
  intros k [y ->]. revert k. induction y as [|c y IH]; intros k.
  - destruct k as [|k]; [right; by exists ""|left; by destruct k].
  - destruct k as [|k]; [right; by exists (String c y)|]. apply IH.
Qed.

Lemma closes_span s : closes s -> closes (str_drop (span is_whitespace s) s).
Proof.
  intros [y ->]. induction y as [|c y IH]; [by exists ""|].
  rewrite append_cons. cbn [span]. destruct (is_whitespace c); [exact IH|].
  by exists (String c y).
Qed.

Lemma closes_nonempty s : closes s -> s <> "".
Proof. intros [y ->]. by destruct y. Qed.

Lemma str_take_all n : forall s, str_drop n s = "" -> str_take n s = s.
Proof.
  induction n as [|n IH]; intros s; [destruct s; by intros [=]|].
  destruct s as [|c s]; [done|].
  cbn [str_drop str_take]. intros H. by rewrite IH.
Qed.

(** the token that reaches the end of the line ends as the line does *)
Lemma token_at_end s start len :
  closes s -> start = span is_whitespace s -> str_drop (start + len) s = "" ->
  closes (str_take len (str_drop start s)).
Proof.
  intros Hs -> Hd. rewrite str_take_all by (by rewrite str_drop_drop).
  by apply closes_span.
Qed.

(** On a line that ends with a closing parenthesis, where the tokenizer
    does not raise, the last token before the tokens that close the stream
    ends with that parenthesis. *)
Lemma tokenize_from_last s : forall skip parenlev closing,
  closes (str_drop skip s) ->
  raised (tokenize_from s skip parenlev closing) = None ->
  exists raw token,
    yielded (tokenize_from s skip parenlev closing) = raw ++ token :: closing /\ closes token.
Proof.
  induction s as [|c s IH]; intros skip parenlev closing Hs Hr.
  { rewrite str_drop_nil in Hs. by apply closes_nonempty in Hs. }
  destruct skip as [|skip]; [|by apply IH].
  cbn [str_drop] in Hs. cbn [tokenize_from] in *.
  assert (Hnext : forall k lev token,
    str_drop k (String c s) <> String c s ->
    (str_drop k (String c s) = "" -> closes token) ->
    raised (tokenize_from s (k - 1) lev closing) = None ->
    exists raw token',
      token :: yielded (tokenize_from s (k - 1) lev closing) = raw ++ token' :: closing
      /\ closes token').
  { intros k lev token Hk Htoken Hraised. destruct k as [|k]; [done|].
    cbn [str_drop] in *. replace (S k - 1) with k in * by lia.
    destruct (closes_drop _ (S k) Hs) as [Hd|Hd]; cbn [str_drop] in Hd.
    - rewrite tokenize_from_skip, Hd in *. cbn [tokenize_from] in *.
      unfold end_of_input in *. destruct (parenlev =? 0)%Z eqn:E;
        destruct (lev =? 0)%Z; try discriminate Hraised.
      + exists [], token. split; [done|]. by apply Htoken.
      + exists [], token. split; [done|]. by apply Htoken.
    - destruct (IH k lev closing Hd Hraised) as (raw & token' & -> & Hc).
      by exists (token :: raw), token'. }
  destruct (pseudo_token (String c s)) as [[start len]|] eqn:Hp.
  - destruct (pseudo_token_empty _ _ _ Hp) as [Hstart Hlen].
    destruct len as [|len].
    { apply closes_span, closes_nonempty in Hs. rewrite <- Hstart in Hs. by apply Hs in Hlen. }
    assert (Hmove : forall n, str_drop (start + S len + n) (String c s) <> String c s).
    { intros n E. apply (f_equal String.length) in E.
      assert (Hl : forall k t, String.length (str_drop (S k) (String c t)) <= String.length t).
      { clear. intros k. induction k as [|k IHk]; intros t; cbn [str_drop]; [lia|].
        destruct t as [|d t]; [cbn; lia|]. specialize (IHk t). cbn [str_drop String.length] in *. lia. }
      replace (start + S len + n) with (S (start + len + n)) in E by lia.
      specialize (Hl (start + len + n) s). cbn [String.length] in E. lia. }
    destruct (triple_quoted _) as [q|].
    + destruct (end_of_triple _ _) as [n|]; [|discriminate Hr]. cbn [yield yielded raised] in *.
      replace (start + S len + n - 1) with ((start + (S len + n)) - 1) in * by lia.
      apply Hnext; [|by apply token_at_end|done].
      replace (start + (S len + n)) with (start + S len + n) by lia. apply Hmove.
    + cbn [yield yielded raised] in *.
      apply Hnext; [|by apply token_at_end|done].
      replace (start + S len) with (start + S len + 0) by lia. apply Hmove.
  - cbn [yield yielded raised] in *. destruct s as [|d s].
    { destruct Hs as [[|e y] Hy]; [|by destruct y]. injection Hy as ->. discriminate Hp. }
    assert (Hs' : closes (String d s)).
    { destruct Hs as [[|e y] Hy]; [discriminate Hy|]. injection Hy as _ Hy. by exists y. }
    destruct (IH 0 parenlev closing Hs' Hr) as (raw & token & -> & Hc).
    by exists (String c "" :: raw), token.
Qed.

Lemma rev_string_onto s t : forall acc,
  rev_string (s +:+ t) acc = rev_string t (rev_string s acc).
Proof. induction s as [|c s IH]; intros acc; [done|]. rewrite append_cons. apply IH. Qed.

(** a token that ends with a parenthesis is no field name and no negation *)
Lemma get_token_type_closes token ty :
  closes token -> get_token_type token = Ok ty -> ty <> T_FIELD /\ ty <> T_NOT.
Proof.
  intros [y ->]. unfold get_token_type.
  assert (Hlast : forall w, String.eqb (lower (y +:+ ")")) w = true ->
                            endswith ")" w = true).
  { intros w E%String.eqb_eq. rewrite <- E. unfold endswith.
    by rewrite lower_app, rev_string_onto. }
  assert (Hnot : String.eqb (lower (y +:+ ")")) "not" || String.eqb (lower (y +:+ ")")) "!"
                 || String.eqb (lower (y +:+ ")")) "-" = false).
  { destruct (String.eqb _ "not") eqn:E1; [by apply Hlast in E1|].
    destruct (String.eqb _ "!") eqn:E2; [by apply Hlast in E2|].
    destruct (String.eqb _ "-") eqn:E3; [by apply Hlast in E3|]. done. }
  assert (Hfield : endswith FIELD_PLACEHOLDER (y +:+ ")") = false).
  { unfold endswith. by rewrite rev_string_onto. }
  rewrite Hnot, Hfield.
  repeat match goal with
         | |- context [if ?b then _ else _] => destruct b
         end; intros [= <-]; done.
Qed.

Lemma classify_last raw token closing : forall tokens,
  Forall (fun t => t = "") closing -> closes token ->
  classify (raw ++ token :: closing) = Ok tokens -> closed tokens.
Proof.
  intros tokens Hc Ht. revert tokens.
  assert (He : classify closing = Ok []) by exact (classify_empty [] closing Hc).
  assert (Hlen : (0 <? String.length token) = true).
  { destruct Ht as [y ->]. apply Nat.ltb_lt. rewrite string_length_app. cbn [String.length]. lia. }
  assert (Hone : forall tokens, classify (token :: closing) = Ok tokens ->
                 exists ty, tokens = [mkToken token ty] /\ ty <> T_FIELD /\ ty <> T_NOT).
  { intros tokens. cbn [classify]. rewrite Hlen, He.
    destruct (get_token_type token) as [ty|] eqn:Ety; cbn [bind]; [|discriminate].
    intros [= <-]. exists ty. split; [done|]. by eapply get_token_type_closes. }
  induction raw as [|v raw IH]; intros tokens.
  - cbn [app]. intros (ty & -> & H)%Hone. exact H.
  - cbn [app classify]. destruct (0 <? String.length v); [|by apply IH].
    destruct (get_token_type v); cbn [bind]; [|discriminate].
    destruct (classify (raw ++ token :: closing)) as [l|] eqn:El; cbn [bind]; [|discriminate].
    intros [= <-]. specialize (IH l eq_refl). unfold closed in *.
    destruct l as [|t l]; [|by rewrite last_cons_cons].
    exfalso. clear IH. revert El. clear -Hone. induction raw as [|w raw IHr]; cbn [app classify].
    + intros (ty & E & _)%Hone. discriminate E.
    + destruct (0 <? String.length w); [|exact IHr].
      destruct (get_token_type w); cbn [bind]; [|discriminate].
      destruct (classify (raw ++ token :: closing)); cbn [bind]; discriminate.
Qed.

(** the normalized query starts with the parenthesis that [parse] puts
    before it *)
Lemma normalize_open query : exists rest, normalize ("( " +:+ query) = String "(" rest.
Proof.
  rewrite normalize_folded, folded_app. change (folded "( ") with "( ".
  rewrite !append_cons, append_nil_l. unfold sub_ranges. cbn [sub_ranges_from].
  change (range_length (String "(" _)) with (@None nat). cbn iota.
  unfold replace. cbn [replace_from startswith Ascii.eqb Bool.eqb andb]. by eexists.
Qed.

(** the tokens [parse] hands to the parser do not end with a field name or
    a negation *)
Lemma get_tokens_closed query tokens :
  get_tokens ("( " +:+ query +:+ " )") = Ok tokens -> closed tokens.
Proof.
  intros [Hc Hr]%get_tokens_Ok.
  destruct (normalize_open (query +:+ " )")) as [rest Hopen].
  destruct (normalize_suffix query) as [z Hz].
  assert (Hcloses : closes (String "(" rest)).
  { rewrite <- Hopen, Hz. exists (z +:+ " "). by rewrite append_assoc. }
  rewrite Hopen in Hc, Hr. unfold generate_tokens in Hc, Hr.
  change (span is_whitespace (String "(" rest)) with 0 in Hc, Hr.
  cbn [str_drop] in Hc, Hr.
  change (code "(" =? 35) with false in Hc, Hr. change (is_newline "(") with false in Hc, Hr.
  change (indentation 0 (String "(" rest)) with 0 in Hc, Hr.
  cbn [Nat.ltb Nat.leb] in Hc, Hr.
  destruct (tokenize_from_last _ 0 _ _ Hcloses Hr) as (raw & token & Hy & Ht).
  rewrite Hy in Hc. eapply classify_last; [|exact Ht|exact Hc].
  apply Forall_app. split; [apply implicit_newline_empty|by repeat constructor].
Qed.

(** X10.  The pops of the parser: [__parse_tokens] raises no [IndexError]
    on a token list whose last token is neither a field name nor a
    negation; [parse], which appends a closing parenthesis to the query,
    raises none on any query; a list that ends with a negation or with a
    field name does raise it. *)
Theorem pops_stay_within_bounds :
  (forall tokens, closed tokens -> parse_tokens_top tokens <> Err IndexError)
  /\ (forall solr_query, parse solr_query <> Err IndexError)
  /\ parse_tokens_top [tok "-" T_NOT] = Err IndexError
  /\ parse_tokens_top [tok "(" T_OPEN; tok "sentence__FIELD__" T_FIELD] = Err IndexError.
Proof.
  assert (Htop : forall tokens, closed tokens -> parse_tokens_top tokens <> Err IndexError).
  { intros tokens Hc. unfold parse_tokens_top.
    assert (H := parse_tokens_no_IndexError (enough_fuel tokens) tokens WANT_START
                   None None false Hc).
    destruct (parse_tokens _ _ _ _ _ _) as [[c rest]|e]; cbn [bind]; [discriminate|].
    cbn in H. congruence. }
  split; [exact Htop|]. split; [|split; reflexivity].
  intros solr_query. unfold parse, decode_string_from_bytes_if_needed.
  destruct (get_tokens _) as [tokens|e] eqn:Htok; cbn [bind].
  - apply get_tokens_closed in Htok. by apply Htop.
  - intros [= ->]. revert Htok. unfold get_tokens. cbn zeta.
    destruct (classify _) as [l|e] eqn:Hc; cbn [bind].
    + destruct (raised _) as [e|] eqn:Hr; [|discriminate].
      apply generate_tokens_raises in Hr as ->. discriminate.
    + apply classify_error in Hc as [m ->]. discriminate.
Qed.

(** *** A negated field *)

Lemma parse_negated_field f x y :
  parse_tokens_top [tok "(" T_OPEN; tok "-" T_NOT; tok f T_FIELD; tok x T_TERM; tok "and" T_AND;
                    tok y T_TERM; tok ")" T_CLOSE]
  = Ok (Some (NotNode None
                (AndNode None [Some (FieldNode None (replace FIELD_PLACEHOLDER "" f)
                                       (term_clause x));
                               Some (term_clause y)])))
  /\ parse_tokens_top [tok "(" T_OPEN; tok "-" T_NOT; tok x T_TERM; tok "and" T_AND;
                       tok y T_TERM; tok ")" T_CLOSE]
  = Ok (Some (AndNode None [Some (NotNode None (term_clause x)); Some (term_clause y)])).
Proof. split; vm_compute; reflexivity. Qed.

(** X18.  A negation in front of a field clause takes the rest of the
    group: [-f:a and b] parses to the Not node of the And node of [f:a] and
    b, where [-a and b] parses to the And node of the Not node of a, and of
    b. *)
Theorem negated_field_takes_the_rest f a b :
  is_name f = true -> is_term_name a = true -> is_term_name b = true ->
  parse ("-" +:+ f +:+ ":" +:+ a +:+ " and " +:+ b)
  = Ok (Some (NotNode None
                (AndNode None [Some (FieldNode None (lower f)
                                       (TermNode None (lower a) false false));
                               Term (lower b)])))
  /\ parse ("-" +:+ a +:+ " and " +:+ b)
     = Ok (Some (AndNode None [Some (NotNode None (TermNode None (lower a) false false));
                               Term (lower b)])).
Proof.
  intros Hf Ha Hb. names.
  assert (Htok1 : get_tokens ("( " +:+ ("-" +:+ f +:+ ":" +:+ a +:+ " and " +:+ b) +:+ " )")
    = Ok [tok "(" T_OPEN; tok "-" T_NOT; tok (lower f +:+ FIELD_PLACEHOLDER) T_FIELD;
          tok (lower a) T_TERM; tok "and" T_AND; tok (lower b) T_TERM; tok ")" T_CLOSE]).
  { lex_rewritten [Sym "("; Blank; Sym "-"; Word (lower f +:+ FIELD_PLACEHOLDER); Blank;
                   Word (lower a); Blank; Word "and"; Blank; Word (lower b); Blank; Sym ")"].
    - rewrite get_token_type_field by done.
      replace (0 <? String.length (lower f +:+ FIELD_PLACEHOLDER)) with true.
      + by repeat match goal with H : _ = _ |- _ => rewrite H end.
      + symmetry. apply Nat.ltb_lt. rewrite string_length_app. cbn [FIELD_PLACEHOLDER String.length]. lia.
    - rewrite is_name_app by done.
      by repeat match goal with H : is_name _ = _ |- _ => rewrite H end. }
  assert (Htok2 : get_tokens ("( " +:+ ("-" +:+ a +:+ " and " +:+ b) +:+ " )")
    = Ok [tok "(" T_OPEN; tok "-" T_NOT; tok (lower a) T_TERM; tok "and" T_AND;
          tok (lower b) T_TERM; tok ")" T_CLOSE]).
  { lex_rewritten [Sym "("; Blank; Sym "-"; Word (lower a); Blank; Word "and"; Blank;
                   Word (lower b); Blank; Sym ")"].
    - by repeat match goal with H : _ = _ |- _ => rewrite H end.
    - by repeat match goal with H : is_name _ = _ |- _ => rewrite H end. }
  unfold parse, decode_string_from_bytes_if_needed. rewrite Htok1, Htok2. cbn [bind].
  destruct (parse_negated_field (lower f +:+ FIELD_PLACEHOLDER) (lower a) (lower b)) as [-> ->].
  rewrite !term_clause_lower.
  by rewrite (replace_placeholder_suffix "F" "IELD__").
Qed.

Lemma negated_field_takes_the_rest_witness :
  parse "-sentence:foo and bar"
  = Ok (Some (NotNode None
                (AndNode None [Some (FieldNode None "sentence" (TermNode None "foo" false false));
                               Term "bar"])))
  /\ parse "-foo and bar"
     = Ok (Some (AndNode None [Some (NotNode None (TermNode None "foo" false false));
                               Term "bar"])).
Proof. apply (negated_field_takes_the_rest "sentence" "foo" "bar"); vm_compute; reflexivity. Defined.


Lemma repr_chain t terms :
  repr (mk_boolean t None (map Term terms))
  = "( " +:+ join (" " +:+ plain_connector t +:+ " ") terms +:+ " )".
Proof.
  assert (Hmap : map (fun x => match x with Some x => repr x | None => "None" end)
                   (map Term terms) = terms).
  { induction terms as [|w terms IH]; [done|]. cbn [map Term repr negb]. by rewrite IH. }
  destruct t; cbn [mk_boolean repr plain_connector]; by rewrite Hmap.
Qed.

(** a chain in a group of its own *)
Lemma parse_group_chain t w terms :
  parse_tokens_top (tok "(" T_OPEN :: tok "(" T_OPEN :: tok w T_TERM
                    :: chain_tokens t terms ++ [tok ")" T_CLOSE; tok ")" T_CLOSE])
  = Ok (Some (chain_node t (w :: terms))).
Proof.
  unfold parse_tokens_top, enough_fuel.
  cbn [length]. rewrite List.length_app. cbn [length].
  replace (2 * S (S (S (length (chain_tokens t terms) + 2))) + 2)
    with (S (S (S (S (2 * length (chain_tokens t terms) + 8))))) by lia.
  set (fuel := 2 * length (chain_tokens t terms) + 8).
  assert (Hstart : forall tokens,
    parse_tokens (S (S (S (S fuel)))) (tok "(" T_OPEN :: tok "(" T_OPEN :: tok w T_TERM :: tokens)
      WANT_START None None false
    = let! (clause, tokens) :=
        (let! (clause, tokens) :=
           parse_tokens (S fuel) tokens (WANT_OPERATOR ++ [T_CLOSE]) (Some (term_clause w))
             None false in
         parse_tokens (S (S fuel)) tokens (WANT_AFTER_GROUP ++ [T_CLOSE]) clause None false) in
      parse_tokens (S (S (S fuel))) tokens (WANT_AFTER_GROUP ++ [T_CLOSE]) clause None false)
    by reflexivity.
  rewrite Hstart.
  change (Some (term_clause w)) with (Some (chain_node t [w])).
  rewrite (chain_loop t terms (S fuel) [w] [tok ")" T_CLOSE]); [done|done|].
  assert (length terms <= length (chain_tokens t terms)).
  { clear. induction terms; simpl; lia. }
  unfold fuel. lia.
Qed.

(** X19.  Round trip: what [str] prints of an And or Or node over two or
    more term names in lower case parses back to that node. *)
Theorem parse_repr_of_chain t a b terms :
  Forall (fun w => is_term_name w = true /\ no_upper w = true) (a :: b :: terms) ->
  parse (repr (mk_boolean t None (map Term (a :: b :: terms))))
  = Ok (Some (mk_boolean t None (map Term (a :: b :: terms)))).
Proof.
  intros Hws.
  assert (Hty : Forall (fun w => get_token_type w = Ok T_TERM) (a :: b :: terms)).
  { eapply Forall_impl; [exact Hws|]. intros w [Hw Hu].
    apply is_term_name_spec in Hw as (Hw & _). by rewrite (no_upper_lower w Hu) in Hw. }
  assert (Hmw : Forall (fun w => match_word w = true) (a :: b :: terms)).
  { eapply Forall_impl; [exact Hty|]. intros w Hw. by apply term_is_word. }
  assert (Hnm : Forall (fun w => is_name w = true) (a :: b :: terms)).
  { eapply Forall_impl; [exact Hws|]. intros w [Hw _].
    by apply andb_true_iff in Hw as [? _]. }
  assert (Hpl : Forall (fun w => plain w = true) (a :: b :: terms)).
  { eapply Forall_impl; [exact Hmw|]. intros w [Hw _]%andb_true_iff. by apply word_plain. }
  assert (Hup : Forall (fun w => no_upper w = true) (a :: b :: terms)).
  { eapply Forall_impl; [exact Hws|]. by intros w [_ ?]. }
  rewrite repr_chain.
  assert (Htok : get_tokens ("( " +:+ ("( " +:+ join (" " +:+ plain_connector t +:+ " ")
                                                  (a :: b :: terms) +:+ " )") +:+ " )")
    = Ok (tok "(" T_OPEN :: tok "(" T_OPEN :: tok a T_TERM
          :: chain_tokens t (b :: terms) ++ [tok ")" T_CLOSE; tok ")" T_CLOSE])).
  { rewrite (get_tokens_lexemes _
      (Sym "(" :: Blank :: Sym "(" :: Blank :: Word a
       :: chain_lexemes t (b :: terms) ++ [Blank; Sym ")"; Blank; Sym ")"])).
    - apply Forall_cons in Hty as [Ha Hty].
      assert (Hlen : (0 <? String.length a) = true).
      { apply term_is_word in Ha. by apply andb_true_iff in Ha as [_ ?]. }
      cbn [texts classify].
      change (0 <? String.length "(") with true. cbn iota.
      change (get_token_type "(") with (@Ok token_kind T_OPEN). cbn [bind].
      rewrite Hlen, Ha. cbn [bind].
      by rewrite (classify_chain t _ [Blank; Sym ")"; Blank; Sym ")"]
                    [tok ")" T_CLOSE; tok ")" T_CLOSE]).
    - assert (Hjp : plain (join (" " +:+ plain_connector t +:+ " ") (a :: b :: terms)) = true).
      { apply all_chars_join; [by destruct t|done]. }
      assert (Hju : no_upper (join (" " +:+ plain_connector t +:+ " ") (a :: b :: terms)) = true).
      { apply all_chars_join; [by destruct t|done]. }
      rewrite normalize_plain; rewrite !lower_app, (no_upper_lower _ Hju).
      + change (lower "( ") with "( ". change (lower " )") with " )".
        change (Sym "(" :: Blank :: Sym "(" :: Blank :: Word a
                :: chain_lexemes t (b :: terms) ++ [Blank; Sym ")"; Blank; Sym ")"])
          with ([Sym "("; Blank; Sym "("; Blank]
                ++ (Word a :: chain_lexemes t (b :: terms))
                ++ [Blank; Sym ")"; Blank; Sym ")"]).
        rewrite !render_app, render_chain. cbn [render]. by rewrite !append_assoc.
      + rewrite !plain_app, Hjp. reflexivity.
    - apply lexemes_ok_intro; [reflexivity| |].
      + change (lexemes_fit (Sym "(" :: Blank :: Sym "(" :: Blank :: ?l)) with (lexemes_fit l).
        by apply lexemes_fit_chain.
      + cbn [level]. by rewrite level_chain. }
  unfold parse, decode_string_from_bytes_if_needed. rewrite Htok. cbn [bind].
  rewrite parse_group_chain. unfold chain_node, Term. do 3 f_equal.
  apply map_ext_Forall. eapply Forall_impl; [exact Hup|]. intros w Hw. f_equal.
  rewrite <- (no_upper_lower w) by done. apply term_clause_lower.
Qed.

Lemma parse_repr_of_chain_witness :
  parse (repr (OrNode None [Term "a"; Term "b"; Term "c"]))
  = Ok (Some (OrNode None [Term "a"; Term "b"; Term "c"])).
Proof.
  apply (parse_repr_of_chain OrType "a" "b" ["c"]).
  repeat constructor.
Defined.

(** *** Upper case and exclamation marks *)

Lemma lower_char_bang c : Ascii.eqb "!" (lower_char c) = Ascii.eqb "!" c.
Proof.
  unfold lower_char. destruct (is_upper c) eqn:Hu; [|done].
  unfold is_upper, between in Hu. apply andb_true_iff in Hu as [H1 H2].
  apply Nat.leb_le in H1, H2.
  transitivity false; [|symmetry]; apply Ascii.eqb_neq; intros H.
  - apply (f_equal code) in H. rewrite code_of_nat in H by lia.
    change (code "!") with 33 in H. lia.
  - subst c. change (code "!") with 33 in H1. lia.
Qed.

Lemma lower_replace_bang s : lower (replace "!" "-" s) = replace "!" "-" (lower s).
Proof.
  unfold replace. induction s as [|c s IH]; [done|].
  cbn [lower replace_from startswith String.length Nat.sub].
  rewrite lower_char_bang. destruct (Ascii.eqb "!" c); cbn [andb].
  - rewrite !append_cons, !append_nil_l. cbn [lower]. by rewrite IH.
  - cbn [lower]. by rewrite IH.
Qed.

Lemma replace_bang_twice s : replace "!" "-" (replace "!" "-" s) = replace "!" "-" s.
Proof.
  apply replace_absent. unfold replace. induction s as [|c s IH]; [done|].
  cbn [replace_from startswith String.length Nat.sub].
  destruct (Ascii.eqb "!" c) eqn:Ec; cbn [andb].
  - rewrite append_cons, append_nil_l. cbn [has_char]. by rewrite IH.
  - cbn [has_char]. by rewrite Ec, IH.
Qed.

(** X1.  Upper case and [!]: a query parses as the same query in lower
    case does, and as the query with [-] in the place of every [!] does. *)
Theorem parse_folds_case_and_bang solr_query :
  parse (lower solr_query) = parse solr_query
  /\ parse (replace "!" "-" solr_query) = parse solr_query.
Proof.
  unfold parse, decode_string_from_bytes_if_needed, get_tokens, normalize. split.
  - by rewrite !lower_app, lower_idempotent.
  - change ("( " +:+ replace "!" "-" solr_query +:+ " )")
      with (replace "!" "-" "( " +:+ replace "!" "-" solr_query +:+ replace "!" "-" " )").
    by rewrite <- !replace_char_app, lower_replace_bang, replace_bang_twice.
Qed.

(** *** Negated operands and the regex *)

Lemma filter_operands_app f l1 l2 :
  filter_operands (filter_tree f) (l1 ++ l2)
  = (let! a := filter_operands (filter_tree f) l1 in
     let! b := filter_operands (filter_tree f) l2 in
     Ok (a ++ b)).
Proof.
  induction l1 as [|o l1 IH]; cbn [app filter_operands].
  - cbn [bind]. by destruct (filter_operands (filter_tree f) l2).
  - destruct o as [x|]; [|reflexivity].
    destruct (filter_tree f x) as [r|]; cbn [bind]; [|reflexivity].
    rewrite IH. destruct (filter_operands (filter_tree f) l1) as [a|]; cbn [bind]; [|done].
    destruct r; cbn [bind];
      by destruct (filter_operands (filter_tree f) l2) as [b|]; cbn [bind].
Qed.

Lemma filter_operands_negated before operand after :
  filter_operands (filter_tree node_is_field_or_noop_or_not)
    (before ++ Some (NotNode None operand) :: after)
  = filter_operands (filter_tree node_is_field_or_noop_or_not) (before ++ after).
Proof.
  rewrite !filter_operands_app.
  destruct (filter_operands _ before) as [a|]; cbn [bind]; [|done].
  change (filter_operands (filter_tree node_is_field_or_noop_or_not)
            (Some (NotNode None operand) :: after))
    with (let! filtered_operands :=
            filter_operands (filter_tree node_is_field_or_noop_or_not) after in
          Ok filtered_operands).
  by destruct (filter_operands _ after).
Qed.

(** X24.  A negated operand adds nothing to the regex: the regex of an And
    or Or node is that of the node without its Not operand. *)
Theorem re_ignores_negated_operands t before operand after :
  re (mk_boolean t None (before ++ Some (NotNode None operand) :: after))
  = re (mk_boolean t None (before ++ after)).
Proof.
  unfold re. destruct t; cbn [mk_boolean filter_tree filtered_by];
    change (memo_is None node_is_field_or_noop_or_not) with false;
    cbn [fn_call node_is_field_or_noop_or_not];
    by rewrite filter_operands_negated.
Qed.

(** *** The filter keeps a tree flattened *)

Lemma filter_tree_class f t t' :
  filtered_by t = None -> filter_tree f t = Ok (Some t') ->
  is_and t' = is_and t /\ is_or t' = is_or t.
Proof.
  intros Hm. destruct t as [m term wildcard phrase|m ts|m ts|m x|m field x|m];
    cbn [filter_tree filtered_by] in *; subst m;
    change (memo_is None f) with false; cbn iota;
    (destruct (fn_call f _); [done|]).
  - by intros [= <-].
  - destruct (filter_operands _ ts) as [rs|e]; cbn [bind]; [|done].
    by destruct (0 <? length rs); intros [= <-].
  - destruct (filter_operands _ ts) as [rs|e]; cbn [bind]; [|done].
    by destruct (0 <? length rs); intros [= <-].
  - destruct (filter_tree f x) as [[r|]|e]; cbn [bind]; try done. by intros [= <-].
  - destruct (filter_tree f x) as [[r|]|e]; cbn [bind]; try done. by intros [= <-].
  - by intros [= <-].
Qed.

Lemma filter_operands_flattened f (avoid : node -> bool) operands :
  (forall x x', filtered_by x = None -> filter_tree f x = Ok (Some x') -> avoid x' = avoid x) ->
  Forall (fun o => match o with
                   | Some x => never_filtered x = true -> flattened x = true ->
                       forall t', filter_tree f x = Ok (Some t') -> flattened t' = true
                   | None => True
                   end) operands ->
  forallb (fun o => match o with Some x => never_filtered x | None => true end) operands = true ->
  forallb (fun o => match o with Some x => negb (avoid x) && flattened x | None => true end)
    operands = true ->
  forall l, filter_operands (filter_tree f) operands = Ok l ->
  forallb (fun o => match o with Some x => negb (avoid x) && flattened x | None => true end)
    l = true.
Proof.
  intros Havoid. induction 1 as [|o operands Ho _ IH]; simpl; intros Hnf Hfl l.
  - by intros [= <-].
  - destruct o as [x|]; [|discriminate].
    apply andb_true_iff in Hnf as [Hx Hnf]. apply andb_true_iff in Hfl as [Hfx Hfl].
    apply andb_true_iff in Hfx as [Hax Hfx].
    destruct (filter_tree f x) as [r|e] eqn:Ex; cbn [bind]; [|discriminate].
    destruct (filter_operands (filter_tree f) operands) as [l'|e]; cbn [bind]; [|discriminate].
    specialize (IH Hnf Hfl l' eq_refl).
    destruct r as [t'|]; intros [= <-]; [|done].
    simpl. rewrite IH, (Ho Hx Hfx t' eq_refl).
    by rewrite (Havoid x t' (never_filtered_root _ Hx) Ex), Hax.
Qed.

(** X21.  The filter keeps a tree flattened: a node it copies keeps its
    class, and no operand list is spliced into another. *)
Theorem filter_tree_keeps_flattened f t :
  never_filtered t = true -> flattened t = true ->
  forall t', filter_tree f t = Ok (Some t') -> flattened t' = true.
Proof.
  induction t as [m term wildcard phrase|m operands IH|m operands IH|m operand IH
                 |m field operand IH|m] using node_induction;
    intros Hnf Hfl t'; cbn [filter_tree]; rewrite (never_filtered_memo _ _ Hnf);
    (destruct (fn_call f _); [discriminate|]).
  - by intros [= <-].
  - simpl in Hnf, Hfl. apply andb_true_iff in Hnf as [_ Hnf].
    destruct (filter_operands _ operands) as [l|e] eqn:El; cbn [bind]; [|discriminate].
    destruct (0 <? length l); intros [= <-]. cbn [flattened].
    eapply (filter_operands_flattened f is_and); try eassumption.
    intros x x' Hm Hx. by destruct (filter_tree_class f x x' Hm Hx).
  - simpl in Hnf, Hfl. apply andb_true_iff in Hnf as [_ Hnf].
    destruct (filter_operands _ operands) as [l|e] eqn:El; cbn [bind]; [|discriminate].
    destruct (0 <? length l); intros [= <-]. cbn [flattened].
    eapply (filter_operands_flattened f is_or); try eassumption.
    intros x x' Hm Hx. by destruct (filter_tree_class f x x' Hm Hx).
  - simpl in Hnf, Hfl. apply andb_true_iff in Hnf as [_ Hnf].
    destruct (filter_tree _ operand) as [[o|]|e] eqn:Eo; cbn [bind]; try discriminate.
    intros [= <-]. simpl. by apply IH.
  - simpl in Hnf, Hfl. apply andb_true_iff in Hnf as [_ Hnf].
    destruct (filter_tree _ operand) as [[o|]|e] eqn:Eo; cbn [bind]; try discriminate.
    intros [= <-]. simpl. by apply IH.
  - by intros [= <-].
Qed.

Lemma filter_tree_keeps_flattened_witness : flattened example_tsquery_filtered = true.
Proof.
  apply (filter_tree_keeps_flattened node_is_field_or_noop example_tree eq_refl eq_refl
           example_tsquery_filtered).
  reflexivity.
Defined.

(** *** Punctuation *)

(** X6.  One of the characters [.,;=%&|^@] between two names is a syntax
    error (unrecognized token). *)
Theorem punctuation_rejected a b c :
  is_term_name a = true -> is_name b = true -> has_char c ".,;=%&|^@" = true ->
  parse (a +:+ String c b) = Err (ParseSyntaxError UnrecognizedToken).
Proof.
  intros Ha Hb Hc. names.
  assert (Htok : get_tokens ("( " +:+ (a +:+ String c "" +:+ b) +:+ " )")
    = Err (ParseSyntaxError UnrecognizedToken)).
  { cbn [has_char] in Hc.
    repeat (apply orb_true_iff in Hc as [Hc|Hc];
            [apply Ascii.eqb_eq in Hc; subst c;
             match goal with
             | |- context [a +:+ String ?c "" +:+ b] =>
                 lex_with [Sym "("; Blank; Word (lower a); Sym c; Word (lower b); Blank; Sym ")"]
             end|]).
    discriminate Hc. }
  unfold parse, decode_string_from_bytes_if_needed.
  change (String c b) with (String c "" +:+ b). by rewrite Htok.
Qed.

Lemma punctuation_rejected_witness :
  parse "foo.bar" = Err (ParseSyntaxError UnrecognizedToken).
Proof. apply (punctuation_rejected "foo" "bar" "."); vm_compute; reflexivity. Defined.
